(** * btor2mlir: the eBPF lifter and two local rewrite passes

    A shallow embedding of
    - [lib/Dialect/ebpf/Transforms/ResolveMemory.cpp] (module [ResolveMemory]),
    - [lib/Dialect/Btor/Transforms/BtorLiveness.cpp] (module [BtorLiveness]),
    - the eBPF-to-IR translation unit (module [Deserialize]),
    over a small model of the MLIR data structures these files manipulate:
    operations kept in ordered blocks, values with explicit use lists, and a
    builder that creates operations at an insertion point.

    C++ [assert]s, [std::vector::at] range errors and [std::get] on the wrong
    alternative are modelled as explicit failures of a result monad. *)

From Stdlib Require Import ZArith NArith String.
From stdpp Require Import base decidable countable option list gmap sets strings sorting.

Local Open Scope string_scope.
Local Open Scope list_scope.

(** ** Failures and the result monad *)

Inductive Failure :=
  | AssertionFailed (cond : string)
  | OutOfRange (what : string)
  | BadVariantAccess
  | UndefinedBehaviour (what : string)
  | FuelExhausted.

Inductive Result (A : Type) :=
  | Done (a : A)
  | Stop (f : Failure).
Arguments Done {A} a.
Arguments Stop {A} f.

#[global] Instance Failure_eq_dec : EqDecision Failure.
Proof. solve_decision. Defined.

#[global] Instance Result_ret : MRet Result := fun _ a => Done a.
#[global] Instance Result_bind : MBind Result :=
  fun _ _ f r => match r with Done a => f a | Stop e => Stop e end.
#[global] Instance Result_fmap : FMap Result :=
  fun _ _ f r => match r with Done a => Done (f a) | Stop e => Stop e end.

Definition assert (b : bool) (cond : string) : Result unit :=
  if b then Done tt else Stop (AssertionFailed cond).

Definition fromOption {A} (o : option A) (e : Failure) : Result A :=
  match o with Some a => Done a | None => Stop e end.

Definition isDone {A} (r : Result A) : bool :=
  match r with Done _ => true | Stop _ => false end.

(** [mlir::LogicalResult] *)
Inductive LogicalResult := success | failure.

Definition succeeded (s : LogicalResult) : bool :=
  match s with success => true | failure => false end.

#[global] Instance LogicalResult_eq_dec : EqDecision LogicalResult.
Proof. solve_decision. Defined.

(** ** The IR model *)

(** A value is the result of an operation, a block argument, or the null
    [Value] a default-constructed handle holds. *)
Inductive Value :=
  | OpResult (op : nat)
  | BlockArgument (blk : nat) (idx : nat)
  | NullValue.

#[global] Instance Value_eq_dec : EqDecision Value.
Proof. solve_decision. Defined.

#[global] Instance Value_countable : Countable Value.
Proof.
  refine (inj_countable'
    (fun v => match v with
              | OpResult o => inl o
              | BlockArgument b i => inr (Some (b, i))
              | NullValue => inr None
              end)
    (fun s => match s with
              | inl o => OpResult o
              | inr (Some (b, i)) => BlockArgument b i
              | inr None => NullValue
              end) _).
  by intros [].
Defined.

(** Operation names of the three dialects the sources mention. *)
Inductive OpName :=
  (* ebpf memory operations *)
  | LoadOp | Load32Op | Load16Op | Load8Op
  | StoreOp | Store32Op | Store16Op | Store8Op
  | LoadAddrOp | LoadMapOp
  (* ebpf binary operations *)
  | MoveOp | Move8Op | Move16Op | Move32Op
  | AddOp | SubOp | MulOp | UDivOp | SDivOp | UModOp | SModOp
  | OrOp | AndOp | LSHOp | RSHOp | ShiftRAOp | XOrOp
  (* ebpf unary operations *)
  | BE16 | BE32 | BE64 | LE16 | LE32 | LE64 | SWAP16 | SWAP32 | SWAP64 | NegOp
  | ConstantOp
  (* std *)
  | BranchOp | CondBranchOp | ReturnOp
  (* btor *)
  | WriteOp | WriteInPlaceOp | ReadOp | IteOp
  | OtherOp (name : string).

#[global] Instance OpName_eq_dec : EqDecision OpName.
Proof. solve_decision. Defined.

(** [OpTrait::IsTerminator] *)
Definition isTerminator (n : OpName) : bool :=
  match n with
  | BranchOp | CondBranchOp | ReturnOp => true
  | _ => false
  end.

Record Operation := {
  op_id : nat;                  (* identity of the operation (its address) *)
  op_name : OpName;
  op_operands : list Value;
  op_successor : option nat;    (* destination block of a branch *)
  op_attr : option Z            (* value attribute of a constant *)
}.

#[global] Instance Operation_eq_dec : EqDecision Operation.
Proof. solve_decision. Defined.

(** One entry of a value's use list: the owner and the operand number. *)
Record Use := { use_owner : nat; use_index : nat }.

#[global] Instance Use_eq_dec : EqDecision Use.
Proof. solve_decision. Defined.

Record Block := {
  blk_id : nat;
  blk_nargs : nat;              (* number of block arguments *)
  blk_ops : list Operation
}.

Record FuncOp := {
  fn_name : string;
  fn_blocks : list Block        (* the blocks of region 0 *)
}.

(** What a module's body holds. *)
Inductive TopLevelOp :=
  | TopFunc (f : FuncOp)
  | TopOther (name : string).

Record ModuleOp := {
  mod_body : list TopLevelOp;
  mod_uses : gmap Value (list Use);   (* the use list of every value, head first *)
  mod_fresh : nat                     (* identity of the next created operation *)
}.

Definition topBlocks (t : TopLevelOp) : list Block :=
  match t with TopFunc f => fn_blocks f | TopOther _ => [] end.

Definition allBlocks (m : ModuleOp) : list Block :=
  concat (map topBlocks (mod_body m)).

Definition allOps (m : ModuleOp) : list Operation :=
  concat (map blk_ops (allBlocks m)).

Definition lookupOp (m : ModuleOp) (id : nat) : option Operation :=
  List.find (fun o => bool_decide (op_id o = id)) (allOps m).

Definition lookupBlock (m : ModuleOp) (b : nat) : option Block :=
  List.find (fun blk => bool_decide (blk_id blk = b)) (allBlocks m).

Definition blockOps (m : ModuleOp) (b : nat) : list Operation :=
  match lookupBlock m b with Some blk => blk_ops blk | None => [] end.

(** [Operation::getBlock] *)
Definition getBlock (m : ModuleOp) (id : nat) : option nat :=
  blk_id <$> List.find
    (fun blk => bool_decide (id ∈ map op_id (blk_ops blk))) (allBlocks m).

(** [Value::getUses], [use_empty], [hasOneUse] *)
Definition getUses (m : ModuleOp) (v : Value) : list Use :=
  default [] (mod_uses m !! v).

Definition use_empty (m : ModuleOp) (v : Value) : bool :=
  match getUses m v with [] => true | _ => false end.

Definition hasOneUse (m : ModuleOp) (v : Value) : bool :=
  match getUses m v with [_] => true | _ => false end.

(** Structural updates. *)
Definition mapBlock (f : list Operation -> list Operation) (b : Block) : Block :=
  {| blk_id := blk_id b; blk_nargs := blk_nargs b; blk_ops := f (blk_ops b) |}.

Definition mapTop (f : Block -> Block) (t : TopLevelOp) : TopLevelOp :=
  match t with
  | TopFunc fn => TopFunc {| fn_name := fn_name fn; fn_blocks := map f (fn_blocks fn) |}
  | TopOther n => TopOther n
  end.

Definition mapBlocks (f : Block -> Block) (m : ModuleOp) : ModuleOp :=
  {| mod_body := map (mapTop f) (mod_body m);
     mod_uses := mod_uses m;
     mod_fresh := mod_fresh m |}.

Definition mapOps (f : Operation -> Operation) (m : ModuleOp) : ModuleOp :=
  mapBlocks (mapBlock (map f)) m.

(** [IROperand::set]: operand [use_index u] of the owner becomes [v]. *)
Definition setOperand (u : Use) (v : Value) (o : Operation) : Operation :=
  if decide (op_id o = use_owner u) then
    {| op_id := op_id o; op_name := op_name o;
       op_operands := <[use_index u := v]> (op_operands o);
       op_successor := op_successor o; op_attr := op_attr o |}
  else o.

(** [Value::replaceAllUsesWith]: every use of [old], from the head of its use
    list, is detached and pushed on the head of the use list of [new]. *)
Definition replaceAllUsesWith (old new : Value) (m : ModuleOp) : ModuleOp :=
  let us := getUses m old in
  let m1 := foldl (fun acc u => mapOps (setOperand u new) acc) m us in
  {| mod_body := mod_body m1;
     mod_uses := <[new := rev us ++ getUses m new]> (delete old (mod_uses m));
     mod_fresh := mod_fresh m1 |}.

(** The uses a new operation adds: operand [i] is pushed on the head of the
    use list of its value, operands in order. *)
Fixpoint addUses (owner : nat) (i : nat) (operands : list Value)
    (uses : gmap Value (list Use)) : gmap Value (list Use) :=
  match operands with
  | [] => uses
  | v :: rest =>
      addUses owner (S i) rest
        (<[v := {| use_owner := owner; use_index := i |} :: default [] (uses !! v)]> uses)
  end.

Fixpoint insertAfter (id : nat) (new : Operation) (ops : list Operation) : list Operation :=
  match ops with
  | [] => []
  | o :: rest =>
      if decide (op_id o = id) then o :: new :: rest
      else o :: insertAfter id new rest
  end.

(** The operation a builder makes: the next free identity, no successor, no
    attribute. *)
Definition created (name : OpName) (operands : list Value) (m : ModuleOp) : Operation :=
  {| op_id := mod_fresh m; op_name := name; op_operands := operands;
     op_successor := None; op_attr := None |}.

(** [OpBuilder::setInsertionPointAfterValue(result of id)] followed by
    [create<name>(operands)]: the new operation is placed right after the
    defining operation and its result is returned. *)
Definition createAfter (id : nat) (name : OpName) (operands : list Value)
    (m : ModuleOp) : Value * ModuleOp :=
  let new := created name operands m in
  (OpResult (mod_fresh m),
   {| mod_body := mod_body (mapBlocks (mapBlock (insertAfter id new)) m);
      mod_uses := addUses (mod_fresh m) 0 operands (mod_uses m);
      mod_fresh := S (mod_fresh m) |}).

(** The operation after [id] in a list of operations (the iterator step of a
    range-for over [Block::getOperations]). *)
Fixpoint nextAfter (id : nat) (ops : list Operation) : option Operation :=
  match ops with
  | [] => None
  | o :: rest => if decide (op_id o = id) then head rest else nextAfter id rest
  end.

(** A range-for over the operations of block [b] that runs [visit] on each one.
    The list is live: the step from the current operation is taken in the
    block as [visit] left it, so operations inserted behind the current one
    are visited too. [fuel] bounds the number of visits. *)
Fixpoint walkFrom (visit : Operation -> ModuleOp -> Result ModuleOp)
    (fuel : nat) (b : nat) (cur : option Operation) (m : ModuleOp) : Result ModuleOp :=
  match cur with
  | None => Done m
  | Some op =>
      match fuel with
      | O => Stop FuelExhausted
      | S fuel' =>
          m' ← visit op m;
          walkFrom visit fuel' b (nextAfter (op_id op) (blockOps m' b)) m'
      end
  end.

(** The walk from the first operation of the block. Every visit of the two
    passes inserts at most one operation, which itself inserts nothing, so
    twice the length of the block is fuel enough ([resolve_walk_fuel],
    [liveness_walk_fuel]). *)
Definition walkBlock (visit : Operation -> ModuleOp -> Result ModuleOp)
    (b : nat) (m : ModuleOp) : Result ModuleOp :=
  walkFrom visit (2 * length (blockOps m b)) b (head (blockOps m b)) m.

(** Monadic left fold (a range-for whose body may fail). *)
Fixpoint foldM {A B} (f : A -> B -> Result A) (l : list B) (a : A) : Result A :=
  match l with
  | [] => Done a
  | x :: rest => a' ← f a x; foldM f rest a'
  end.

(** [Operation::erase] on the first operation of the module body: it leaves the
    body and the operands it held leave the use lists. *)
Definition eraseFront (m : ModuleOp) : ModuleOp :=
  match mod_body m with
  | [] => m
  | t :: rest =>
      let dead := map op_id (concat (map blk_ops (topBlocks t))) in
      {| mod_body := rest;
         mod_uses := filter (fun u => use_owner u ∉ dead) <$> mod_uses m;
         mod_fresh := mod_fresh m |}
  end.

(** The use lists a module has when its operations were created in textual
    order, and the module built that way (used to write down inputs). *)
Definition usesOf (ops : list Operation) : gmap Value (list Use) :=
  foldl (fun uses o => addUses (op_id o) 0 (op_operands o) uses) ∅ ops.

Definition mkModule (body : list TopLevelOp) : ModuleOp :=
  let ops := concat (map blk_ops (concat (map topBlocks body))) in
  {| mod_body := body;
     mod_uses := usesOf ops;
     mod_fresh := S (foldr Nat.max 0 (map op_id ops)) |}.

Definition mkOp (id : nat) (name : OpName) (operands : list Value) : Operation :=
  {| op_id := id; op_name := name; op_operands := operands;
     op_successor := None; op_attr := None |}.

(** ** ResolveMemory.cpp *)

Module ResolveMemory.

(** The ODS accessors [lhs()] and [rhs()]: operands 0 and 1. *)
Definition lhs (o : Operation) : Result Value :=
  fromOption (op_operands o !! 0%nat) (UndefinedBehaviour "lhs").

Definition rhs (o : Operation) : Result Value :=
  fromOption (op_operands o !! 1%nat) (UndefinedBehaviour "rhs").

(** The body of the loop over uses up to the first [assert]: the pair
    [(expectAddr, expectInt)] for one use of [res]. *)
Definition classifyUse (m : ModuleOp) (res : Value) (use : Use) : Result (bool * bool) :=
  owner ← fromOption (lookupOp m (use_owner use)) (UndefinedBehaviour "getOwner");
  match op_name owner with
  | StoreOp | Store32Op | Store16Op | Store8Op
  | LoadOp | Load32Op | Load16Op | Load8Op =>
      l ← lhs owner;
      Done (bool_decide (l = res), bool_decide (l ≠ res))
  | _ => Done (false, true)
  end.

(** The loop over [op.getResult().getUses()], carrying
    [(replaceWithMem, keepAsIs)]. *)
Fixpoint scanUses (m : ModuleOp) (res : Value) (uses : list Use)
    (replaceWithMem keepAsIs : bool) : Result (bool * bool) :=
  match uses with
  | [] => Done (replaceWithMem, keepAsIs)
  | use :: rest =>
      '(expectAddr, expectInt) ← classifyUse m res use;
      _ ← assert ((expectAddr && negb expectInt) || (negb expectAddr && expectInt))
            "(expectAddr && !expectInt) || (!expectAddr && expectInt)";
      let replaceWithMem := expectAddr && replaceWithMem in
      let keepAsIs := expectInt || keepAsIs in
      _ ← assert ((replaceWithMem && negb expectInt) || (negb replaceWithMem && expectInt))
            "(replaceWithMem && !expectInt) || (!replaceWithMem && expectInt)";
      scanUses m res rest replaceWithMem keepAsIs
  end.

Definition replaceLoadWithLoadAddress (op : Operation) (m : ModuleOp)
    : Result (LogicalResult * ModuleOp) :=
  let res := OpResult (op_id op) in
  _ ← assert (negb (use_empty m res)) "!op.getResult().use_empty()";
  '(replaceWithMem, keepAsIs) ← scanUses m res (getUses m res) true false;
  if (keepAsIs : bool) then Done (failure, m)
  else
    _ ← assert (bool_decide (op_name op = LoadOp)) "isa<ebpf::LoadOp>(op)";
    if bool_decide (op_name op = LoadOp) then
      l ← lhs op;
      r ← rhs op;
      let '(loadAddr, m1) := createAfter (op_id op) LoadAddrOp [l; r] m in
      let m2 := replaceAllUsesWith res loadAddr m1 in
      _ ← assert (use_empty m2 res) "opResult.use_empty()";
      Done (success, m2)
    else Done (success, m).

(** The [TypeSwitch] of [runOnOperation]; its status is not looked at. *)
Definition visit (op : Operation) (m : ModuleOp) : Result ModuleOp :=
  '(status, m') ←
    match op_name op with
    | LoadOp | Load32Op | Load16Op | Load8Op => replaceLoadWithLoadAddress op m
    | _ => Done (failure, m)
    end;
  Done m'.

Definition isFuncOp (t : TopLevelOp) : bool :=
  match t with TopFunc _ => true | TopOther _ => false end.

Definition runOnOperation (rootOp : ModuleOp) : Result ModuleOp :=
  let topBlock := mod_body rootOp in
  _ ← assert (bool_decide (length topBlock = 2%nat)) "there are more than 2 functions";
  front ← fromOption (head topBlock) (UndefinedBehaviour "front");
  back ← fromOption (last topBlock) (UndefinedBehaviour "back");
  _ ← assert (isFuncOp front) "isa<mlir::FuncOp>(front)";
  _ ← assert (isFuncOp back) "isa<mlir::FuncOp>(back)";
  (* remove xdp_entry *)
  let m := eraseFront rootOp in
  (* process main *)
  funcOp ← fromOption (last (mod_body m)) (UndefinedBehaviour "back");
  foldM (fun m b => walkBlock visit b m) (map blk_id (topBlocks funcOp)) m.

End ResolveMemory.

(** *** Sample modules for the resolution pass *)

Module ResolveSamples.

Definition xdp_entry : TopLevelOp :=
  TopFunc {| fn_name := "xdp_entry";
             fn_blocks := [ {| blk_id := 0; blk_nargs := 11; blk_ops := [] |} ] |}.

Definition mainWith (ops : list Operation) : ModuleOp :=
  mkModule [ xdp_entry;
             TopFunc {| fn_name := "main";
                        fn_blocks := [ {| blk_id := 1; blk_nargs := 11; blk_ops := ops |} ] |} ].

Definition arg (i : nat) : Value := BlockArgument 1 i.

(** A load used only as the base of a store. *)
Definition loadThenStoreBase (ld : OpName) : ModuleOp :=
  mainWith [ mkOp 10 ld [arg 1; arg 2];
             mkOp 11 StoreOp [OpResult 10; arg 2; arg 3] ].

(** A load used as the base of one store and as the value of another. *)
Definition baseThenValue : ModuleOp :=
  mainWith [ mkOp 10 LoadOp [arg 1; arg 2];
             mkOp 11 StoreOp [OpResult 10; arg 2; arg 3];
             mkOp 12 StoreOp [arg 4; arg 2; OpResult 10] ].

Definition valueThenBase : ModuleOp :=
  mainWith [ mkOp 10 LoadOp [arg 1; arg 2];
             mkOp 11 StoreOp [arg 4; arg 2; OpResult 10];
             mkOp 12 StoreOp [OpResult 10; arg 2; arg 3] ].

(** A load stored to the address it holds: base and value of one store. *)
Definition storeToItself : ModuleOp :=
  mainWith [ mkOp 10 LoadOp [arg 1; arg 2];
             mkOp 11 StoreOp [OpResult 10; arg 2; OpResult 10] ].

End ResolveSamples.

(** ** BtorLiveness.cpp *)

(** [Operation::isBeforeInBlock], [Operation::moveBefore] and
    [Value::isUsedOutsideOfBlock] of the IR library. *)
Fixpoint indexOf (id : nat) (ops : list Operation) : option nat :=
  match ops with
  | [] => None
  | o :: rest => if decide (op_id o = id) then Some 0%nat else S <$> indexOf id rest
  end.

Definition isBeforeInBlock (m : ModuleOp) (a other : nat) : Result bool :=
  block ← fromOption (getBlock m a)
            (AssertionFailed "Operations without parent blocks have no order.");
  _ ← assert (bool_decide (getBlock m other = Some block))
        "Expected other operation to have the same parent block.";
  ia ← fromOption (indexOf a (blockOps m block)) (UndefinedBehaviour "order");
  ib ← fromOption (indexOf other (blockOps m block)) (UndefinedBehaviour "order");
  Done (bool_decide (ia < ib)%nat).

Fixpoint insertBefore (id : nat) (new : Operation) (ops : list Operation) : list Operation :=
  match ops with
  | [] => []
  | o :: rest =>
      if decide (op_id o = id) then new :: o :: rest
      else o :: insertBefore id new rest
  end.

Definition removeOp (id : nat) (ops : list Operation) : list Operation :=
  filter (fun o => op_id o ≠ id) ops.

Definition moveBefore (a existingOp : nat) (m : ModuleOp) : Result ModuleOp :=
  opA ← fromOption (lookupOp m a) (UndefinedBehaviour "moveBefore");
  Done (mapBlocks (mapBlock (fun ops => insertBefore existingOp opA (removeOp a ops))) m).

Definition isUsedOutsideOfBlock (m : ModuleOp) (v : Value) (block : nat) : bool :=
  existsb (fun u => negb (bool_decide (getBlock m (use_owner u) = Some block)))
    (getUses m v).

Module BtorLiveness.

(** [opsMatch(Value &, StringLiteral)] *)
Definition opsMatchValue (m : ModuleOp) (value : Value) (name : OpName) : Result bool :=
  match value with
  | BlockArgument _ _ => Done false
  | OpResult id =>
      def ← fromOption (lookupOp m id) (UndefinedBehaviour "getDefiningOp");
      Done (bool_decide (op_name def = name))
  | NullValue => Stop (UndefinedBehaviour "getDefiningOp")
  end.

(** [opsMatch(Operation *, StringLiteral)] *)
Definition opsMatchOp (op : Operation) (name : OpName) : bool :=
  bool_decide (op_name op = name).

(** The loop of [moveReadOpsBefore] over the users of [array]. *)
Fixpoint moveReadOpsBeforeUsers (users : list Use) (opPtr : nat) (m : ModuleOp)
    : Result (LogicalResult * ModuleOp) :=
  match users with
  | [] => Done (success, m)
  | u :: rest =>
      let curUse := use_owner u in
      notBefore ←
        (if bool_decide (curUse ≠ opPtr)
         then before ← isBeforeInBlock m curUse opPtr; Done (negb before)
         else Done false);
      if (notBefore : bool) then
        cur ← fromOption (lookupOp m curUse) (UndefinedBehaviour "getUser");
        if negb (opsMatchOp cur ReadOp) then Done (failure, m)
        else
          m' ← moveBefore curUse opPtr m;
          before ← isBeforeInBlock m' curUse opPtr;
          _ ← assert before "it.getCurrent().getUser()->isBeforeInBlock(opPtr)";
          moveReadOpsBeforeUsers rest opPtr m'
      else moveReadOpsBeforeUsers rest opPtr m
  end.

Definition moveReadOpsBefore (array : Value) (opPtr : nat) (m : ModuleOp)
    : Result (LogicalResult * ModuleOp) :=
  moveReadOpsBeforeUsers (getUses m array) opPtr m.

Definition operand (o : Operation) (i : nat) : Result Value :=
  fromOption (op_operands o !! i) (UndefinedBehaviour "getOperand").

Definition definingOp (m : ModuleOp) (v : Value) : Result Operation :=
  match v with
  | OpResult id => fromOption (lookupOp m id) (UndefinedBehaviour "getDefiningOp")
  | _ => Stop (UndefinedBehaviour "getDefiningOp")
  end.

(** An [ite] has the operands (condition, true_value, false_value); a [write]
    has (value, base, index). *)
Definition usedInITEPattern (iteOp : Operation) (m : ModuleOp)
    : Result (LogicalResult * ModuleOp) :=
  let opPtr := op_id iteOp in
  let resValue := OpResult (op_id iteOp) in
  _ ← assert (hasOneUse m resValue) "resValue.hasOneUse()";
  use ← fromOption (head (getUses m resValue)) (UndefinedBehaviour "user_begin");
  useOp ← fromOption (lookupOp m (use_owner use)) (UndefinedBehaviour "getUser");
  _ ← assert (bool_decide (op_name useOp = BranchOp))
        "useOpName.equals(mlir::BranchOp::getOperationName())";
  trueValue ← operand iteOp 1;
  falseValue ← operand iteOp 2;
  trueIsWrite ← opsMatchValue m trueValue WriteOp;
  if (trueIsWrite : bool) then
    _ ← assert (hasOneUse m trueValue) "trueValue.hasOneUse()";
    def ← definingOp m trueValue;
    base ← operand def 1;
    _ ← assert (bool_decide (falseValue = base))
          "falseValue == trueValue.getDefiningOp()->getOperand(1)";
    moveReadOpsBefore falseValue opPtr m
  else
    falseIsWrite ← opsMatchValue m falseValue WriteOp;
    _ ← assert falseIsWrite "opsMatch(falseValue, btor::WriteOp::getOperationName())";
    _ ← assert (hasOneUse m falseValue) "falseValue.hasOneUse()";
    def ← definingOp m falseValue;
    base ← operand def 1;
    _ ← assert (bool_decide (trueValue = base))
          "trueValue == falseValue.getDefiningOp()->getOperand(1)";
    moveReadOpsBefore trueValue opPtr m.

Definition resultIsLiveAfter (op : Operation) (m : ModuleOp)
    : Result (LogicalResult * ModuleOp) :=
  let resValue := OpResult (op_id op) in
  blockPtr ← fromOption (getBlock m (op_id op)) (AssertionFailed "blockPtr != nullptr");
  _ ← assert (negb (isUsedOutsideOfBlock m resValue blockPtr))
        "!resValue.isUsedOutsideOfBlock(blockPtr)";
  if negb (hasOneUse m resValue) then Done (failure, m)
  else
    use ← fromOption (head (getUses m resValue)) (UndefinedBehaviour "user_begin");
    useOp ← fromOption (lookupOp m (use_owner use)) (UndefinedBehaviour "getUser");
    match op_name useOp with
    | BranchOp => Done (success, m)
    | IteOp => usedInITEPattern useOp m
    | _ => Done (failure, m)
    end.

Definition replaceWithWriteInPlace (op : Operation) (m : ModuleOp)
    : Result (LogicalResult * ModuleOp) :=
  '(status, m1) ← resultIsLiveAfter op m;
  if succeeded status then
    let resValue := OpResult (op_id op) in
    value ← operand op 0;
    base ← operand op 1;
    index ← operand op 2;
    let '(writeInPlace, m2) := createAfter (op_id op) WriteInPlaceOp [value; base; index] m1 in
    let m3 := replaceAllUsesWith resValue writeInPlace m2 in
    _ ← assert (use_empty m3 resValue) "resValue.use_empty()";
    Done (status, m3)
  else Done (status, m1).

(** The body of the loop of [runOnOperation]: the [TypeSwitch] and the
    assertion on its status. *)
Definition visit (op : Operation) (m : ModuleOp) : Result ModuleOp :=
  '(status, m') ←
    match op_name op with
    | WriteOp => replaceWithWriteInPlace op m
    | _ => Done (success, m)
    end;
  _ ← assert (succeeded status) "status.succeeded()";
  Done m'.

Definition runOnOperation (rootOp : ModuleOp) : Result ModuleOp :=
  funcOp ← fromOption (head (mod_body rootOp)) (UndefinedBehaviour "front");
  match funcOp with
  | TopOther _ => Stop (UndefinedBehaviour "getRegion")
  | TopFunc f =>
      let regions := fn_blocks f in
      _ ← assert (bool_decide (length regions = 2%nat)) "regions.getBlocks().size() == 2";
      nextBlock ← fromOption (last regions) (UndefinedBehaviour "back");
      walkBlock visit (blk_id nextBlock) rootOp
  end.

End BtorLiveness.

(** *** Sample modules for the liveness pass *)

Module LivenessSamples.

Definition A : Value := BlockArgument 1 0.
Definition arg (i : nat) : Value := BlockArgument 1 i.

Definition loopWith (ops : list Operation) : ModuleOp :=
  mkModule [ TopFunc {| fn_name := "main";
                        fn_blocks := [ {| blk_id := 0; blk_nargs := 0; blk_ops := [] |};
                                       {| blk_id := 1; blk_nargs := 4; blk_ops := ops |} ] |} ].

Definition br (id : nat) (operands : list Value) : Operation :=
  {| op_id := id; op_name := BranchOp; op_operands := operands;
     op_successor := Some 1%nat; op_attr := None |}.

(** The write feeds the loop-closing branch directly. *)
Definition writeThenBranch : ModuleOp :=
  loopWith [ mkOp 10 WriteOp [arg 1; A; arg 2];
             br 11 [OpResult 10] ].

(** The select idiom, with a read of the old array behind the select. *)
Definition selectThenRead : ModuleOp :=
  loopWith [ mkOp 10 WriteOp [arg 1; A; arg 2];
             mkOp 11 IteOp [arg 3; OpResult 10; A];
             mkOp 12 ReadOp [A; arg 2];
             br 13 [OpResult 11] ].

(** The select idiom, with an operation that is no read and then a read of the
    old array behind the select. *)
Definition selectThenOtherThenRead : ModuleOp :=
  loopWith [ mkOp 10 WriteOp [arg 1; A; arg 2];
             mkOp 11 IteOp [arg 3; OpResult 10; A];
             mkOp 12 (OtherOp "btor.slice") [A];
             mkOp 13 ReadOp [A; arg 2];
             br 14 [OpResult 11] ].

(** A write whose result feeds an addition, then a write that feeds the branch. *)
Definition writeIntoAdd : ModuleOp :=
  loopWith [ mkOp 10 WriteOp [arg 1; A; arg 2];
             mkOp 11 (OtherOp "btor.add") [OpResult 10; arg 1];
             mkOp 12 WriteOp [arg 1; A; arg 2];
             br 13 [OpResult 12] ].

(** A write whose result has two uses. *)
Definition writeUsedTwice : ModuleOp :=
  loopWith [ mkOp 10 WriteOp [arg 1; A; arg 2];
             br 11 [OpResult 10; OpResult 10] ].

End LivenessSamples.

(** ** The eBPF-to-IR translation ([Deserialize]) *)

Module Deserialize.

(** *** The instruction model of the decoder

    The decoder's types are not part of this repository; they are written
    down here with the fields the translation reads. *)

Record label_t := { from : Z; to : Z }.                  (* two [int]s *)

Record Reg := { v : N }.                                 (* [uint8_t v] *)

Inductive RegOrImm :=                                    (* [std::variant<Imm, Reg>] *)
  | IsImm (imm : Z)
  | IsReg (r : Reg).

Inductive BinOp :=
  | MOV | MOVSX8 | MOVSX16 | MOVSX32 | ADD | SUB | MUL | UDIV | SDIV
  | UMOD | SMOD | OR | AND | LSH | RSH | ARSH | XOR.

Inductive UnOp :=
  | UBE16 | UBE32 | UBE64 | ULE16 | ULE32 | ULE64
  | USWAP16 | USWAP32 | USWAP64 | UNEG.

Record Bin := { bin_op : BinOp; bin_dst : Reg; bin_v : RegOrImm }.
Record Un := { un_op : UnOp; un_dst : Reg }.
Record LoadMapFd := { map_dst : Reg; mapfd : Z }.
Record Condition := { cond_left : Reg; cond_right : RegOrImm }.
Record Jmp := { cond : option Condition; target : label_t }.
Record Deref := { width : Z; basereg : Reg; offset : Z }.
Record Mem := { access : Deref; value : RegOrImm; is_load : bool }.

Inductive Instruction :=
  | Undefined
  | IBin (b : Bin)
  | IUn (u : Un)
  | ILoadMapFd (l : LoadMapFd)
  | Call
  | Callx
  | Exit
  | IJmp (j : Jmp)
  | IMem (mem : Mem)
  | Packet
  | Assume
  | Atomic
  | Assert
  | IncrementLoopCounter.

(** A labelled instruction; the debug information is not read. *)
Definition LabeledInstruction : Type := label_t * Instruction.
Definition InstructionSeq : Type := list LabeledInstruction.

(** Conversion of an [int] to [size_t]. *)
Definition to_size_t (z : Z) : N := Z.to_N (z mod 2 ^ 64).

(** What is written to [std::cerr]. *)
Inductive Output :=
  | OutNum (n : Z)
  | OutStr (s : string)
  | OutEndl.

(** *** The state of a [Deserialize] object

    The members, the builder's insertion point (always the end of a block),
    the blocks built so far and the diagnostic stream. *)
Record State := {
  m_sections : list InstructionSeq;
  m_registers : list Value;
  m_jumpBlocks : gmap N nat;          (* offset of the first instruction -> block *)
  m_jmpTargets : gset N;
  m_startOfNextBlock : list N;
  m_numBlocks : N;
  m_lastBlock : nat;
  insertionBlock : nat;
  blocks : gmap nat Block;
  freshBlock : nat;
  freshOp : nat;
  cerr : list Output
}.

(** Modelled from the spec: the register count [m_ebpfRegisters], a constant of
    the class declaration, which is not among the sources ("size =
    instruction-set register count, e.g. 11"). *)
Definition m_ebpfRegisters : nat := 11.

(** [REG::R0_RETURN_VALUE] of the decoder's register enumeration. *)
Definition R0_RETURN_VALUE : nat := 0.

Definition print (out : list Output) (st : State) : State :=
  {| m_sections := m_sections st; m_registers := m_registers st;
     m_jumpBlocks := m_jumpBlocks st; m_jmpTargets := m_jmpTargets st;
     m_startOfNextBlock := m_startOfNextBlock st; m_numBlocks := m_numBlocks st;
     m_lastBlock := m_lastBlock st; insertionBlock := insertionBlock st;
     blocks := blocks st; freshBlock := freshBlock st; freshOp := freshOp st;
     cerr := cerr st ++ out |}.

Definition setRegisters (regs : list Value) (st : State) : State :=
  {| m_sections := m_sections st; m_registers := regs;
     m_jumpBlocks := m_jumpBlocks st; m_jmpTargets := m_jmpTargets st;
     m_startOfNextBlock := m_startOfNextBlock st; m_numBlocks := m_numBlocks st;
     m_lastBlock := m_lastBlock st; insertionBlock := insertionBlock st;
     blocks := blocks st; freshBlock := freshBlock st; freshOp := freshOp st;
     cerr := cerr st |}.

Definition setLastBlock (b : nat) (st : State) : State :=
  {| m_sections := m_sections st; m_registers := m_registers st;
     m_jumpBlocks := m_jumpBlocks st; m_jmpTargets := m_jmpTargets st;
     m_startOfNextBlock := m_startOfNextBlock st; m_numBlocks := m_numBlocks st;
     m_lastBlock := b; insertionBlock := insertionBlock st;
     blocks := blocks st; freshBlock := freshBlock st; freshOp := freshOp st;
     cerr := cerr st |}.

(** [m_builder.setInsertionPointToEnd(block)] *)
Definition setInsertionPointToEnd (b : nat) (st : State) : State :=
  {| m_sections := m_sections st; m_registers := m_registers st;
     m_jumpBlocks := m_jumpBlocks st; m_jmpTargets := m_jmpTargets st;
     m_startOfNextBlock := m_startOfNextBlock st; m_numBlocks := m_numBlocks st;
     m_lastBlock := m_lastBlock st; insertionBlock := b;
     blocks := blocks st; freshBlock := freshBlock st; freshOp := freshOp st;
     cerr := cerr st |}.

(** [m_builder.create<...>]: a new operation at the end of the insertion
    block; its result is returned. *)
Definition create (name : OpName) (operands : list Value) (successor : option nat)
    (attr : option Z) (st : State) : Value * State :=
  let op := {| op_id := freshOp st; op_name := name; op_operands := operands;
               op_successor := successor; op_attr := attr |} in
  (OpResult (freshOp st),
   {| m_sections := m_sections st; m_registers := m_registers st;
      m_jumpBlocks := m_jumpBlocks st; m_jmpTargets := m_jmpTargets st;
      m_startOfNextBlock := m_startOfNextBlock st; m_numBlocks := m_numBlocks st;
      m_lastBlock := m_lastBlock st; insertionBlock := insertionBlock st;
      blocks := alter (mapBlock (fun ops => ops ++ [op])) (insertionBlock st) (blocks st);
      freshBlock := freshBlock st; freshOp := S (freshOp st);
      cerr := cerr st |}).

(** A new block with one argument per register. *)
Definition newBlock (st : State) : nat * State :=
  (freshBlock st,
   {| m_sections := m_sections st; m_registers := m_registers st;
      m_jumpBlocks := m_jumpBlocks st; m_jmpTargets := m_jmpTargets st;
      m_startOfNextBlock := m_startOfNextBlock st; m_numBlocks := m_numBlocks st;
      m_lastBlock := m_lastBlock st; insertionBlock := insertionBlock st;
      blocks := <[freshBlock st := {| blk_id := freshBlock st;
                                      blk_nargs := m_ebpfRegisters;
                                      blk_ops := [] |}]> (blocks st);
      freshBlock := S (freshBlock st); freshOp := freshOp st;
      cerr := cerr st |}).

(** [std::vector::at], reading and writing. *)
Definition at_ {A} (l : list A) (i : N) (what : string) : Result A :=
  if (i <? N.of_nat (length l))%N
  then fromOption (l !! N.to_nat i) (OutOfRange what)
  else Stop (OutOfRange what).

Definition readReg (r : N) (st : State) : Result Value :=
  at_ (m_registers st) r "m_registers.at".

Definition writeReg (r : N) (val : Value) (st : State) : Result State :=
  if (r <? N.of_nat (length (m_registers st)))%N
  then Done (setRegisters (<[N.to_nat r := val]> (m_registers st)) st)
  else Stop (OutOfRange "m_registers.at").

(** [std::map::at] on [m_jumpBlocks] *)
Definition jumpBlockAt (off : N) (st : State) : Result nat :=
  fromOption (m_jumpBlocks st !! off) (OutOfRange "m_jumpBlocks.at").

(** The arguments of a block, as values. *)
Definition blockArguments (b : nat) (n : nat) : list Value :=
  map (BlockArgument b) (seq 0 n).

(** *** Helpers declared in the class header

    The header of the translation is not among the sources: the following
    members are called by the code below but defined there. *)

(** Modelled from the spec: [updateBlocksMap(block, offset)], which is not
    among the sources; it records the block that owns an offset in the block
    index ("mapping from source offset to owning basic block"). *)
Definition updateBlocksMap (block : nat) (firstOp : N) (st : State) : State :=
  {| m_sections := m_sections st; m_registers := m_registers st;
     m_jumpBlocks := <[firstOp := block]> (m_jumpBlocks st);
     m_jmpTargets := m_jmpTargets st;
     m_startOfNextBlock := m_startOfNextBlock st; m_numBlocks := m_numBlocks st;
     m_lastBlock := m_lastBlock st; insertionBlock := insertionBlock st;
     blocks := blocks st; freshBlock := freshBlock st; freshOp := freshOp st;
     cerr := cerr st |}.

(** Modelled from the spec: [incrementBlocks(offset)], which is not among the
    sources. It records a boundary offset: the offsets are collected as a
    set ("collect the set of boundary offsets, deduplicate"), so an offset
    that is already recorded is not recorded again; a new offset is counted,
    appended to [m_startOfNextBlock], marked in [m_jmpTargets] and given a
    block of its own with one parameter per register ("allocates blocks with
    register-width parameters"; "every jump target offset has exactly one
    owning block"). *)
Definition incrementBlocks (jmpTo : N) (st : State) : State :=
  if decide (jmpTo ∈ m_jmpTargets st) then st
  else
    let '(block, st1) := newBlock st in
    updateBlocksMap block jmpTo
      {| m_sections := m_sections st1; m_registers := m_registers st1;
         m_jumpBlocks := m_jumpBlocks st1;
         m_jmpTargets := {[jmpTo]} ∪ m_jmpTargets st1;
         m_startOfNextBlock := m_startOfNextBlock st1 ++ [jmpTo];
         m_numBlocks := (m_numBlocks st1 + 1)%N;
         m_lastBlock := m_lastBlock st1; insertionBlock := insertionBlock st1;
         blocks := blocks st1; freshBlock := freshBlock st1; freshOp := freshOp st1;
         cerr := cerr st1 |}.

(** Modelled from the spec: [buildConstantOp], which is not among the
    sources; it emits one constant at the insertion point ("a freshly
    materialized constant for an immediate"). *)
Definition buildConstantOp (imm : Z) (st : State) : Value * State :=
  create ConstantOp [] None (Some imm) st.

(** Modelled from the spec: [buildUnaryOp<Op>], which is not among the
    sources ("looks up operand register value, emits corresponding unary
    operation"). *)
Definition buildUnaryOp (name : OpName) (rhs : Value) (st : State) : Value * State :=
  create name [rhs] None None st.

(** Modelled from the spec: [buildBinaryOp<Op>], which is not among the
    sources ("emits the corresponding binary operation"; for a load, "a
    width-tagged load operation over (base-register value, constant
    offset)"). *)
Definition buildBinaryOp (name : OpName) (lhs rhs : Value) (st : State) : Value * State :=
  create name [lhs; rhs] None None st.

(** Modelled from the spec: [buildStoreOp<Op>], which is not among the
    sources ("emits a width-tagged store operation over (base-register value,
    constant offset, value register)"); an immediate value is materialized as
    a constant, as for a binary instruction. A store has no result. *)
Definition buildStoreOp (name : OpName) (base offset : Value) (mem : Mem) (st : State)
    : Result (Value * State) :=
  '(val, st1) ←
    match value mem with
    | IsReg r => val ← readReg (v r) st; Done (val, st)
    | IsImm imm => Done (buildConstantOp imm st)
    end;
  let '(_, st2) := create name [base; offset; val] None None st1 in
  Done (NullValue, st2).

(** Modelled from the spec: [buildJmpOp(from, jmp)], which is not among the
    sources. An unconditional jump "resolves the statically known successor
    block for the target offset and emits a branch passing the current
    register vector"; a conditional jump is "not lowered" and "reported as
    unsupported". *)
Definition buildJmpOp (cur : Z) (jmp : Jmp) (st : State) : Result State :=
  match cond jmp with
  | None =>
      block ← jumpBlockAt (to_size_t (from (target jmp))) st;
      Done (snd (create BranchOp (m_registers st) (Some block) None st))
  | Some _ =>
      Done (print [OutStr "conditional Jmp"; OutEndl] st)
  end.

(** *** The translation unit *)

Definition createJmpOp (jmp : Jmp) (cur_label : label_t) (st : State) : Result State :=
  _ ← assert (bool_decide (from (target jmp) > from cur_label)%Z)
        "jmp.target.from > cur_label.from";
  prog ← fromOption (head (m_sections st)) (UndefinedBehaviour "m_sections.front");
  '(label, ins) ← at_ prog (to_size_t (from (target jmp))) "prog.at";
  _ ← assert (bool_decide (from label = from (target jmp)))
        "label.from == jmp.target.from";
  buildJmpOp (from cur_label) jmp st.

Definition unaryName (op : UnOp) : OpName :=
  match op with
  | UBE16 => BE16 | UBE32 => BE32 | UBE64 => BE64
  | ULE16 => LE16 | ULE32 => LE32 | ULE64 => LE64
  | USWAP16 => SWAP16 | USWAP32 => SWAP32 | USWAP64 => SWAP64
  | UNEG => NegOp
  end.

Definition createUnaryOp (un : Un) (st : State) : Result State :=
  rhs ← readReg (v (un_dst un)) st;
  let '(res, st1) := buildUnaryOp (unaryName (un_op un)) rhs st in
  writeReg (v (un_dst un)) res st1.

Definition binaryName (op : BinOp) : OpName :=
  match op with
  | MOV => MoveOp | MOVSX8 => Move8Op | MOVSX16 => Move16Op | MOVSX32 => Move32Op
  | ADD => AddOp | SUB => SubOp | MUL => MulOp | UDIV => UDivOp | SDIV => SDivOp
  | UMOD => UModOp | SMOD => SModOp | OR => OrOp | AND => AndOp
  | LSH => LSHOp | RSH => RSHOp | ARSH => ShiftRAOp | XOR => XOrOp
  end.

Definition createBinaryOp (bin : Bin) (st : State) : Result State :=
  lhs ← readReg (v (bin_dst bin)) st;
  '(rhs, st1) ←
    match bin_v bin with
    | IsImm imm => Done (buildConstantOp imm st)
    | IsReg r => rhs ← readReg (v r) st; Done (rhs, st)
    end;
  let '(res, st2) := buildBinaryOp (binaryName (bin_op bin)) lhs rhs st1 in
  writeReg (v (bin_dst bin)) res st2.

Definition createMemOp (mem : Mem) (st : State) : Result State :=
  let '(off, st1) := buildConstantOp (offset (access mem)) st in
  let names : option (OpName * OpName) :=
    match width (access mem) with
    | 1%Z => Some (Load8Op, Store8Op)
    | 2%Z => Some (Load16Op, Store16Op)
    | 4%Z => Some (Load32Op, Store32Op)
    | 8%Z => Some (LoadOp, StoreOp)
    | _ => None
    end in
  '(res, st2) ←
    match names with
    | Some (ld, store) =>
        base ← readReg (v (basereg (access mem))) st1;
        if is_load mem then Done (buildBinaryOp ld base off st1)
        else buildStoreOp store base off mem st1
    | None => Done (NullValue, st1)
    end;
  if is_load mem then
    match value mem with
    | IsReg r => writeReg (v r) res st2
    | IsImm _ => Stop BadVariantAccess
    end
  else Done st2.

Definition createLoadMapOp (loadMap : LoadMapFd) (st : State) : Result State :=
  let dst := v (map_dst loadMap) in
  let '(map, st1) := buildConstantOp (mapfd loadMap) st in
  cur ← readReg dst st1;
  let '(res, st2) := buildBinaryOp LoadMapOp cur map st1 in
  writeReg dst res st2.

Definition createMLIR (ins : Instruction) (cur_label : label_t) (st : State) : Result State :=
  let st := print [OutNum (from cur_label); OutStr " "] st in
  match ins with
  | Undefined => Done st
  | IBin binOp => createBinaryOp binOp st
  | IUn unOp => createUnaryOp unOp st
  | ILoadMapFd mapOp => createLoadMapOp mapOp st
  | Call => Done (print [OutStr "Call"; OutEndl] st)
  | Callx => Done (print [OutStr "Callx"; OutEndl] st)
  | Exit => Done st
  | IJmp jmpOp => createJmpOp jmpOp cur_label st
  | IMem memOp => createMemOp memOp st
  | Packet => Done (print [OutStr "Packet"; OutEndl] st)
  | Assume => Done (print [OutStr "Assume"; OutEndl] st)
  | Atomic => Done (print [OutStr "Atomic"; OutEndl] st)
  | Assert => Done (print [OutStr "Assert"; OutEndl] st)
  | IncrementLoopCounter => Done (print [OutStr "IncrementLoopCounter"; OutEndl] st)
  end.

(** The body of the loop of [collectBlocks] for one labelled instruction. *)
Definition collectBlock (st : State) (labeled_inst : LabeledInstruction) : State :=
  let '(label, ins) := labeled_inst in
  match ins with
  | IJmp jmp =>
      let jmpTo := to_size_t (from (target jmp)) in
      let st1 := if decide (jmpTo ∉ m_jmpTargets st) then incrementBlocks jmpTo st else st in
      match cond jmp with
      | Some _ => incrementBlocks (to_size_t (from label + 1)) st1
      | None => st1
      end
  | _ => st
  end.

(** [std::sort] on a vector of [size_t]. *)
Definition sort (l : list N) : list N := merge_sort N.le l.

Definition collectBlocks (st : State) : Result State :=
  prog ← fromOption (head (m_sections st)) (UndefinedBehaviour "m_sections.front");
  let st1 := foldl collectBlock st prog in
  _ ← assert (bool_decide (m_numBlocks st1 = N.of_nat (length (m_startOfNextBlock st1))))
        "m_numBlocks == m_startOfNextBlock.size()";
  let st2 :=
    {| m_sections := m_sections st1; m_registers := m_registers st1;
       m_jumpBlocks := m_jumpBlocks st1; m_jmpTargets := m_jmpTargets st1;
       m_startOfNextBlock := sort (m_startOfNextBlock st1);
       m_numBlocks := m_numBlocks st1;
       m_lastBlock := m_lastBlock st1; insertionBlock := insertionBlock st1;
       blocks := blocks st1; freshBlock := freshBlock st1; freshOp := freshOp st1;
       cerr := cerr st1 |} in
  Done (print [OutStr "we need "; OutNum (Z.of_N (m_numBlocks st2)); OutStr " blocks"; OutEndl] st2).

(** [for (; cur_op < bound; ++cur_op) createMLIR(prog.at(cur_op))], as [n]
    iterations from [cur_op]. *)
Fixpoint translate (n : nat) (prog : InstructionSeq) (cur_op : N) (st : State)
    : Result (N * State) :=
  match n with
  | O => Done (cur_op, st)
  | S n' =>
      '(label, ins) ← at_ prog cur_op "prog.at";
      st' ← createMLIR ins label st;
      translate n' prog (cur_op + 1)%N st'
  end.

Definition translateUpTo (bound : N) (prog : InstructionSeq) (cur_op : N) (st : State)
    : Result (N * State) :=
  translate (N.to_nat (bound - cur_op)) prog cur_op st.

(** [curBlock->empty() || !curBlock->back().mightHaveTrait<IsTerminator>()] *)
Definition lacksTerminator (ops : list Operation) : bool :=
  match last ops with
  | None => true
  | Some op => negb (isTerminator (op_name op))
  end.

Definition blockOpsOf (b : nat) (st : State) : list Operation :=
  match blocks st !! b with Some blk => blk_ops blk | None => [] end.

(** [for (i < m_ebpfRegisters) m_registers.at(i) = block->getArgument(i)] *)
Definition setupRegisters (block : nat) (st : State) : Result State :=
  if bool_decide (m_ebpfRegisters ≤ length (m_registers st))%nat then
    Done (setRegisters (blockArguments block m_ebpfRegisters
                          ++ drop m_ebpfRegisters (m_registers st)) st)
  else Stop (OutOfRange "m_registers.at").

(** The body of the loop of [buildFunctionBody] over [m_startOfNextBlock]. *)
Definition buildBlock (prog : InstructionSeq) (acc : N * State) (next : N)
    : Result (N * State) :=
  let '(cur_op, st) := acc in
  _ ← assert (bool_decide (is_Some (m_jumpBlocks st !! cur_op)))
        "m_jumpBlocks.contains(cur_op)";
  curBlock ← jumpBlockAt cur_op st;
  let st := setInsertionPointToEnd curBlock st in
  let st := print [OutStr "NEW block at: "; OutNum (Z.of_N cur_op); OutEndl;
                   OutStr "  next: "; OutNum (Z.of_N next); OutEndl] st in
  (* setup registers to match block arguments *)
  st ← setupRegisters curBlock st;
  '(cur_op, st) ← translateUpTo next prog cur_op st;
  if lacksTerminator (blockOpsOf curBlock st) then
    _ ← assert (bool_decide (is_Some (m_jumpBlocks st !! next)))
          "m_jumpBlocks.contains(next)";
    let st := setInsertionPointToEnd curBlock st in
    nextBlock ← jumpBlockAt next st;
    let st := snd (create BranchOp (m_registers st) (Some nextBlock) None st) in
    let st := print [OutStr "/**/ cpp block at: "; OutNum (Z.of_N next); OutEndl] st in
    Done (cur_op, setLastBlock nextBlock st)
  else Done (cur_op, st).

Definition buildFunctionBody (st : State) : Result State :=
  (* get first section *)
  prog ← fromOption (head (m_sections st)) (UndefinedBehaviour "m_sections.front");
  st ← collectBlocks st;
  let st := print [OutNum (Z.of_nat (length prog)); OutStr " instructions"; OutEndl] st in
  '(cur_op, st) ← foldM (buildBlock prog) (m_startOfNextBlock st) (0%N, st);
  st ←
    (if (cur_op <? N.of_nat (length prog))%N then
       let st := setInsertionPointToEnd (m_lastBlock st) st in
       (* setup registers to match block arguments *)
       setupRegisters (m_lastBlock st) st
     else Done st);
  '(_, st) ← translateUpTo (N.of_nat (length prog)) prog cur_op st;
  Done st.

(** A [Deserialize] object right after construction, with its sections read. *)
Definition initial (sections : list InstructionSeq) : State :=
  {| m_sections := sections; m_registers := [];
     m_jumpBlocks := ∅; m_jmpTargets := ∅;
     m_startOfNextBlock := []; m_numBlocks := 0%N;
     m_lastBlock := 0; insertionBlock := 0;
     blocks := ∅; freshBlock := 0; freshOp := 0; cerr := [] |}.

(** [buildXDPFunction] up to the call of [buildFunctionBody]: the entry block
    is created, registered at offset 0 and the registers are set to its
    arguments. *)
Definition enterXDPFunction (st : State) : State :=
  let '(body, st) := newBlock st in
  let st := setInsertionPointToEnd body st in
  (* book keeping for future blocks *)
  let st := updateBlocksMap body 0%N st in
  let st := setLastBlock body st in
  (* setup registers *)
  setRegisters (blockArguments body m_ebpfRegisters) st.

Definition buildXDPFunction (st : State) : Result State :=
  let st := enterXDPFunction st in
  (* build function body *)
  st ← buildFunctionBody st;
  (* add return statement at final block *)
  let st := setInsertionPointToEnd (m_lastBlock st) st in
  st ← writeReg (N.of_nat R0_RETURN_VALUE) (BlockArgument (m_lastBlock st) 0) st;
  r0 ← readReg (N.of_nat R0_RETURN_VALUE) st;
  _ ← assert (bool_decide (r0 ≠ NullValue)) "m_registers.at(REG::R0_RETURN_VALUE) != nullptr";
  Done (snd (create ReturnOp [r0] None None st)).

End Deserialize.

(** *** Sample programs for the translation *)

Module LifterSamples.
Import Deserialize.

Definition at_offset (n : Z) : label_t := {| from := n; to := -1 |}.
Definition reg (n : N) : Reg := {| v := n |}.

Definition add_r1_5 : Instruction :=
  IBin {| bin_op := ADD; bin_dst := reg 1; bin_v := IsImm 5 |}.
Definition mov_r0_r1 : Instruction :=
  IBin {| bin_op := MOV; bin_dst := reg 0; bin_v := IsReg (reg 1) |}.
Definition goto (n : Z) : Instruction :=
  IJmp {| cond := None; target := at_offset n |}.
Definition goto_if (n : Z) : Instruction :=
  IJmp {| cond := Some {| cond_left := reg 1; cond_right := IsImm 0 |};
          target := at_offset n |}.

(** add; goto 2; mov *)
Definition straightJump : InstructionSeq :=
  [ (at_offset 0, add_r1_5); (at_offset 1, goto 2); (at_offset 2, mov_r0_r1) ].

(** Two conditional jumps whose boundaries coincide: 2 is the target of the
    first and the fall-through of the second. *)
Definition sharedBoundary : InstructionSeq :=
  [ (at_offset 0, goto_if 2); (at_offset 1, goto_if 4);
    (at_offset 2, add_r1_5); (at_offset 3, Call); (at_offset 4, Exit) ].

(** add; call; mov, with a boundary at 2 recorded by hand. *)
Definition fallThrough : InstructionSeq :=
  [ (at_offset 0, add_r1_5); (at_offset 1, Call); (at_offset 2, mov_r0_r1) ].

Definition entered (prog : InstructionSeq) : State :=
  enterXDPFunction (initial [prog]).

End LifterSamples.

(** * Vocabulary of the properties *)

(** ** Shapes of modules *)

Definition blockSignature (b : Block) : nat * nat := (blk_id b, blk_nargs b).

(** A function as its name and the identities and arities of its blocks. *)
Definition topShape (t : TopLevelOp) : string * list (nat * nat) + string :=
  match t with
  | TopFunc f => inl (fn_name f, map blockSignature (fn_blocks f))
  | TopOther n => inr n
  end.

Definition moduleShape (m : ModuleOp) : list (string * list (nat * nat) + string) :=
  map topShape (mod_body m).

(** ** Vocabulary: well-formed modules *)

(** An operand that is an operation result names an operation that exists
    (its identity was handed out before) and is not the operation itself. *)
Definition operandOk (m : ModuleOp) (o : Operation) (v : Value) : Prop :=
  match v with
  | OpResult k => (k < mod_fresh m)%nat /\ k <> op_id o
  | _ => True
  end.

#[global] Instance operandOk_dec m o v : Decision (operandOk m o v).
Proof. destruct v; simpl; apply _. Defined.

(** A use-list entry names an operand that holds the value. *)
Definition usePointsTo (m : ModuleOp) (v : Value) (u : Use) : Prop :=
  (lookupOp m (use_owner u) ≫= fun o => op_operands o !! use_index u) = Some v.

Definition wellFormed (m : ModuleOp) : Prop :=
  Forall (fun o => (op_id o < mod_fresh m)%nat) (allOps m)
  /\ Forall (fun o => Forall (operandOk m o) (op_operands o)) (allOps m)
  /\ map_Forall (fun v us => Forall (usePointsTo m v) us) (mod_uses m).

#[global] Instance wellFormed_dec m : Decision (wellFormed m).
Proof. unfold wellFormed, usePointsTo. apply _. Defined.

(** All uses in a list rewired to [new], on one operation. *)
Definition rewire (us : list Use) (new : Value) (o : Operation) : Operation :=
  foldl (fun o u => setOperand u new o) o us.

(** ** Vocabulary: a module up to the order of operations inside blocks *)

Definition blockReordered (b' b : Block) : Prop :=
  blk_id b' = blk_id b /\ blk_nargs b' = blk_nargs b /\ blk_ops b' ≡ₚ blk_ops b.

Definition topReordered (t' t : TopLevelOp) : Prop :=
  match t', t with
  | TopFunc f', TopFunc f =>
      fn_name f' = fn_name f /\ Forall2 blockReordered (fn_blocks f') (fn_blocks f)
  | TopOther n', TopOther n => n' = n
  | _, _ => False
  end.

(** [m'] has the use lists, the functions, the blocks and, block by block,
    the operations of [m]; only the order inside a block may differ. *)
Definition reordered (m' m : ModuleOp) : Prop :=
  mod_uses m' = mod_uses m
  /\ mod_fresh m' = mod_fresh m
  /\ Forall2 topReordered (mod_body m') (mod_body m).

(** Identities are unique. *)
Definition uniqueIds (m : ModuleOp) : Prop :=
  NoDup (map op_id (allOps m)) /\ NoDup (map blk_id (allBlocks m)).

#[global] Instance uniqueIds_dec m : Decision (uniqueIds m).
Proof. unfold uniqueIds. apply _. Defined.

(** ** Vocabulary: the fuel of a walk *)

(** The operations behind the one named [id] in a list. *)
Fixpoint behind (id : nat) (ops : list Operation) : list Operation :=
  match ops with
  | [] => []
  | o :: rest => if decide (op_id o = id) then rest else behind id rest
  end.

Definition totalWeight (w : Operation -> nat) (ops : list Operation) : nat :=
  foldr (fun o n => (w o + n)%nat) 0%nat ops.

(** What a walk over block [b] still has to visit, weighted. *)
Definition pending (w : Operation -> nat) (b : nat) (m : ModuleOp)
    (cur : option Operation) : nat :=
  match cur with
  | None => 0%nat
  | Some op => (w op + totalWeight w (behind (op_id op) (blockOps m b)))%nat
  end.

(** What the walks of both passes rely on: identities are unique and were
    handed out by the counter. *)
Definition moduleOk (m : ModuleOp) : Prop :=
  uniqueIds m /\ Forall (fun o => (op_id o < mod_fresh m)%nat) (allOps m).

#[global] Instance moduleOk_dec m : Decision (moduleOk m).
Proof. unfold moduleOk. apply _. Defined.

(** A generic load may be followed by the load it is replaced with, a write
    by its in-place variant: they count twice. *)
Definition loadWeight (o : Operation) : nat :=
  match o.(op_name) with
  | LoadOp | Load32Op | Load16Op | Load8Op => 2%nat
  | _ => 1%nat
  end.

Definition writeWeight (o : Operation) : nat :=
  if bool_decide (op_name o = WriteOp) then 2%nat else 1%nat.

(** The part of a module the walk over block [b] relies on. *)
Definition blockOk (b : nat) (m : ModuleOp) : Prop :=
  NoDup (map op_id (blockOps m b))
  /\ Forall (fun o => (op_id o < mod_fresh m)%nat) (blockOps m b).

(** ** Vocabulary for the address/scalar resolution pass *)

Module ResolveSpec.
Import ResolveMemory.

Definition isGenericLoad (n : OpName) : bool :=
  match n with LoadOp | Load32Op | Load16Op | Load8Op => true | _ => false end.

(** The pass's own reading of a use: integer-expected unless its owner is a
    load or store whose base-address operand is the value. *)
Definition integerExpected (m : ModuleOp) (res : Value) (u : Use) : bool :=
  match classifyUse m res u with Done (_, expectInt) => expectInt | Stop _ => false end.

Definition addressExpected (m : ModuleOp) (res : Value) (u : Use) : bool :=
  match classifyUse m res u with Done (expectAddr, _) => expectAddr | Stop _ => false end.

(** No address-expected use comes after an integer-expected one in a use
    list ([keepAsIs]: an integer-expected use was seen before the list). *)
Fixpoint addressUsesFirst (m : ModuleOp) (res : Value) (keepAsIs : bool)
    (uses : list Use) : bool :=
  match uses with
  | [] => true
  | u :: rest =>
      if keepAsIs && negb (integerExpected m res u) then false
      else addressUsesFirst m res (keepAsIs || integerExpected m res u) rest
  end.

End ResolveSpec.

(** ** Vocabulary for the translation *)

Module DeserializeSpec.
Import Deserialize LifterSamples.

(** The message [createMLIR] writes for the kinds it only names. *)
Definition reportedAs (ins : Instruction) : option string :=
  match ins with
  | Call => Some "Call"
  | Callx => Some "Callx"
  | Packet => Some "Packet"
  | Assume => Some "Assume"
  | Atomic => Some "Atomic"
  | Assert => Some "Assert"
  | IncrementLoopCounter => Some "IncrementLoopCounter"
  | _ => None
  end.

(** The offsets the loop of [collectBlocks] hands to [incrementBlocks]. *)
Definition boundariesOf (prog : InstructionSeq) : list N :=
  flat_map (fun li : LabeledInstruction =>
    match li.2 with
    | IJmp jmp =>
        to_size_t (from (target jmp))
        :: match cond jmp with
           | Some _ => [to_size_t (from li.1 + 1)]
           | None => []
           end
    | _ => []
    end) prog.

Record collected (st : State) : Prop := {
  col_nodup : NoDup (m_startOfNextBlock st);
  col_targets : forall x, x ∈ m_startOfNextBlock st <-> x ∈ m_jmpTargets st;
  col_count : m_numBlocks st = N.of_nat (length (m_startOfNextBlock st));
  col_index : dom (m_jumpBlocks st) = {[0%N]} ∪ list_to_set (m_startOfNextBlock st)
}.

Definition isJmp (ins : Instruction) : bool :=
  match ins with IJmp _ => true | _ => false end.

(** The state in which [buildBlock] starts to translate the range of
    [curBlock]: insertion point at its end, registers set to its arguments. *)
Definition rangeStart (curBlock : nat) (cur_op next : N) (st : State) : State :=
  let st := setInsertionPointToEnd curBlock st in
  let st := print [OutStr "NEW block at: "; OutNum (Z.of_N cur_op); OutEndl;
                   OutStr "  next: "; OutNum (Z.of_N next); OutEndl] st in
  setRegisters (blockArguments curBlock m_ebpfRegisters
                  ++ drop m_ebpfRegisters (m_registers st)) st.

(** The branch [buildBlock] appends when the block has no terminator. *)
Definition fallThroughBranch (nextBlock : nat) (st : State) : Operation :=
  {| op_id := freshOp st; op_name := BranchOp; op_operands := m_registers st;
     op_successor := Some nextBlock; op_attr := None |}.

(** What a translation step that builds no terminator keeps. *)
Record keeps (st st' : State) : Prop := {
  keeps_index : m_jumpBlocks st' = m_jumpBlocks st;
  keeps_point : insertionBlock st' = insertionBlock st;
  keeps_size : length (m_registers st') = length (m_registers st);
  keeps_blocks : forall b, is_Some (blocks st !! b) -> is_Some (blocks st' !! b);
  keeps_open : forall b, lacksTerminator (blockOpsOf b st) = true ->
                         lacksTerminator (blockOpsOf b st') = true
}.

(** goto_if 3; add; call; mov; exit: the boundaries are 1 and 3. *)
Definition condSkip : InstructionSeq :=
  [ (at_offset 0, goto_if 3); (at_offset 1, add_r1_5); (at_offset 2, Call);
    (at_offset 3, mov_r0_r1); (at_offset 4, Exit) ].

Definition stateOf (r : Result (N * State)) : State :=
  match r with Done (_, st) => st | Stop _ => initial [] end.

(** The state after [collectBlocks] and the first boundary range of [condSkip]. *)
Definition condSkipAfterFirstRange : State :=
  stateOf (st ← collectBlocks (entered condSkip); buildBlock condSkip (0%N, st) 1%N).

(** The state after [collectBlocks], in front of the first boundary range of
    [condSkip]. *)
Definition condSkipCollected : State :=
  stateOf (st ← collectBlocks (entered condSkip); Done (0%N, st)).

(** The state after the translation of the first range, [0, 1): the
    conditional jump alone. *)
Definition condSkipFirstRange : State :=
  stateOf (translateUpTo 1 condSkip 0 (rangeStart 0 0 1 condSkipCollected)).

End DeserializeSpec.

(** ** Vocabulary: what the passes and the lifter keep *)

(** An operation as its identity and its name. *)
Definition signature (o : Operation) : nat * OpName := (op_id o, op_name o).

(** The operations of a list whose name is not among [ns]. *)
Definition withoutNames (ns : list OpName) (ops : list Operation) : list Operation :=
  filter (fun o => op_name o ∉ ns) ops.

Module ResolveCases.
Import ResolveSamples.

(** A load whose result nothing reads. *)
Definition unusedLoad : ModuleOp :=
  mainWith [ mkOp 10 Load32Op [arg 1; arg 2];
             mkOp 11 AddOp [arg 1; arg 2] ].

(** A main function without memory reads. *)
Definition storesOnly : ModuleOp :=
  mainWith [ mkOp 10 AddOp [arg 1; arg 2];
             mkOp 11 StoreOp [arg 1; arg 2; OpResult 10] ].

(** A module with [xdp_entry] put back in front of its functions. *)
Definition withEntry (m : ModuleOp) : ModuleOp :=
  {| mod_body := xdp_entry :: mod_body m; mod_uses := mod_uses m;
     mod_fresh := mod_fresh m |}.

End ResolveCases.

Module LivenessCases.
Import LivenessSamples.

(** A loop block that reads the array and writes nothing. *)
Definition readsOnly : ModuleOp :=
  loopWith [ mkOp 10 ReadOp [A; arg 2];
             mkOp 11 (OtherOp "btor.add") [OpResult 10; arg 1];
             br 12 [A] ].

End LivenessCases.

Module LifterSpec.
Import Deserialize LifterSamples DeserializeSpec.

(** What the translation of instructions leaves alone: it appends operations
    to the block at the insertion point and text to the diagnostic stream,
    and it sets registers; the sections, the boundaries, the block index, the
    last block, the insertion point, the number of registers and all other
    blocks stay as they are. *)
Record framed (st st' : State) : Prop := {
  framed_sections : m_sections st' = m_sections st;
  framed_index : m_jumpBlocks st' = m_jumpBlocks st;
  framed_targets : m_jmpTargets st' = m_jmpTargets st;
  framed_bounds : m_startOfNextBlock st' = m_startOfNextBlock st;
  framed_count : m_numBlocks st' = m_numBlocks st;
  framed_last : m_lastBlock st' = m_lastBlock st;
  framed_point : insertionBlock st' = insertionBlock st;
  framed_size : length (m_registers st') = length (m_registers st);
  framed_fresh : freshBlock st' = freshBlock st;
  framed_dom : dom (blocks st') = dom (blocks st);
  framed_others : forall b, b <> insertionBlock st -> blocks st' !! b = blocks st !! b;
  framed_current : forall blk,
    blocks st !! insertionBlock st = Some blk ->
    exists ops, blocks st' !! insertionBlock st = Some (mapBlock (fun l => l ++ ops) blk);
  framed_cerr : exists out, cerr st' = cerr st ++ out
}.

(** A jump the translation lets through: strictly forward, to an instruction
    of the section that carries the target offset as its label. *)
Definition forwardJump (prog : InstructionSeq) (label : label_t) (jmp : Jmp) : Prop :=
  (from (target jmp) > from label)%Z
  /\ exists l ins,
       prog !! N.to_nat (to_size_t (from (target jmp))) = Some (l, ins)
       /\ from l = from (target jmp).

(** The blocks the members name exist, and there is one register value per
    register. *)
Record registered (st : State) : Prop := {
  reg_last : is_Some (blocks st !! m_lastBlock st);
  reg_index : forall off b, m_jumpBlocks st !! off = Some b -> is_Some (blocks st !! b);
  reg_size : length (m_registers st) = m_ebpfRegisters
}.

(** The diagnostics of a translated range: for each instruction its offset
    and a blank, followed by what its translation wrote besides. *)
Inductive logged : list label_t -> list Output -> Prop :=
  | logged_nil : logged [] []
  | logged_cons label labels extra rest :
      logged labels rest ->
      logged (label :: labels) (OutNum (from label) :: OutStr " " :: extra ++ rest).

(** A state with other sections. *)
Definition withSections (sections : list InstructionSeq) (st : State) : State :=
  {| m_sections := sections; m_registers := m_registers st;
     m_jumpBlocks := m_jumpBlocks st; m_jmpTargets := m_jmpTargets st;
     m_startOfNextBlock := m_startOfNextBlock st; m_numBlocks := m_numBlocks st;
     m_lastBlock := m_lastBlock st; insertionBlock := insertionBlock st;
     blocks := blocks st; freshBlock := freshBlock st; freshOp := freshOp st;
     cerr := cerr st |}.

(** The [ReturnOp] the epilogue of [buildXDPFunction] builds in state [st]. *)
Definition returnOf (st : State) : Operation :=
  {| op_id := freshOp st; op_name := ReturnOp;
     op_operands := [BlockArgument (m_lastBlock st) 0];
     op_successor := None; op_attr := None |}.

(** The state in which a program without jumps is translated: the entry
    block is the only block, and the two counts have been printed. *)
Definition straightLineStart (sections : list InstructionSeq) (size : nat) : State :=
  print [OutStr "we need "; OutNum 0; OutStr " blocks"; OutEndl;
         OutNum (Z.of_nat size); OutStr " instructions"; OutEndl]
    (enterXDPFunction (initial sections)).

(** add; call; mov; exit *)
Definition straightLine : InstructionSeq :=
  [ (at_offset 0, add_r1_5); (at_offset 1, Call); (at_offset 2, mov_r0_r1);
    (at_offset 3, Exit) ].

(** A jump back to the start behind two instructions. *)
Definition loopBack : InstructionSeq :=
  [ (at_offset 0, add_r1_5); (at_offset 1, Call); (at_offset 2, goto 0) ].

End LifterSpec.

(** * Properties *)

(** ** The result monad *)

Lemma bind_Done {A B} (r : Result A) (f : A -> Result B) (b : B) :
  r ≫= f = Done b -> exists a, r = Done a /\ f a = Done b.
Proof. destruct r as [a|e]; [eauto | discriminate]. Qed.

Lemma assert_Done b cond u : assert b cond = Done u -> b = true.
Proof. destruct b; [done | discriminate]. Qed.

Lemma fromOption_Done {A} (o : option A) e a : fromOption o e = Done a -> o = Some a.
Proof. destruct o; simpl; congruence. Qed.

(** Destructs one successful monadic step in hypothesis [H]. *)
Tactic Notation "step" hyp(H) :=
  let a := fresh "a" in
  let Ha := fresh "Ha" in
  apply bind_Done in H as (a & Ha & H).

Tactic Notation "step" hyp(H) "as" simple_intropattern(a) ident(Ha) :=
  apply bind_Done in H as (a & Ha & H).

(** ** The IR primitives *)

Section Primitives.

Lemma find_app {A} (p : A -> bool) l1 l2 :
  List.find p (l1 ++ l2)
  = match List.find p l1 with Some x => Some x | None => List.find p l2 end.
Proof. induction l1 as [|x l1 IH]; simpl; [done|]. by destruct (p x). Qed.

Lemma find_concat_map {A} (p : A -> bool) (g : list A -> list A) (ls : list (list A)) :
  (forall l, List.find p (g l) = List.find p l) ->
  List.find p (concat (map g ls)) = List.find p (concat ls).
Proof.
  intros Hg. induction ls as [|l ls IH]; simpl; [done|].
  by rewrite !find_app, Hg, IH.
Qed.

Lemma find_map {A} (p : A -> bool) (f : A -> A) l :
  (forall x, p (f x) = p x) ->
  List.find p (map f l) = f <$> List.find p l.
Proof.
  intros Hp. induction l as [|x l IH]; simpl; [done|].
  rewrite Hp. by destruct (p x).
Qed.

Lemma allBlocks_mapBlocks g m :
  allBlocks (mapBlocks g m) = map g (allBlocks m).
Proof.
  unfold allBlocks, mapBlocks. simpl.
  induction (mod_body m) as [|t ts IH]; simpl; [done|].
  rewrite map_app, IH. f_equal. by destruct t.
Qed.

Lemma allOps_mapBlocks f m :
  allOps (mapBlocks (mapBlock f) m) = concat (map f (map blk_ops (allBlocks m))).
Proof.
  unfold allOps. rewrite allBlocks_mapBlocks, !map_map. done.
Qed.

Lemma allOps_mapOps f m : allOps (mapOps f m) = map f (allOps m).
Proof.
  unfold mapOps. rewrite allOps_mapBlocks. unfold allOps.
  induction (map blk_ops (allBlocks m)) as [|l ls IH]; simpl; [done|].
  by rewrite map_app, IH.
Qed.

Lemma lookupOp_mapOps f m id :
  (forall o, op_id (f o) = op_id o) ->
  lookupOp (mapOps f m) id = f <$> lookupOp m id.
Proof.
  intros Hf. unfold lookupOp. rewrite allOps_mapOps.
  apply find_map. intros o. by rewrite Hf.
Qed.

Lemma lookupBlock_mapBlocks g m b :
  (forall blk, blk_id (g blk) = blk_id blk) ->
  lookupBlock (mapBlocks g m) b = g <$> lookupBlock m b.
Proof.
  intros Hg. unfold lookupBlock. rewrite allBlocks_mapBlocks.
  apply find_map. intros blk. by rewrite Hg.
Qed.

Lemma blockOps_mapBlocks f m b :
  f [] = [] ->
  blockOps (mapBlocks (mapBlock f) m) b = f (blockOps m b).
Proof.
  intros Hnil. unfold blockOps. rewrite lookupBlock_mapBlocks by done.
  by destruct (lookupBlock m b).
Qed.

Lemma blockOps_allOps m b o : o ∈ blockOps m b -> o ∈ allOps m.
Proof.
  unfold blockOps, lookupBlock, allOps. intros Ho.
  destruct (List.find _ _) as [blk|] eqn:Hf; [|by apply elem_of_nil in Ho].
  apply find_some in Hf as [Hin _].
  apply list_elem_of_In, in_concat. exists (blk_ops blk).
  split; [by apply in_map|by apply list_elem_of_In].
Qed.

Lemma lookupOp_Some m id o : lookupOp m id = Some o -> o ∈ allOps m /\ op_id o = id.
Proof.
  unfold lookupOp. intros [Hin Hid]%find_some.
  split; [by apply list_elem_of_In|]. by apply bool_decide_eq_true in Hid.
Qed.

(** *** [setOperand] and [rewire] *)

Lemma setOperand_id u v o : op_id (setOperand u v o) = op_id o.
Proof. unfold setOperand. by destruct (decide _). Qed.

Lemma setOperand_name u v o : op_name (setOperand u v o) = op_name o.
Proof. unfold setOperand. by destruct (decide _). Qed.

Lemma rewire_id us v o : op_id (rewire us v o) = op_id o.
Proof.
  unfold rewire. revert o. induction us as [|u us IH]; intros o; simpl; [done|].
  by rewrite IH, setOperand_id.
Qed.

Lemma rewire_name us v o : op_name (rewire us v o) = op_name o.
Proof.
  unfold rewire. revert o. induction us as [|u us IH]; intros o; simpl; [done|].
  by rewrite IH, setOperand_name.
Qed.

Lemma rewire_length us v o : length (op_operands (rewire us v o)) = length (op_operands o).
Proof.
  unfold rewire. revert o. induction us as [|u us IH]; intros o; simpl; [done|].
  rewrite IH. unfold setOperand. destruct (decide _); [|done]. simpl.
  by rewrite length_insert.
Qed.

(** An operand that holds [v] keeps holding it. *)
Lemma rewire_stable us v o i :
  op_operands o !! i = Some v -> op_operands (rewire us v o) !! i = Some v.
Proof.
  unfold rewire. revert o. induction us as [|u us IH]; intros o Ho; simpl; [done|].
  apply IH. unfold setOperand. destruct (decide _); [|done]. simpl.
  destruct (decide (use_index u = i)) as [->|Hne].
  - rewrite list_lookup_insert_eq; [done|]. by eapply lookup_lt_Some.
  - by rewrite list_lookup_insert_ne.
Qed.

(** The operand a use names holds [v] after the rewiring. *)
Lemma rewire_use us v o u :
  u ∈ us -> use_owner u = op_id o -> (use_index u < length (op_operands o))%nat ->
  op_operands (rewire us v o) !! use_index u = Some v.
Proof.
  unfold rewire. revert o. induction us as [|u' us IH]; intros o Hin Hid Hlt.
  - by apply elem_of_nil in Hin.
  - simpl. apply elem_of_cons in Hin as [<-|Hin].
    + apply (rewire_stable us). unfold setOperand.
      rewrite decide_True by done. simpl. by rewrite list_lookup_insert_eq.
    + apply IH; [done|by rewrite setOperand_id|].
      unfold setOperand. destruct (decide _); [|done]. simpl.
      by rewrite length_insert.
Qed.

Lemma mapOps_compose f g m : mapOps f (mapOps g m) = mapOps (fun o => f (g o)) m.
Proof.
  unfold mapOps, mapBlocks. simpl. f_equal.
  rewrite map_map. apply map_ext. intros [fn|n]; [|done]. simpl. do 2 f_equal.
  rewrite map_map. apply map_ext. intros b. unfold mapBlock. simpl. f_equal.
  by rewrite map_map.
Qed.

Lemma mapOps_ext f g m : (forall o, f o = g o) -> mapOps f m = mapOps g m.
Proof.
  intros Hfg. unfold mapOps, mapBlocks. f_equal.
  apply map_ext. intros [fn|n]; [|done]. simpl. do 2 f_equal.
  apply map_ext. intros b. unfold mapBlock. f_equal. by apply map_ext.
Qed.

Lemma mapOps_id m : mapOps (fun o => o) m = m.
Proof.
  unfold mapOps, mapBlocks. destruct m as [body uses fresh]. simpl. f_equal.
  rewrite <- (map_id body) at 2. apply map_ext. intros [[name blks]|n]; [|done].
  simpl. do 2 f_equal. rewrite <- (map_id blks) at 2. apply map_ext.
  intros [id nargs ops]. unfold mapBlock. simpl. f_equal. apply map_id.
Qed.

Lemma foldl_setOperand us new m :
  foldl (fun acc u => mapOps (setOperand u new) acc) m us = mapOps (rewire us new) m.
Proof.
  revert m. induction us as [|u us IH]; intros m; simpl.
  - symmetry. apply mapOps_id.
  - rewrite IH, mapOps_compose. done.
Qed.

(** [replaceAllUsesWith], spelled out. *)
Lemma replaceAllUsesWith_eq old new m :
  replaceAllUsesWith old new m
  = {| mod_body := mod_body (mapOps (rewire (getUses m old) new) m);
       mod_uses := <[new := rev (getUses m old) ++ getUses m new]> (delete old (mod_uses m));
       mod_fresh := mod_fresh m |}.
Proof. unfold replaceAllUsesWith. by rewrite foldl_setOperand. Qed.

Lemma allOps_body m1 m2 : mod_body m1 = mod_body m2 -> allOps m1 = allOps m2.
Proof. unfold allOps, allBlocks. by intros ->. Qed.

Lemma lookupOp_body m1 m2 id : mod_body m1 = mod_body m2 -> lookupOp m1 id = lookupOp m2 id.
Proof. unfold lookupOp. by intros ->%allOps_body. Qed.

Lemma blockOps_body m1 m2 b : mod_body m1 = mod_body m2 -> blockOps m1 b = blockOps m2 b.
Proof. unfold blockOps, lookupBlock, allBlocks. by intros ->. Qed.

Lemma lookupOp_replaceAllUsesWith old new m id :
  lookupOp (replaceAllUsesWith old new m) id
  = rewire (getUses m old) new <$> lookupOp m id.
Proof.
  rewrite replaceAllUsesWith_eq.
  etrans; [apply (lookupOp_body _ (mapOps (rewire (getUses m old) new) m) id);
           reflexivity|].
  apply lookupOp_mapOps, rewire_id.
Qed.

Lemma blockOps_replaceAllUsesWith old new m b :
  blockOps (replaceAllUsesWith old new m) b
  = map (rewire (getUses m old) new) (blockOps m b).
Proof.
  rewrite replaceAllUsesWith_eq.
  etrans; [apply (blockOps_body _ (mapOps (rewire (getUses m old) new) m) b);
           reflexivity|].
  unfold mapOps. by rewrite blockOps_mapBlocks.
Qed.

Lemma getUses_replaceAllUsesWith_old old new m :
  old <> new -> getUses (replaceAllUsesWith old new m) old = [].
Proof.
  intros Hne. unfold getUses, replaceAllUsesWith. simpl.
  by rewrite lookup_insert_ne, lookup_delete_eq.
Qed.

Lemma getUses_replaceAllUsesWith_new old new m :
  getUses (replaceAllUsesWith old new m) new = rev (getUses m old) ++ getUses m new.
Proof. unfold getUses at 1, replaceAllUsesWith. simpl. by rewrite lookup_insert_eq. Qed.

(** *** [createAfter] *)

Lemma addUses_other owner i operands uses v :
  v ∉ operands -> addUses owner i operands uses !! v = uses !! v.
Proof.
  revert i uses. induction operands as [|x operands IH]; intros i uses Hv; simpl; [done|].
  apply not_elem_of_cons in Hv as [Hne Hv].
  rewrite IH by done. by rewrite lookup_insert_ne.
Qed.

Lemma find_insertAfter p id new ops :
  p new = false -> List.find p (insertAfter id new ops) = List.find p ops.
Proof.
  intros Hnew. induction ops as [|o ops IH]; simpl; [done|].
  destruct (decide (op_id o = id)); simpl.
  - destruct (p o); [done|]. by rewrite Hnew.
  - by rewrite IH.
Qed.

Lemma createAfter_body id name operands m :
  mod_body (createAfter id name operands m).2
  = mod_body (mapBlocks (mapBlock (insertAfter id (created name operands m))) m).
Proof. reflexivity. Qed.

Lemma lookupOp_createAfter id name operands m id' :
  id' <> mod_fresh m ->
  lookupOp (createAfter id name operands m).2 id' = lookupOp m id'.
Proof.
  intros Hne.
  etrans; [apply (lookupOp_body _ _ _ (createAfter_body id name operands m))|].
  unfold lookupOp. rewrite allOps_mapBlocks. unfold allOps.
  apply find_concat_map. intros l. apply find_insertAfter. simpl.
  apply bool_decide_eq_false. congruence.
Qed.

Lemma blockOps_createAfter id name operands m b :
  blockOps (createAfter id name operands m).2 b
  = insertAfter id (created name operands m) (blockOps m b).
Proof.
  etrans; [apply (blockOps_body _ _ _ (createAfter_body id name operands m))|].
  by rewrite blockOps_mapBlocks.
Qed.

Lemma nextAfter_insertAfter id new ops :
  id ∈ map op_id ops -> nextAfter id (insertAfter id new ops) = Some new.
Proof.
  induction ops as [|o ops IH]; simpl; intros Hin.
  - by apply elem_of_nil in Hin.
  - destruct (decide (op_id o = id)) as [Heq|Hne]; simpl.
    + by rewrite decide_True.
    + rewrite decide_False by done. apply IH.
      apply elem_of_cons in Hin as [?|?]; [congruence|done].
Qed.

Lemma nextAfter_map f id ops :
  (forall o, op_id (f o) = op_id o) ->
  nextAfter id (map f ops) = f <$> nextAfter id ops.
Proof.
  intros Hf. induction ops as [|o ops IH]; simpl; [done|].
  rewrite Hf. destruct (decide (op_id o = id)); [|done]. by destruct ops.
Qed.

End Primitives.

(** ** Shapes are kept *)

Section Shape.

Lemma moduleShape_mapBlocks f m :
  moduleShape (mapBlocks (mapBlock f) m) = moduleShape m.
Proof.
  unfold moduleShape, mapBlocks. simpl. rewrite map_map.
  apply map_ext. intros [fn|n]; [|done]. simpl.
  by rewrite map_map.
Qed.

Lemma moduleShape_replaceAllUsesWith old new m :
  moduleShape (replaceAllUsesWith old new m) = moduleShape m.
Proof.
  unfold replaceAllUsesWith, moduleShape. simpl.
  generalize (getUses m old). intros us. revert m.
  induction us as [|u us IH]; intros m; [done|].
  simpl. rewrite IH. apply moduleShape_mapBlocks.
Qed.

Lemma moduleShape_createAfter id name operands m :
  moduleShape (createAfter id name operands m).2 = moduleShape m.
Proof. apply moduleShape_mapBlocks. Qed.

Lemma moduleShape_eraseFront m :
  moduleShape (eraseFront m) = tail (moduleShape m).
Proof.
  unfold eraseFront, moduleShape.
  destruct (mod_body m) eqn:E; simpl; [by rewrite E|done].
Qed.

(** A property every visit keeps is kept by the walk over a block. *)
Lemma walkFrom_invariant (I : ModuleOp -> Prop) visit :
  (forall op m m', I m -> visit op m = Done m' -> I m') ->
  forall fuel b cur m m', I m -> walkFrom visit fuel b cur m = Done m' -> I m'.
Proof.
  intros Hvisit fuel. induction fuel as [|fuel IH]; intros b cur m m' Hm H.
  - destruct cur; simpl in H; [discriminate|]. by injection H as <-.
  - destruct cur as [op|]; simpl in H; [|by injection H as <-].
    step H. eapply IH; [|exact H]. eauto.
Qed.

Lemma foldM_invariant {A B} (I : A -> Prop) (f : A -> B -> Result A) :
  (forall a x a', I a -> f a x = Done a' -> I a') ->
  forall l a a', I a -> foldM f l a = Done a' -> I a'.
Proof.
  intros Hf l. induction l as [|x l IH]; intros a a' Ha H.
  - by injection H as <-.
  - simpl in H. step H. eauto.
Qed.

End Shape.

(** ** Reordering inside blocks *)

Section Reordered.

Lemma blockReordered_refl b : blockReordered b b.
Proof. by repeat split. Qed.

Lemma topReordered_refl t : topReordered t t.
Proof.
  destruct t as [f|n]; simpl; [|done]. split; [done|].
  apply Forall2_same_length_lookup. split; [done|].
  intros i x y Hx Hy. rewrite Hx in Hy. injection Hy as <-. apply blockReordered_refl.
Qed.

Lemma reordered_refl m : reordered m m.
Proof.
  repeat split. apply Forall2_same_length_lookup. split; [done|].
  intros i x y Hx Hy. rewrite Hx in Hy. injection Hy as <-. apply topReordered_refl.
Qed.

Lemma blockReordered_trans b1 b2 b3 :
  blockReordered b1 b2 -> blockReordered b2 b3 -> blockReordered b1 b3.
Proof.
  intros (? & ? & ?) (? & ? & ?). repeat split; try congruence. by etrans.
Qed.

Lemma topReordered_trans t1 t2 t3 :
  topReordered t1 t2 -> topReordered t2 t3 -> topReordered t1 t3.
Proof.
  destruct t1, t2, t3; simpl; try done; [|congruence].
  intros [? H12] [? H23]. split; [congruence|].
  eapply Forall2_trans; [|exact H12|exact H23].
  intros ? ? ?. apply blockReordered_trans.
Qed.

Lemma reordered_trans m1 m2 m3 : reordered m1 m2 -> reordered m2 m3 -> reordered m1 m3.
Proof.
  intros (? & ? & H12) (? & ? & H23). repeat split; try congruence.
  eapply Forall2_trans; [|exact H12|exact H23].
  intros ? ? ?. apply topReordered_trans.
Qed.

Lemma reordered_allBlocks m' m :
  reordered m' m -> Forall2 blockReordered (allBlocks m') (allBlocks m).
Proof.
  intros (_ & _ & H). unfold allBlocks.
  induction H as [|t' t ts' ts Ht _ IH]; simpl; [constructor|].
  apply Forall2_app; [|done].
  destruct t', t; simpl in *; try done. by destruct Ht.
Qed.

Lemma reordered_shape m' m : reordered m' m -> moduleShape m' = moduleShape m.
Proof.
  intros (_ & _ & H). unfold moduleShape.
  induction H as [|t' t ts' ts Ht _ IH]; simpl; [done|].
  f_equal; [|done].
  destruct t', t; simpl in *; try done; [|congruence].
  destruct Ht as [-> Hb]. do 2 f_equal.
  induction Hb as [|b' b bs' bs (Hid & Hn & _) _ IHb]; simpl; [done|].
  unfold blockSignature at 1 3. by rewrite Hid, Hn, IHb.
Qed.

Lemma reordered_block_ids m' m :
  reordered m' m -> map blk_id (allBlocks m') = map blk_id (allBlocks m).
Proof.
  intros H%reordered_allBlocks.
  induction H as [|b' b bs' bs (Hid & _) _ IH]; simpl; [done|]. by rewrite Hid, IH.
Qed.

Lemma reordered_allOps m' m : reordered m' m -> allOps m' ≡ₚ allOps m.
Proof.
  intros H%reordered_allBlocks. unfold allOps.
  induction H as [|b' b bs' bs (_ & _ & Hp) _ IH]; simpl; [done|].
  by rewrite Hp, IH.
Qed.

Lemma reordered_uniqueIds m' m : reordered m' m -> uniqueIds m -> uniqueIds m'.
Proof.
  intros H [Hops Hblks]. split.
  - by rewrite (reordered_allOps _ _ H).
  - by rewrite (reordered_block_ids _ _ H).
Qed.

(** *** Moving one operation *)

Lemma removeOp_absent a ops : a ∉ map op_id ops -> removeOp a ops = ops.
Proof.
  unfold removeOp. induction ops as [|o ops IH]; intros Ha; [done|].
  simpl in Ha. apply not_elem_of_cons in Ha as [Hne Ha].
  rewrite filter_cons_True by congruence. by rewrite IH.
Qed.

Lemma insertBefore_absent e new ops : e ∉ map op_id ops -> insertBefore e new ops = ops.
Proof.
  induction ops as [|o ops IH]; intros He; simpl; [done|].
  simpl in He. apply not_elem_of_cons in He as [Hne He].
  rewrite decide_False by congruence. by rewrite IH.
Qed.

Lemma insertBefore_present e new ops :
  e ∈ map op_id ops -> insertBefore e new ops ≡ₚ new :: ops.
Proof.
  induction ops as [|o ops IH]; intros He; simpl.
  - by apply elem_of_nil in He.
  - destruct (decide (op_id o = e)); [done|].
    simpl in He. apply elem_of_cons in He as [?|He]; [congruence|].
    rewrite (IH He). apply Permutation_swap.
Qed.

Lemma removeOp_present a o ops :
  NoDup (map op_id ops) -> o ∈ ops -> op_id o = a -> o :: removeOp a ops ≡ₚ ops.
Proof.
  unfold removeOp. induction ops as [|x ops IH]; intros Hnd Ho Hid.
  - by apply elem_of_nil in Ho.
  - simpl in Hnd. apply NoDup_cons in Hnd as [Hx Hnd].
    apply elem_of_cons in Ho as [->|Ho].
    + rewrite filter_cons_False by (intros H; by apply H).
      rewrite <- Hid. fold (removeOp (op_id x) ops). by rewrite removeOp_absent.
    + assert (op_id x <> a) as Hne.
      { intros Heq. apply Hx. rewrite Heq, <- Hid. apply list_elem_of_fmap. by exists o. }
      rewrite filter_cons_True by done.
      rewrite Permutation_swap. by rewrite IH.
Qed.

Lemma elem_of_ids_removeOp a e ops :
  e <> a -> e ∈ map op_id ops -> e ∈ map op_id (removeOp a ops).
Proof.
  intros Hne (o & -> & Ho)%list_elem_of_fmap.
  apply list_elem_of_fmap. exists o. split; [done|].
  unfold removeOp. apply list_elem_of_filter. split; [congruence|done].
Qed.

(** With unique identities, an identity lives in one block. *)
Lemma same_block (bs : list Block) b1 b2 x :
  NoDup (map op_id (concat (map blk_ops bs))) ->
  b1 ∈ bs -> b2 ∈ bs ->
  x ∈ map op_id (blk_ops b1) -> x ∈ map op_id (blk_ops b2) ->
  b1 = b2.
Proof.
  induction bs as [|b bs IH]; intros Hnd H1 H2 Hx1 Hx2.
  - by apply elem_of_nil in H1.
  - simpl in Hnd. rewrite map_app in Hnd.
    apply NoDup_app in Hnd as (Hb & Hdisj & Hrest).
    assert (forall b', b' ∈ bs -> x ∈ map op_id (blk_ops b') ->
              x ∈ map op_id (concat (map blk_ops bs))) as Hlater.
    { intros b' Hb' Hx'. apply list_elem_of_fmap in Hx' as (o & -> & Ho).
      apply list_elem_of_fmap. exists o. split; [done|].
      apply list_elem_of_In, in_concat. exists (blk_ops b').
      split; [apply in_map; by apply list_elem_of_In|by apply list_elem_of_In]. }
    apply elem_of_cons in H1 as [->|H1]; apply elem_of_cons in H2 as [->|H2].
    + done.
    + exfalso. eapply Hdisj; [exact Hx1|]. by eapply Hlater.
    + exfalso. eapply Hdisj; [exact Hx2|]. by eapply Hlater.
    + by apply IH.
Qed.

Lemma id_in_one_block (bs : list Block) b1 b2 x :
  NoDup (map op_id (concat (map blk_ops bs))) ->
  b1 ∈ bs -> b2 ∈ bs ->
  x ∈ map op_id (blk_ops b1) -> x ∈ map op_id (blk_ops b2) ->
  blk_ops b1 = blk_ops b2.
Proof. intros. f_equal. by eapply same_block. Qed.

Lemma getBlock_Some m id blk :
  getBlock m id = Some blk ->
  exists b, b ∈ allBlocks m /\ blk_id b = blk /\ id ∈ map op_id (blk_ops b).
Proof.
  unfold getBlock. destruct (List.find _ _) as [b|] eqn:Hf; [|discriminate].
  intros [= <-]. apply find_some in Hf as [Hin Hid].
  exists b. split; [by apply list_elem_of_In|]. split; [done|].
  by apply bool_decide_eq_true in Hid.
Qed.

Lemma block_by_id (bs : list Block) b1 b2 :
  NoDup (map blk_id bs) -> b1 ∈ bs -> b2 ∈ bs -> blk_id b1 = blk_id b2 -> b1 = b2.
Proof.
  induction bs as [|b bs IH]; intros Hnd H1 H2 Heq.
  - by apply elem_of_nil in H1.
  - simpl in Hnd. apply NoDup_cons in Hnd as [Hb Hnd].
    apply elem_of_cons in H1 as [->|H1]; apply elem_of_cons in H2 as [->|H2].
    + done.
    + exfalso. apply Hb. rewrite Heq. apply list_elem_of_fmap. by exists b2.
    + exfalso. apply Hb. rewrite <- Heq. apply list_elem_of_fmap. by exists b1.
    + by apply IH.
Qed.

Lemma op_by_id (ops : list Operation) o1 o2 :
  NoDup (map op_id ops) -> o1 ∈ ops -> o2 ∈ ops -> op_id o1 = op_id o2 -> o1 = o2.
Proof.
  induction ops as [|o ops IH]; intros Hnd H1 H2 Heq.
  - by apply elem_of_nil in H1.
  - simpl in Hnd. apply NoDup_cons in Hnd as [Ho Hnd].
    apply elem_of_cons in H1 as [->|H1]; apply elem_of_cons in H2 as [->|H2].
    + done.
    + exfalso. apply Ho. rewrite Heq. apply list_elem_of_fmap. by exists o2.
    + exfalso. apply Ho. rewrite <- Heq. apply list_elem_of_fmap. by exists o1.
    + by apply IH.
Qed.

Lemma block_ops_in_allOps m b o : b ∈ allBlocks m -> o ∈ blk_ops b -> o ∈ allOps m.
Proof.
  intros Hb Ho. unfold allOps. apply list_elem_of_In, in_concat.
  exists (blk_ops b). split; [apply in_map; by apply list_elem_of_In|by apply list_elem_of_In].
Qed.

Lemma NoDup_block_ids m b :
  NoDup (map op_id (allOps m)) -> b ∈ allBlocks m -> NoDup (map op_id (blk_ops b)).
Proof.
  unfold allOps. intros Hnd Hb.
  induction (allBlocks m) as [|x bs IH]; [by apply elem_of_nil in Hb|].
  simpl in Hnd. rewrite map_app in Hnd. apply NoDup_app in Hnd as (Hx & _ & Hrest).
  apply elem_of_cons in Hb as [->|Hb]; [done|by apply IH].
Qed.

Lemma mapBlocks_reordered f m :
  (forall b, b ∈ allBlocks m -> f (blk_ops b) ≡ₚ blk_ops b) ->
  reordered (mapBlocks (mapBlock f) m) m.
Proof.
  intros Hf. unfold reordered, mapBlocks. simpl. split; [done|]. split; [done|].
  unfold allBlocks in Hf.
  induction (mod_body m) as [|t ts IH]; simpl; [constructor|].
  constructor.
  - destruct t as [fn|n]; simpl; [|done]. split; [done|].
    assert (forall b, b ∈ fn_blocks fn -> f (blk_ops b) ≡ₚ blk_ops b) as Hfn.
    { intros b Hb. apply Hf. simpl. apply elem_of_app. by left. }
    clear -Hfn. induction (fn_blocks fn) as [|b bs IHb]; simpl; [constructor|].
    constructor.
    + repeat split. simpl. apply Hfn. by left.
    + apply IHb. intros b' Hb'. apply Hfn. by right.
  - apply IH. intros b Hb. apply Hf. simpl. apply elem_of_app. by right.
Qed.

Lemma moveBefore_reordered a e m m' blk :
  uniqueIds m -> a <> e ->
  getBlock m a = Some blk -> getBlock m e = Some blk ->
  moveBefore a e m = Done m' -> reordered m' m.
Proof.
  intros [Hops Hblks] Hne Ha He H. unfold moveBefore in H.
  step H. rename a0 into opA. apply fromOption_Done in Ha0. injection H as <-.
  apply lookupOp_Some in Ha0 as [HopA HidA].
  apply getBlock_Some in Ha as (ba & Hba & Hida & Haa).
  apply getBlock_Some in He as (be & Hbe & Hide & Hee).
  assert (ba = be) as <- by (apply (block_by_id (allBlocks m)); congruence).
  apply mapBlocks_reordered. intros b Hb.
  destruct (decide (a ∈ map op_id (blk_ops b))) as [Hin|Hnin].
  - assert (blk_ops b = blk_ops ba) as Hsame
      by (by apply (id_in_one_block (allBlocks m) b ba a)).
    rewrite Hsame.
    assert (opA ∈ blk_ops ba) as HopA'.
    { apply list_elem_of_fmap in Haa as (o & Hoid & Ho).
      assert (o = opA) as <-; [|done].
      apply (op_by_id (allOps m)); [done| |done|congruence].
      exact (block_ops_in_allOps m ba o Hba Ho). }
    rewrite insertBefore_present by (by apply elem_of_ids_removeOp).
    apply removeOp_present; [|done|done].
    by eapply NoDup_block_ids.
  - rewrite removeOp_absent by done.
    rewrite insertBefore_absent; [done|].
    intros Hin. apply Hnin.
    assert (blk_ops b = blk_ops ba) as ->
      by (by apply (id_in_one_block (allBlocks m) b ba e)).
    done.
Qed.

(** *** What is behind the walk *)

Lemma isBeforeInBlock_Done m a e before :
  isBeforeInBlock m a e = Done before ->
  exists blk, getBlock m a = Some blk /\ getBlock m e = Some blk.
Proof.
  unfold isBeforeInBlock. intros H.
  step H as blk Hblk. apply fromOption_Done in Hblk.
  step H as ? Hsame. apply assert_Done, bool_decide_eq_true in Hsame. eauto.
Qed.

Lemma behind_map f id ops :
  (forall o, op_id (f o) = op_id o) -> behind id (map f ops) = map f (behind id ops).
Proof.
  intros Hf. induction ops as [|o ops IH]; simpl; [done|].
  rewrite Hf. by destruct (decide _).
Qed.

Lemma behind_insertAfter id new ops :
  id ∈ map op_id ops -> behind id (insertAfter id new ops) = new :: behind id ops.
Proof.
  induction ops as [|o ops IH]; simpl; intros Hin.
  - by apply elem_of_nil in Hin.
  - destruct (decide (op_id o = id)) as [Heq|Hne]; simpl.
    + by rewrite decide_True.
    + rewrite decide_False by done. apply IH.
      apply elem_of_cons in Hin as [?|?]; [congruence|done].
Qed.

Lemma totalWeight_map w f ops :
  (forall o, w (f o) = w o) -> totalWeight w (map f ops) = totalWeight w ops.
Proof.
  intros Hw. induction ops as [|o ops IH]; simpl; [done|]. by rewrite Hw, IH.
Qed.

Lemma totalWeight_bound w k ops :
  (forall o, (w o <= k)%nat) -> (totalWeight w ops <= k * length ops)%nat.
Proof.
  intros Hw. induction ops as [|o ops IH]; simpl; [lia|].
  specialize (Hw o). lia.
Qed.

Lemma pending_head w b m :
  pending w b m (head (blockOps m b)) = totalWeight w (blockOps m b).
Proof.
  unfold pending. destruct (blockOps m b) as [|o ops]; simpl; [done|].
  by rewrite decide_True.
Qed.

Lemma ids_insertAfter id new ops :
  id ∈ map op_id ops ->
  map op_id (insertAfter id new ops) ≡ₚ op_id new :: map op_id ops.
Proof.
  induction ops as [|o ops IH]; simpl; intros Hin.
  - by apply elem_of_nil in Hin.
  - destruct (decide (op_id o = id)) as [Heq|Hne]; simpl.
    + apply Permutation_swap.
    + apply elem_of_cons in Hin as [?|Hin]; [congruence|].
      rewrite (IH Hin). apply Permutation_swap.
Qed.

Lemma insertAfter_absent id new ops :
  id ∉ map op_id ops -> insertAfter id new ops = ops.
Proof.
  induction ops as [|o ops IH]; simpl; intros Hin; [done|].
  apply not_elem_of_cons in Hin as [Hne Hin].
  rewrite decide_False by congruence. by rewrite IH.
Qed.

Lemma totalWeight_perm w (l1 l2 : list Operation) :
  l1 ≡ₚ l2 -> totalWeight w l1 = totalWeight w l2.
Proof.
  induction 1 as [|x l1 l2 _ IH|x y l|l1 l2 l3 _ IH1 _ IH2]; simpl; lia.
Qed.

Lemma totalWeight_removeOp w a ops :
  (totalWeight w (removeOp a ops) <= totalWeight w ops)%nat.
Proof.
  unfold removeOp. induction ops as [|o ops IH]; simpl; [done|].
  destruct (decide (op_id o ≠ a)).
  - rewrite filter_cons_True by done. simpl. lia.
  - rewrite filter_cons_False by done. lia.
Qed.

Lemma behind_removeOp a W ops :
  a <> W -> behind W (removeOp a ops) = removeOp a (behind W ops).
Proof.
  intros Hne. unfold removeOp. induction ops as [|o ops IH]; simpl; [done|].
  destruct (decide (op_id o ≠ a)) as [Hoa|Hoa].
  - rewrite filter_cons_True by done. simpl. by destruct (decide (op_id o = W)).
  - rewrite filter_cons_False by done. apply dec_stable in Hoa.
    rewrite decide_False by congruence. done.
Qed.

(** Moving [A] from behind [e] to right in front of [e] does not add to what
    is behind [W]. *)
Lemma behind_after_move w (ops : list Operation) (A : Operation) (a e W : nat) :
  NoDup (map op_id ops) ->
  A ∈ ops -> op_id A = a -> e ∈ map op_id ops -> a <> e -> a <> W ->
  (forall ia ie, indexOf a ops = Some ia -> indexOf e ops = Some ie -> ~ (ia < ie)%nat) ->
  (totalWeight w (behind W (insertBefore e A (removeOp a ops)))
   <= totalWeight w (behind W ops))%nat.
Proof.
  induction ops as [|o ops IH]; intros Hnd HA Hid He Hae HaW Hidx.
  - by apply elem_of_nil in HA.
  - simpl in Hnd. apply NoDup_cons in Hnd as [Ho Hnd].
    destruct (decide (op_id o = a)) as [Hoa|Hoa].
    { (* the moved operation is in front: it would be before [e] *)
      exfalso.
      assert (e ∈ map op_id ops) as He'.
      { simpl in He. apply elem_of_cons in He as [?|?]; [congruence|done]. }
      assert (exists ie, indexOf e ops = Some ie) as [ie Hie].
      { clear -He'. induction ops as [|x ops IH]; [by apply elem_of_nil in He'|].
        simpl. destruct (decide (op_id x = e)); [eauto|].
        simpl in He'. apply elem_of_cons in He' as [?|He']; [congruence|].
        destruct (IH He') as [ie ->]. eauto. }
      apply (Hidx 0%nat (S ie)); [| |lia].
      - simpl. by rewrite decide_True.
      - simpl. rewrite decide_False by congruence. by rewrite Hie. }
    assert (A ∈ ops) as HA'.
    { apply elem_of_cons in HA as [->|?]; [congruence|done]. }
    assert (removeOp a (o :: ops) = o :: removeOp a ops) as ->.
    { unfold removeOp. by rewrite filter_cons_True. }
    destruct (decide (op_id o = W)) as [HoW|HoW].
    + (* the walk stands here *)
      assert (behind W (o :: ops) = ops) as -> by (simpl; by rewrite decide_True).
      destruct (decide (op_id o = e)) as [Hoe|Hoe].
      * simpl. rewrite decide_True by done. simpl.
        rewrite decide_False by congruence. rewrite decide_True by done.
        apply totalWeight_removeOp.
      * simpl. rewrite decide_False by done. simpl. rewrite decide_True by done.
        assert (e ∈ map op_id ops) as He'.
        { simpl in He. apply elem_of_cons in He as [?|?]; [congruence|done]. }
        rewrite (totalWeight_perm w _ (A :: removeOp a ops)).
        -- rewrite (totalWeight_perm w _ ops); [done|]. by apply removeOp_present.
        -- apply insertBefore_present. by apply elem_of_ids_removeOp.
    + assert (behind W (o :: ops) = behind W ops) as ->
        by (simpl; by rewrite decide_False).
      destruct (decide (op_id o = e)) as [Hoe|Hoe].
      * simpl. rewrite decide_True by done. simpl.
        rewrite decide_False by congruence. rewrite decide_False by done.
        rewrite behind_removeOp by done. apply totalWeight_removeOp.
      * simpl. rewrite decide_False by done. simpl. rewrite decide_False by done.
        apply IH; try done.
        -- simpl in He. apply elem_of_cons in He as [?|?]; [congruence|done].
        -- intros ia ie Hia Hie Hlt. apply (Hidx (S ia) (S ie)); [| |lia].
           ++ simpl. rewrite decide_False by done. by rewrite Hia.
           ++ simpl. rewrite decide_False by done. by rewrite Hie.
Qed.

(** With unique identities, [getBlock] and [blockOps] agree. *)
Lemma lookupBlock_first m blk b :
  NoDup (map blk_id (allBlocks m)) -> blk ∈ allBlocks m -> blk_id blk = b ->
  lookupBlock m b = Some blk.
Proof.
  unfold lookupBlock. intros Hnd Hin Hid.
  destruct (List.find _ _) as [blk'|] eqn:Hf.
  - apply find_some in Hf as [Hin' Hid']. apply bool_decide_eq_true in Hid'.
    f_equal. apply (block_by_id (allBlocks m)); [done| |done|congruence].
    by apply list_elem_of_In.
  - exfalso. apply list_elem_of_In in Hin.
    pose proof (find_none _ _ Hf blk Hin) as Hn. simpl in Hn.
    by rewrite bool_decide_eq_true_2 in Hn.
Qed.

Lemma getBlock_blockOps m x blk :
  uniqueIds m -> getBlock m x = Some blk -> x ∈ map op_id (blockOps m blk).
Proof.
  intros [_ Hblks] (B & HB & Hid & Hx)%getBlock_Some.
  unfold blockOps. by rewrite (lookupBlock_first m B blk Hblks HB Hid).
Qed.

Lemma blockOps_getBlock m x b :
  uniqueIds m -> x ∈ map op_id (blockOps m b) -> getBlock m x = Some b.
Proof.
  intros [Hops Hblks] Hx. unfold blockOps in Hx.
  destruct (lookupBlock m b) as [B|] eqn:HB; [|by apply elem_of_nil in Hx].
  unfold lookupBlock in HB. apply find_some in HB as [HBin HBid].
  apply bool_decide_eq_true in HBid. apply list_elem_of_In in HBin.
  unfold getBlock.
  destruct (List.find _ (allBlocks m)) as [B'|] eqn:Hf.
  - apply find_some in Hf as [HB'in Hx']. apply bool_decide_eq_true in Hx'.
    apply list_elem_of_In in HB'in. simpl. f_equal. rewrite <- HBid.
    f_equal. by apply (same_block (allBlocks m) B' B x).
  - exfalso. apply list_elem_of_In in HBin.
    pose proof (find_none _ _ Hf B HBin) as Hn. simpl in Hn.
    by rewrite bool_decide_eq_true_2 in Hn.
Qed.

Lemma blockOps_lookupBlock m b :
  blockOps m b <> [] -> exists B, B ∈ allBlocks m /\ blk_id B = b /\ blk_ops B = blockOps m b.
Proof.
  unfold blockOps, lookupBlock. destruct (List.find _ _) as [B|] eqn:Hf; [|done].
  intros _. apply find_some in Hf as [Hin Hid]. apply bool_decide_eq_true in Hid.
  exists B. split; [by apply list_elem_of_In|done].
Qed.

Lemma NoDup_blockOps m b :
  NoDup (map op_id (allOps m)) -> NoDup (map op_id (blockOps m b)).
Proof.
  intros Hnd. destruct (blockOps m b) as [|o ops] eqn:Hb; [constructor|].
  destruct (blockOps_lookupBlock m b) as (B & HB & _ & Hops); [by rewrite Hb|].
  rewrite <- Hb, <- Hops. by eapply NoDup_block_ids.
Qed.

Lemma reordered_blockOps m' m b : reordered m' m -> blockOps m' b ≡ₚ blockOps m b.
Proof.
  intros H%reordered_allBlocks. unfold blockOps, lookupBlock.
  induction H as [|B' B bs' bs (Hid & _ & Hp) _ IH]; simpl; [done|].
  rewrite Hid. by destruct (bool_decide (blk_id B = b)).
Qed.

Lemma moveBefore_behind w b W a e m m' cur :
  uniqueIds m -> a <> e -> a <> W ->
  isBeforeInBlock m a e = Done false ->
  lookupOp m a = Some cur ->
  moveBefore a e m = Done m' ->
  (totalWeight w (behind W (blockOps m' b)) <= totalWeight w (behind W (blockOps m b)))%nat.
Proof.
  intros Hu Hae HaW Hbefore Hcur Hmove.
  pose proof Hu as [Hops Hblks].
  unfold moveBefore in Hmove. rewrite Hcur in Hmove. simpl in Hmove.
  injection Hmove as <-. rewrite blockOps_mapBlocks by done.
  unfold isBeforeInBlock in Hbefore.
  step Hbefore as blk Hblk. apply fromOption_Done in Hblk.
  step Hbefore as ? Hsame. apply assert_Done, bool_decide_eq_true in Hsame.
  step Hbefore as ia Hia. apply fromOption_Done in Hia.
  step Hbefore as ie Hie. apply fromOption_Done in Hie.
  injection Hbefore as Hlt. apply bool_decide_eq_false in Hlt.
  destruct (decide (a ∈ map op_id (blockOps m b))) as [Hin|Hnin].
  - assert (blk = b) as ->.
    { apply (blockOps_getBlock m a b Hu) in Hin. congruence. }
    apply behind_after_move; try done.
    + by apply NoDup_blockOps.
    + apply lookupOp_Some in Hcur as [Hcin Hcid].
      apply list_elem_of_fmap in Hin as (o & Hoid & Ho).
      assert (o = cur) as <-; [|done].
      apply (op_by_id (allOps m)); [done| |done|congruence].
      by eapply blockOps_allOps.
    + by apply lookupOp_Some in Hcur as [_ ?].
    + by apply getBlock_blockOps.
    + intros ia' ie' Hia' Hie'. rewrite Hia in Hia'. rewrite Hie in Hie'.
      by injection Hia' as <-; injection Hie' as <-.
  - rewrite removeOp_absent by done.
    rewrite insertBefore_absent; [done|].
    intros Hein. apply Hnin.
    apply (blockOps_getBlock m e b Hu) in Hein.
    apply getBlock_blockOps; [done|congruence].
Qed.

Lemma allOps_replaceAllUsesWith old new m :
  allOps (replaceAllUsesWith old new m) = map (rewire (getUses m old) new) (allOps m).
Proof.
  rewrite replaceAllUsesWith_eq.
  etrans; [apply (allOps_body _ (mapOps (rewire (getUses m old) new) m)); reflexivity|].
  apply allOps_mapOps.
Qed.

Lemma allBlocks_body m1 m2 : mod_body m1 = mod_body m2 -> allBlocks m1 = allBlocks m2.
Proof. unfold allBlocks. by intros ->. Qed.

Lemma block_ids_mapBlocks f m :
  map blk_id (allBlocks (mapBlocks (mapBlock f) m)) = map blk_id (allBlocks m).
Proof. rewrite allBlocks_mapBlocks, map_map. done. Qed.

Lemma block_ids_replaceAllUsesWith old new m :
  map blk_id (allBlocks (replaceAllUsesWith old new m)) = map blk_id (allBlocks m).
Proof.
  rewrite replaceAllUsesWith_eq.
  etrans; [apply f_equal;
           apply (allBlocks_body _ (mapOps (rewire (getUses m old) new) m)); reflexivity|].
  apply block_ids_mapBlocks.
Qed.

Lemma block_ids_createAfter id name operands m :
  map blk_id (allBlocks (createAfter id name operands m).2) = map blk_id (allBlocks m).
Proof.
  etrans; [apply f_equal; apply (allBlocks_body _ _ (createAfter_body id name operands m))|].
  apply block_ids_mapBlocks.
Qed.

Lemma ids_concat_insertAfter id new (ls : list (list Operation)) :
  NoDup (map op_id (concat ls)) -> id ∈ map op_id (concat ls) ->
  map op_id (concat (map (insertAfter id new) ls)) ≡ₚ op_id new :: map op_id (concat ls).
Proof.
  induction ls as [|l ls IH]; intros Hnd Hin; simpl in *.
  - by apply elem_of_nil in Hin.
  - rewrite map_app in Hnd, Hin. apply NoDup_app in Hnd as (Hl & Hdisj & Hrest).
    rewrite !map_app.
    destruct (decide (id ∈ map op_id l)) as [Hl'|Hl'].
    + rewrite ids_insertAfter by done.
      assert (map (insertAfter id new) ls = ls) as ->; [|done].
      assert (forall l', l' ∈ ls -> id ∉ map op_id l') as Hnone.
      { intros l' Hl'in Hid. eapply Hdisj; [exact Hl'|].
        apply list_elem_of_fmap in Hid as (o & -> & Ho).
        apply list_elem_of_fmap. exists o. split; [done|].
        apply list_elem_of_In, in_concat. exists l'.
        split; by apply list_elem_of_In. }
      clear -Hnone. induction ls as [|x ls IH]; simpl; [done|].
      rewrite insertAfter_absent by (apply Hnone; by left).
      rewrite IH; [done|]. intros l' Hl'. apply Hnone. by right.
    + rewrite insertAfter_absent by done.
      apply elem_of_app in Hin as [?|Hin]; [done|].
      rewrite (IH Hrest Hin). by rewrite Permutation_middle.
Qed.

Lemma ids_createAfter id name operands m :
  NoDup (map op_id (allOps m)) -> id ∈ map op_id (allOps m) ->
  map op_id (allOps (createAfter id name operands m).2)
  ≡ₚ mod_fresh m :: map op_id (allOps m).
Proof.
  intros Hnd Hin.
  rewrite (allOps_body _ _ (createAfter_body id name operands m)).
  rewrite allOps_mapBlocks. by apply ids_concat_insertAfter.
Qed.

End Reordered.

(** ** Fuel *)

Section Fuel.

Variable visit : Operation -> ModuleOp -> Result ModuleOp.
Variable b : nat.
Variable I : ModuleOp -> Prop.
Variable w : Operation -> nat.

Hypothesis w_positive : forall o, (1 <= w o)%nat.
Hypothesis I_unique : forall m, I m -> NoDup (map op_id (blockOps m b)).
Hypothesis visit_step : forall op m m',
  I m -> op ∈ blockOps m b -> visit op m = Done m' ->
  I m'
  /\ (totalWeight w (behind (op_id op) (blockOps m' b))
      < w op + totalWeight w (behind (op_id op) (blockOps m b)))%nat.

Lemma nextAfter_behind id ops : nextAfter id ops = head (behind id ops).
Proof. induction ops as [|o ops IH]; simpl; [done|]. by destruct (decide _). Qed.

Lemma behind_elem id ops o : o ∈ behind id ops -> o ∈ ops.
Proof.
  induction ops as [|x ops IH]; simpl; [done|].
  destruct (decide _); intros H; right; auto.
Qed.

Lemma behind_next id ops o rest :
  NoDup (map op_id ops) -> behind id ops = o :: rest -> behind (op_id o) ops = rest.
Proof.
  induction ops as [|x ops IH]; simpl; [done|]. intros Hnd Hb.
  apply NoDup_cons in Hnd as [Hx Hnd].
  destruct (decide (op_id x = id)) as [Hid|Hid].
  - subst ops. simpl in *.
    rewrite decide_False.
    + by rewrite decide_True.
    + intros Heq. apply Hx. rewrite Heq. by left.
  - rewrite decide_False; [by apply IH|].
    intros Heq. apply Hx. rewrite Heq.
    apply list_elem_of_fmap. exists o. split; [done|].
    apply (behind_elem id). rewrite Hb. by left.
Qed.

Lemma pending_next m id :
  NoDup (map op_id (blockOps m b)) ->
  pending w b m (nextAfter id (blockOps m b))
  = totalWeight w (behind id (blockOps m b)).
Proof.
  intros Hnd. rewrite nextAfter_behind.
  destruct (behind id (blockOps m b)) as [|o rest] eqn:Hb; [done|].
  simpl. by rewrite (behind_next _ _ _ _ Hnd Hb).
Qed.

(** With fuel for everything that is pending, more fuel changes nothing. *)
Lemma walkFrom_enough fuel extra cur m :
  I m -> (forall op, cur = Some op -> op ∈ blockOps m b) ->
  (pending w b m cur <= fuel)%nat ->
  walkFrom visit (fuel + extra) b cur m = walkFrom visit fuel b cur m.
Proof.
  revert cur m. induction fuel as [|fuel IH]; intros cur m Hm Hcur Hfuel.
  - destruct cur as [op|]; [|by destruct extra].
    exfalso. simpl in Hfuel. pose proof (w_positive op). lia.
  - destruct cur as [op|]; [|done]. simpl.
    destruct (visit op m) as [m'|e] eqn:Hv; [|done]. simpl.
    destruct (visit_step op m m' Hm (Hcur op eq_refl) Hv) as [Hm' Hlt].
    apply IH; [done| |].
    + intros op' Hnext. rewrite nextAfter_behind in Hnext.
      apply (behind_elem (op_id op)).
      destruct (behind (op_id op) (blockOps m' b)); [done|].
      injection Hnext as ->. by left.
    + rewrite pending_next by auto. simpl in Hfuel. lia.
Qed.

End Fuel.

(** ** The address/scalar resolution pass *)

Module ResolveMemoryProofs.
Import ResolveMemory ResolveSpec ResolveSamples.

Lemma replaceLoadWithLoadAddress_shape op m s m' :
  replaceLoadWithLoadAddress op m = Done (s, m') -> moduleShape m' = moduleShape m.
Proof.
  unfold replaceLoadWithLoadAddress. intros H.
  step H. step H. destruct a0 as [replaceWithMem keepAsIs].
  destruct keepAsIs; [by injection H as <- <-|].
  step H. destruct (bool_decide (op_name op = LoadOp)); [|by injection H as <- <-].
  step H. step H.
  destruct (createAfter _ _ _ m) as [loadAddr m1] eqn:Hc.
  step H. injection H as <- <-.
  rewrite moduleShape_replaceAllUsesWith.
  change m1 with (loadAddr, m1).2. rewrite <- Hc. apply moduleShape_createAfter.
Qed.

Lemma resolve_visit_shape op m m' : visit op m = Done m' -> moduleShape m' = moduleShape m.
Proof.
  unfold visit. intros H. step H. destruct a as [s m1]. injection H as <-.
  destruct (op_name op); try (by injection Ha as <- <-);
    by eapply replaceLoadWithLoadAddress_shape.
Qed.

Lemma runOnOperation_shape m m' :
  runOnOperation m = Done m' ->
  length (mod_body m) = 2%nat /\ moduleShape m' = tail (moduleShape m).
Proof.
  unfold runOnOperation. intros H.
  step H. apply assert_Done, bool_decide_eq_true in Ha. split; [done|].
  do 5 step H.
  rewrite <- moduleShape_eraseFront.
  eapply (foldM_invariant (fun x => moduleShape x = moduleShape (eraseFront m)));
    [|reflexivity|exact H].
  intros x b x' Hx Hw. unfold walkBlock in Hw.
  eapply (walkFrom_invariant (fun x => moduleShape x = moduleShape (eraseFront m)));
    [|exact Hx|exact Hw].
  intros op y y' Hy Hv. rewrite <- Hy. by eapply resolve_visit_shape.
Qed.

(** C4 (amended): a second run of the address/scalar resolution pass on the
    module a completed run produced does not get to any load. The first run
    removed [xdp_entry], so the module holds one function and the second run
    stops at the assertion that expects two. *)
Theorem second_run_stops_at_entry (m m' : ModuleOp) :
  runOnOperation m = Done m' ->
  runOnOperation m' = Stop (AssertionFailed "there are more than 2 functions").
Proof.
  intros [Hlen Hshape]%runOnOperation_shape.
  assert (length (mod_body m') = 1%nat) as Hone.
  { apply (f_equal length) in Hshape. unfold moduleShape in Hshape.
    rewrite length_map in Hshape. rewrite Hshape.
    destruct (mod_body m) as [|t [|t' [|t'' rest]]]; simpl in *; congruence. }
  unfold runOnOperation. by rewrite Hone.
Qed.

Lemma second_run_stops_at_entry_witness :
  runOnOperation (loadThenStoreBase LoadOp) ≫= runOnOperation
  = Stop (AssertionFailed "there are more than 2 functions").
Proof.
  destruct (runOnOperation (loadThenStoreBase LoadOp)) as [m'|e] eqn:Hrun;
    [|vm_compute in Hrun; discriminate].
  exact (second_run_stops_at_entry _ m' Hrun).
Defined.

(** C4 as stated fails: on [valueThenBase] the first run completes (it finds
    nothing to specialise) and the second run yields no module at all. *)
Lemma second_run_is_not_a_no_op :
  isDone (runOnOperation valueThenBase) = true
  /\ runOnOperation valueThenBase ≫= runOnOperation
     = Stop (AssertionFailed "there are more than 2 functions").
Proof. split; vm_compute; reflexivity. Qed.

Lemma classifyUse_pair m res u a i : classifyUse m res u = Done (a, i) -> a = negb i.
Proof.
  unfold classifyUse. intros H. step H.
  destruct (op_name a0); try (by injection H as <- <-);
    step H; injection H as <- <-;
    by rewrite bool_decide_not, negb_involutive.
Qed.

Lemma scanUses_spec m res uses keepAsIs :
  Forall (fun u => isDone (classifyUse m res u) = true) uses ->
  scanUses m res uses (negb keepAsIs) keepAsIs
  = if addressUsesFirst m res keepAsIs uses then
      Done (negb (keepAsIs || existsb (integerExpected m res) uses),
            keepAsIs || existsb (integerExpected m res) uses)
    else Stop (AssertionFailed
                 "(replaceWithMem && !expectInt) || (!replaceWithMem && expectInt)").
Proof.
  intros Hall. revert keepAsIs.
  induction Hall as [|u uses Hu Hall IH]; intros keepAsIs.
  - simpl. by rewrite orb_false_r.
  - destruct (classifyUse m res u) as [[a i]|e] eqn:Hc; [|discriminate].
    assert (integerExpected m res u = i) as Hi.
    { unfold integerExpected. by rewrite Hc. }
    pose proof (classifyUse_pair _ _ _ _ _ Hc) as ->.
    cbn [scanUses addressUsesFirst existsb]. rewrite Hc, Hi.
    cbn [mbind Result_bind].
    destruct i, keepAsIs; simpl; try done;
      first [exact (IH true) | exact (IH false)].
Qed.

Lemma scanUses_start m res uses :
  Forall (fun u => isDone (classifyUse m res u) = true) uses ->
  scanUses m res uses true false
  = if addressUsesFirst m res false uses then
      Done (negb (existsb (integerExpected m res) uses),
            existsb (integerExpected m res) uses)
    else Stop (AssertionFailed
                 "(replaceWithMem && !expectInt) || (!replaceWithMem && expectInt)").
Proof. intros H. exact (scanUses_spec m res uses false H). Qed.

Lemma existsb_Exists {A} (f : A -> bool) l :
  Exists (fun x => f x = true) l -> existsb f l = true.
Proof. induction 1 as [x l Hx|x l _ IH]; simpl; [by rewrite Hx|]. by rewrite IH, orb_true_r. Qed.

(** C1 (amended): a generic load of any width with a use the pass reads as
    integer-expected is never specialised. [visit] (the pass's dispatch on
    one operation) builds nothing and rewires nothing: when no
    address-expected use follows an integer-expected one in the use list it
    returns with the module as it was, and otherwise it stops at the loop's
    second assertion. *)
Theorem load_with_integer_use_not_specialised (op : Operation) (m : ModuleOp) :
  isGenericLoad (op_name op) = true ->
  Forall (fun u => isDone (classifyUse m (OpResult (op_id op)) u) = true)
    (getUses m (OpResult (op_id op))) ->
  Exists (fun u => integerExpected m (OpResult (op_id op)) u = true)
    (getUses m (OpResult (op_id op))) ->
  replaceLoadWithLoadAddress op m
  = (if addressUsesFirst m (OpResult (op_id op)) false (getUses m (OpResult (op_id op)))
     then Done (failure, m)
     else Stop (AssertionFailed
                  "(replaceWithMem && !expectInt) || (!replaceWithMem && expectInt)"))
  /\ visit op m
     = (if addressUsesFirst m (OpResult (op_id op)) false (getUses m (OpResult (op_id op)))
        then Done m
        else Stop (AssertionFailed
                     "(replaceWithMem && !expectInt) || (!replaceWithMem && expectInt)")).
Proof.
  intros Hload Hall Hex.
  assert (replaceLoadWithLoadAddress op m
          = (if addressUsesFirst m (OpResult (op_id op)) false
                  (getUses m (OpResult (op_id op)))
             then Done (failure, m)
             else Stop (AssertionFailed
                  "(replaceWithMem && !expectInt) || (!replaceWithMem && expectInt)")))
    as Hsite.
  { unfold replaceLoadWithLoadAddress.
    assert (use_empty m (OpResult (op_id op)) = false) as ->.
    { unfold use_empty. by destruct Hex. }
    cbn [negb assert mbind Result_bind].
    rewrite (scanUses_start m _ _ Hall).
    destruct (addressUsesFirst _ _ _ _); [|done].
    cbn [mbind Result_bind]. by rewrite (existsb_Exists _ _ Hex). }
  split; [done|].
  unfold visit.
  assert ((match op_name op with
           | LoadOp | Load32Op | Load16Op | Load8Op => replaceLoadWithLoadAddress op m
           | _ => Done (failure, m)
           end) = replaceLoadWithLoadAddress op m) as ->.
  { by destruct (op_name op). }
  rewrite Hsite. by destruct (addressUsesFirst _ _ _ _).
Qed.

Lemma load_with_integer_use_not_specialised_witness :
  visit (mkOp 10 LoadOp [arg 1; arg 2]) valueThenBase = Done valueThenBase
  /\ visit (mkOp 10 LoadOp [arg 1; arg 2]) baseThenValue
     = Stop (AssertionFailed
               "(replaceWithMem && !expectInt) || (!replaceWithMem && expectInt)").
Proof.
  split.
  - refine (proj2 (load_with_integer_use_not_specialised
                     (mkOp 10 LoadOp [arg 1; arg 2]) valueThenBase _ _ _)).
    + reflexivity.
    + vm_compute. repeat constructor.
    + vm_compute. apply Exists_cons_tl, Exists_cons_hd. reflexivity.
  - refine (proj2 (load_with_integer_use_not_specialised
                     (mkOp 10 LoadOp [arg 1; arg 2]) baseThenValue _ _ _)).
    + reflexivity.
    + vm_compute. repeat constructor.
    + vm_compute. apply Exists_cons_hd. reflexivity.
Defined.

(** C1 as stated fails. In [storeToItself] the load's result is the value
    operand (operand 2) of the store as well as its base; the pass reads both
    uses as address-expected and specialises the load. In [baseThenValue] the
    load has a base use and a value use in two stores; the pass stops at an
    assertion. *)
Lemma value_use_does_not_keep_load :
  {| use_owner := 11; use_index := 2 |} ∈ getUses storeToItself (OpResult 10)
  /\ (fun m' => (map op_name (blockOps m' 1),
                 map op_operands (blockOps m' 1),
                 getUses m' (OpResult 10)))
       <$> runOnOperation storeToItself
     = Done ([LoadOp; LoadAddrOp; StoreOp],
             [[arg 1; arg 2]; [arg 1; arg 2]; [OpResult 12; arg 2; OpResult 12]],
             [])
  /\ runOnOperation baseThenValue
     = Stop (AssertionFailed
               "(replaceWithMem && !expectInt) || (!replaceWithMem && expectInt)").
Proof.
  split; [|split].
  - vm_compute. apply list_elem_of_here.
  - vm_compute. reflexivity.
  - vm_compute. reflexivity.
Qed.

Lemma scan_all_address m res uses :
  Forall (fun u => classifyUse m res u = Done (true, false)) uses ->
  scanUses m res uses true false = Done (true, false).
Proof.
  induction 1 as [|u uses Hu _ IH]; [done|].
  simpl. rewrite Hu. simpl. exact IH.
Qed.

Lemma rewire_other us v o :
  (forall u, u ∈ us -> use_owner u <> op_id o) -> rewire us v o = o.
Proof.
  unfold rewire. induction us as [|u us IH]; intros Hus; simpl; [done|].
  unfold setOperand at 2. rewrite decide_False.
  - apply IH. intros u' Hu'. apply Hus. by right.
  - intros Heq. eapply Hus; [by left|done].
Qed.

Lemma fresh_value_unused m :
  wellFormed m -> getUses m (OpResult (mod_fresh m)) = [].
Proof.
  intros (Hids & Hops & Huses). unfold getUses.
  destruct (mod_uses m !! OpResult (mod_fresh m)) as [us|] eqn:Hl; [|done].
  destruct us as [|u us]; [done|]. exfalso.
  apply Huses in Hl. apply Forall_cons in Hl as [Hu _].
  unfold usePointsTo in Hu.
  destruct (lookupOp m (use_owner u)) as [o|] eqn:Ho; [|done]. simpl in Hu.
  apply lookupOp_Some in Ho as [Hin _].
  rewrite Forall_forall in Hops. specialize (Hops o Hin).
  rewrite Forall_forall in Hops.
  assert (OpResult (mod_fresh m) ∈ op_operands o) as Hv
    by (eapply list_elem_of_lookup_2; eauto).
  specialize (Hops _ Hv). simpl in Hops. lia.
Qed.

(** C3 (amended): an 8-byte generic load ([LoadOp]) of a well-formed module
    whose uses are all address-expected is specialised: an address-producing
    load with the same two operands is created right behind it, every use of
    the old result is rewired to the new one (the old use list, reversed,
    becomes the use list of the new value and every operand it names holds
    the new value), and the old load stays in its block without uses. A
    generic load of another width in that situation stops at the assertion
    [isa<ebpf::LoadOp>(op)]. *)
Theorem address_load_replaced
    (op : Operation) (m : ModuleOp) (b : nat) (l r : Value) :
  wellFormed m ->
  op ∈ blockOps m b ->
  isGenericLoad (op_name op) = true ->
  op_operands op !! 0%nat = Some l ->
  op_operands op !! 1%nat = Some r ->
  getUses m (OpResult (op_id op)) <> [] ->
  Forall (fun u => classifyUse m (OpResult (op_id op)) u = Done (true, false))
    (getUses m (OpResult (op_id op))) ->
  (op_name op <> LoadOp ->
     replaceLoadWithLoadAddress op m = Stop (AssertionFailed "isa<ebpf::LoadOp>(op)"))
  /\ (op_name op = LoadOp ->
      let old := OpResult (op_id op) in
      let new := OpResult (mod_fresh m) in
      let m' := replaceAllUsesWith old new
                  (createAfter (op_id op) LoadAddrOp [l; r] m).2 in
      replaceLoadWithLoadAddress op m = Done (success, m')
      /\ getUses m' old = []
      /\ getUses m' new = rev (getUses m old)
      /\ (forall u, u ∈ getUses m old ->
            exists o, lookupOp m' (use_owner u) = Some o
                      /\ op_operands o !! use_index u = Some new)
      /\ map (fun o => (op_id o, op_name o)) (blockOps m' b)
         = map (fun o => (op_id o, op_name o))
             (insertAfter (op_id op) (created LoadAddrOp [l; r] m) (blockOps m b))
      /\ nextAfter (op_id op) (blockOps m' b)
         = Some (created LoadAddrOp [l; r] m)).
Proof.
  intros Hwf Hin Hload Hl Hr Hne Hall.
  pose proof Hwf as (Hids & Hops & Huses).
  assert (op ∈ allOps m) as Hop by (by eapply blockOps_allOps).
  assert (op_id op < mod_fresh m)%nat as Hfresh.
  { rewrite Forall_forall in Hids. by apply Hids. }
  assert (forall v, v ∈ op_operands op ->
            v <> OpResult (op_id op) /\ v <> OpResult (mod_fresh m)) as Hoperand.
  { intros v Hv. rewrite Forall_forall in Hops. specialize (Hops op Hop).
    rewrite Forall_forall in Hops. specialize (Hops v Hv).
    destruct v as [k| |]; simpl in Hops; split; try done; intros [= ->]; lia. }
  assert (l ∈ op_operands op) as Hlin by (by eapply list_elem_of_lookup_2).
  assert (r ∈ op_operands op) as Hrin by (by eapply list_elem_of_lookup_2).
  destruct (Hoperand l Hlin) as [Hl1 Hl2]. destruct (Hoperand r Hrin) as [Hr1 Hr2].
  set (old := OpResult (op_id op)) in *.
  set (new := OpResult (mod_fresh m)) in *.
  set (m' := replaceAllUsesWith old new (createAfter (op_id op) LoadAddrOp [l; r] m).2).
  assert (replaceLoadWithLoadAddress op m
          = (_ ← assert (bool_decide (op_name op = LoadOp)) "isa<ebpf::LoadOp>(op)";
             if bool_decide (op_name op = LoadOp) then
               _ ← assert (use_empty m' old) "opResult.use_empty()";
               Done (success, m')
             else Done (success, m))) as Hrun.
  { unfold replaceLoadWithLoadAddress.
    fold old.
    assert (use_empty m old = false) as ->.
    { unfold use_empty. by destruct (getUses m old). }
    cbn [negb assert mbind Result_bind]. fold old. rewrite (scan_all_address _ _ _ Hall).
    cbn [mbind Result_bind]. unfold lhs, rhs. rewrite Hl, Hr. done. }
  split.
  - intros Hname. rewrite Hrun. by rewrite bool_decide_eq_false_2.
  - intros Hname. cbv zeta. fold old new m'.
    assert (getUses (createAfter (op_id op) LoadAddrOp [l; r] m).2 old = getUses m old)
      as Hold.
    { unfold getUses, createAfter. simpl. do 2 rewrite lookup_insert_ne by done. done. }
    assert (getUses (createAfter (op_id op) LoadAddrOp [l; r] m).2 new = []) as Hnew.
    { rewrite <- (fresh_value_unused m Hwf).
      unfold getUses, createAfter. simpl. do 2 rewrite lookup_insert_ne by done. done. }
    assert (old <> new) as Hon by (unfold old, new; intros [= ?]; lia).
    assert (forall u, u ∈ getUses m old -> usePointsTo m old u) as Hpoints.
    { intros u Hu. unfold getUses in Hu.
      destruct (mod_uses m !! old) as [us|] eqn:Hus; [|by apply elem_of_nil in Hu].
      apply Huses in Hus. rewrite Forall_forall in Hus. by apply Hus. }
    assert (forall u, u ∈ getUses m old -> use_owner u <> mod_fresh m) as Howners.
    { intros u Hu. specialize (Hpoints u Hu). unfold usePointsTo in Hpoints.
      destruct (lookupOp m (use_owner u)) as [o|] eqn:Ho; [|done].
      apply lookupOp_Some in Ho as [Hoin Hoid].
      rewrite Forall_forall in Hids. specialize (Hids o Hoin). lia. }
    assert (getUses m' old = []) as Hempty
      by (by apply getUses_replaceAllUsesWith_old).
    split; [|split; [|split; [|split; [|split]]]].
    + rewrite Hrun. rewrite bool_decide_eq_true_2 by done.
      cbn [assert mbind Result_bind]. unfold use_empty. by rewrite Hempty.
    + done.
    + unfold m'. rewrite getUses_replaceAllUsesWith_new, Hold, Hnew. by rewrite app_nil_r.
    + intros u Hu.
      pose proof (Hpoints u Hu) as Hpt. pose proof (Howners u Hu) as Hofresh.
      unfold usePointsTo in Hpt.
      destruct (lookupOp m (use_owner u)) as [o|] eqn:Ho; [|done]. simpl in Hpt.
      pose proof (lookupOp_Some _ _ _ Ho) as [Hoin Hoid].
      exists (rewire (getUses m old) new o). split.
      * unfold m'. rewrite lookupOp_replaceAllUsesWith, Hold.
        rewrite lookupOp_createAfter by done. by rewrite Ho.
      * apply rewire_use; [done|done|]. by eapply lookup_lt_Some.
    + unfold m'. rewrite blockOps_replaceAllUsesWith, Hold.
      rewrite blockOps_createAfter, map_map.
      apply map_ext. intros o. by rewrite rewire_id, rewire_name.
    + unfold m'. rewrite blockOps_replaceAllUsesWith, Hold.
      rewrite blockOps_createAfter.
      rewrite nextAfter_map by apply rewire_id.
      rewrite nextAfter_insertAfter.
      2:{ apply list_elem_of_fmap. by exists op. }
      simpl. f_equal. apply rewire_other.
      intros u Hu. simpl. by apply Howners.
Qed.

Lemma loadThenStoreBase_wellFormed :
  wellFormed (loadThenStoreBase LoadOp) /\ wellFormed (loadThenStoreBase Load32Op).
Proof.
  split; apply (bool_decide_unpack _ (dec := wellFormed_dec _)); vm_compute; exact I.
Qed.

Lemma address_load_replaced_witness :
  replaceLoadWithLoadAddress (mkOp 10 Load32Op [arg 1; arg 2]) (loadThenStoreBase Load32Op)
  = Stop (AssertionFailed "isa<ebpf::LoadOp>(op)")
  /\ replaceLoadWithLoadAddress (mkOp 10 LoadOp [arg 1; arg 2]) (loadThenStoreBase LoadOp)
     = Done (success,
             replaceAllUsesWith (OpResult 10) (OpResult 12)
               (createAfter 10 LoadAddrOp [arg 1; arg 2] (loadThenStoreBase LoadOp)).2).
Proof.
  split.
  - refine (proj1 (address_load_replaced (mkOp 10 Load32Op [arg 1; arg 2])
                     (loadThenStoreBase Load32Op) 1 (arg 1) (arg 2)
                     (proj2 loadThenStoreBase_wellFormed) _ _ _ _ _ _) _).
    + vm_compute. apply list_elem_of_here.
    + reflexivity.
    + reflexivity.
    + reflexivity.
    + vm_compute. discriminate.
    + vm_compute. repeat constructor.
    + discriminate.
  - refine (proj1 (proj2 (address_load_replaced (mkOp 10 LoadOp [arg 1; arg 2])
                     (loadThenStoreBase LoadOp) 1 (arg 1) (arg 2)
                     (proj1 loadThenStoreBase_wellFormed) _ _ _ _ _ _) _)).
    + vm_compute. apply list_elem_of_here.
    + reflexivity.
    + reflexivity.
    + reflexivity.
    + vm_compute. discriminate.
    + vm_compute. repeat constructor.
    + reflexivity.
Defined.

(** C3 as stated fails: a 4-byte load used only as the base of a store makes
    the pass stop at an assertion, and the 8-byte load that is specialised is
    not discarded; it stays in the block in front of its replacement. *)
Lemma narrow_load_not_replaced_old_load_kept :
  runOnOperation (loadThenStoreBase Load32Op)
  = Stop (AssertionFailed "isa<ebpf::LoadOp>(op)")
  /\ (fun m' => map (fun o => (op_id o, op_name o)) (blockOps m' 1))
       <$> runOnOperation (loadThenStoreBase LoadOp)
     = Done [(10, LoadOp); (12, LoadAddrOp); (11, StoreOp)]%nat.
Proof. split; vm_compute; reflexivity. Qed.

(** *** Fuel *)

Lemma replaceLoadWithLoadAddress_cases op m s m' :
  replaceLoadWithLoadAddress op m = Done (s, m') ->
  (s = failure /\ m' = m)
  \/ (s = success /\ op_name op = LoadOp
      /\ exists l r,
           m' = replaceAllUsesWith (OpResult (op_id op)) (OpResult (mod_fresh m))
                  (createAfter (op_id op) LoadAddrOp [l; r] m).2).
Proof.
  unfold replaceLoadWithLoadAddress. intros H.
  step H as ? Hused. step H as [replaceWithMem keepAsIs] Hscan.
  destruct keepAsIs; [left; by injection H as <- <-|].
  step H as ? Hisa. apply assert_Done in Hisa. rewrite Hisa in H.
  apply bool_decide_eq_true in Hisa.
  step H as l Hl. step H as r Hr. step H as ? Hempty.
  injection H as <- <-. right. split; [done|]. split; [done|]. by exists l, r.
Qed.

Lemma resolve_visit_step b op m m' :
  blockOk b m -> op ∈ blockOps m b -> visit op m = Done m' ->
  blockOk b m'
  /\ (totalWeight loadWeight (behind (op_id op) (blockOps m' b))
      < loadWeight op + totalWeight loadWeight (behind (op_id op) (blockOps m b)))%nat.
Proof.
  intros [Hnd Hfresh] Hin H. unfold visit in H.
  step H as [s m1] Hsite. injection H as <-.
  assert ((s = failure /\ m1 = m)
          \/ replaceLoadWithLoadAddress op m = Done (s, m1)) as Hcases.
  { destruct (op_name op); try (left; by injection Hsite as <- <-); by right. }
  assert ((s = failure /\ m1 = m)
          \/ (s = success /\ op_name op = LoadOp
              /\ exists l r,
                   m1 = replaceAllUsesWith (OpResult (op_id op)) (OpResult (mod_fresh m))
                          (createAfter (op_id op) LoadAddrOp [l; r] m).2)) as Hcases'.
  { destruct Hcases as [?|Hrun]; [by left|].
    by apply replaceLoadWithLoadAddress_cases. }
  clear Hcases Hsite.
  destruct Hcases' as [[_ ->]|(_ & Hname & l & r & ->)].
  - split; [done|]. unfold loadWeight. destruct (op_name _); lia.
  - assert (op_id op ∈ map op_id (blockOps m b)) as Hid
      by (apply list_elem_of_fmap; by exists op).
    set (m1 := (createAfter (op_id op) LoadAddrOp [l; r] m).2).
    set (us := getUses m1 (OpResult (op_id op))).
    set (new := OpResult (mod_fresh m)).
    assert (blockOps (replaceAllUsesWith (OpResult (op_id op)) new m1) b
            = map (rewire us new)
                (insertAfter (op_id op) (created LoadAddrOp [l; r] m) (blockOps m b)))
      as Hops.
    { rewrite blockOps_replaceAllUsesWith. unfold m1. by rewrite blockOps_createAfter. }
    assert (map op_id (blockOps (replaceAllUsesWith (OpResult (op_id op)) new m1) b)
            ≡ₚ mod_fresh m :: map op_id (blockOps m b)) as Hids.
    { rewrite Hops, map_map.
      erewrite map_ext; [|intros o; apply rewire_id].
      by rewrite ids_insertAfter. }
    assert (forall k, k ∈ map op_id (blockOps m b) -> (k < mod_fresh m)%nat) as Hlt.
    { intros k (o & -> & Ho)%list_elem_of_fmap.
      rewrite Forall_forall in Hfresh. by apply Hfresh. }
    split; [split|].
    + rewrite Hids. apply NoDup_cons. split; [|done].
      intros Hk%Hlt. lia.
    + rewrite Forall_forall. intros o Ho.
      assert (op_id o ∈ map op_id
                (blockOps (replaceAllUsesWith (OpResult (op_id op)) new m1) b)) as Hin'
        by (apply list_elem_of_fmap; by exists o).
      rewrite Hids in Hin'. rewrite replaceAllUsesWith_eq.
      cbn [mod_fresh]. unfold m1, createAfter. cbn [snd mod_fresh].
      apply elem_of_cons in Hin' as [->|Hk%Hlt]; lia.
    + rewrite Hops. rewrite behind_map by apply rewire_id.
      rewrite totalWeight_map
        by (intros o; unfold loadWeight; by rewrite rewire_name).
      rewrite behind_insertAfter by done.
      assert (loadWeight op = 2%nat) as -> by (unfold loadWeight; by rewrite Hname).
      cbn [totalWeight foldr].
      change (loadWeight (created LoadAddrOp [l; r] m)) with 1%nat.
      fold (totalWeight loadWeight (behind (op_id op) (blockOps m b))). lia.
Qed.

(** The fuel [walkBlock] gives the walk of the resolution pass is enough:
    with more fuel the walk does the same. *)
Lemma resolve_walk_fuel b m extra :
  blockOk b m ->
  walkFrom visit (2 * length (blockOps m b) + extra) b (head (blockOps m b)) m
  = walkBlock visit b m.
Proof.
  intros Hok. unfold walkBlock.
  apply (walkFrom_enough visit b (blockOk b) loadWeight).
  - intros o. unfold loadWeight. destruct (op_name _); lia.
  - by intros m0 [? _].
  - apply resolve_visit_step.
  - done.
  - intros op Hop. destruct (blockOps m b); [done|]. injection Hop as ->. by left.
  - rewrite pending_head. apply totalWeight_bound.
    intros o. unfold loadWeight. destruct (op_name _); lia.
Qed.

Lemma moduleOk_blockOk b m : moduleOk m -> blockOk b m.
Proof.
  intros [[Hops _] Hfresh]. split; [by apply NoDup_blockOps|].
  rewrite Forall_forall in Hfresh |- *. intros o Ho. apply Hfresh.
  by eapply blockOps_allOps.
Qed.

End ResolveMemoryProofs.

(** ** The array-write liveness pass *)

Module BtorLivenessProofs.
Import BtorLiveness LivenessSamples.

(** *** What the liveness test keeps

    The test changes the module only by [moveBefore], applied to a read that
    is not in front of the select. Whatever relation between the module
    before and after is kept by one such move (under a guard [G] the move
    preserves) is kept by the whole test. *)
Section Kept.

Variable G : ModuleOp -> Prop.
Variable R : ModuleOp -> ModuleOp -> Prop.
Hypothesis R_refl : forall m, R m m.
Hypothesis R_trans : forall m1 m2 m3, R m1 m2 -> R m2 m3 -> R m1 m3.
Hypothesis R_move : forall a e m m' cur,
  G m -> a <> e -> isBeforeInBlock m a e = Done false ->
  lookupOp m a = Some cur -> op_name cur = ReadOp ->
  moveBefore a e m = Done m' -> R m' m /\ G m'.

Lemma moveReadOpsBeforeUsers_kept users opPtr m s m' :
  G m -> moveReadOpsBeforeUsers users opPtr m = Done (s, m') -> R m' m.
Proof.
  revert m. induction users as [|u users IH]; intros m Hg H.
  - injection H as <- <-. apply R_refl.
  - simpl in H. step H as notBefore Hnot.
    destruct notBefore; [|by apply IH].
    destruct (bool_decide (use_owner u ≠ opPtr)) eqn:Hne; [|discriminate].
    apply bool_decide_eq_true in Hne.
    step Hnot as before Hbefore. injection Hnot as Hb.
    apply negb_true_iff in Hb. subst before.
    step H as cur Hcur. apply fromOption_Done in Hcur.
    unfold opsMatchOp in H.
    destruct (bool_decide (op_name cur = ReadOp)) eqn:Hread; simpl in H.
    + apply bool_decide_eq_true in Hread.
      step H as m1 Hmove. step H as before' Hbefore'. step H as ? Hassert.
      destruct (R_move _ _ _ _ _ Hg Hne Hbefore Hcur Hread Hmove) as [Hre Hg1].
      eapply R_trans; [|exact Hre]. by apply IH.
    + injection H as <- <-. apply R_refl.
Qed.

Lemma usedInITEPattern_kept iteOp m s m' :
  G m -> usedInITEPattern iteOp m = Done (s, m') -> R m' m.
Proof.
  unfold usedInITEPattern, moveReadOpsBefore. intros Hg H.
  step H as ? H1. step H as use Huse. step H as useOp HuseOp. step H as ? H2.
  step H as trueValue Ht. step H as falseValue Hf. step H as trueIsWrite Htw.
  destruct trueIsWrite.
  - step H as ? H3. step H as def Hdef. step H as base Hbase. step H as ? H4.
    by eapply moveReadOpsBeforeUsers_kept.
  - step H as falseIsWrite Hfw. step H as ? H3. step H as ? H4.
    step H as def Hdef. step H as base Hbase. step H as ? H5.
    by eapply moveReadOpsBeforeUsers_kept.
Qed.

Lemma resultIsLiveAfter_kept op m s m' :
  G m -> resultIsLiveAfter op m = Done (s, m') -> R m' m.
Proof.
  unfold resultIsLiveAfter. intros Hg H.
  step H as blockPtr Hblock. step H as ? Hinside.
  destruct (negb (hasOneUse m (OpResult (op_id op)))).
  - injection H as <- <-. apply R_refl.
  - step H as use Huse. step H as useOp HuseOp.
    destruct (op_name useOp); try (injection H as <- <-; apply R_refl).
    by eapply usedInITEPattern_kept.
Qed.

End Kept.

Lemma resultIsLiveAfter_reordered op m s m' :
  uniqueIds m -> resultIsLiveAfter op m = Done (s, m') -> reordered m' m.
Proof.
  apply (resultIsLiveAfter_kept uniqueIds reordered reordered_refl reordered_trans).
  intros a e m0 m0' cur Hu Hne Hbefore _ _ Hmove.
  apply isBeforeInBlock_Done in Hbefore as (blk & Ha & He).
  assert (reordered m0' m0) by (by eapply moveBefore_reordered).
  split; [done|]. by eapply reordered_uniqueIds.
Qed.

Lemma resultIsLiveAfter_shape op m s m' :
  resultIsLiveAfter op m = Done (s, m') -> moduleShape m' = moduleShape m.
Proof.
  apply (resultIsLiveAfter_kept (fun _ => True)
           (fun m' m => moduleShape m' = moduleShape m)); [done|congruence| |done].
  intros a e m0 m0' cur _ _ _ _ _ Hmove. split; [|done].
  unfold moveBefore in Hmove. step Hmove as opA HopA. injection Hmove as <-.
  apply moduleShape_mapBlocks.
Qed.

(** C8 (amended): every rewrite attempt is all or nothing as far as building,
    replacing and rewiring go. The address pass, when it declines a load,
    returns the module as it was, and otherwise has created the
    address-producing load and rewired every use. The liveness pass, on a
    module with unique identities, either performs the whole replacement
    (create the in-place write, rewire every use) or creates nothing and
    rewires nothing: the use lists, the functions, the blocks and the
    operations of every block are those of the input. In both outcomes the
    module the decision leaves may differ from the input in the order of the
    operations inside a block, because the reads that the select check moved
    in front of the select stay there. *)
Theorem rewrite_is_all_or_nothing (op : Operation) (m : ModuleOp)
    (s : LogicalResult) (m' : ModuleOp) :
  (ResolveMemory.replaceLoadWithLoadAddress op m = Done (s, m') ->
     (s = failure /\ m' = m)
     \/ (s = success
         /\ exists l r,
              m' = replaceAllUsesWith (OpResult (op_id op)) (OpResult (mod_fresh m))
                     (createAfter (op_id op) LoadAddrOp [l; r] m).2))
  /\ (uniqueIds m ->
      replaceWithWriteInPlace op m = Done (s, m') ->
      exists m1,
        reordered m1 m
        /\ ((s = failure /\ m' = m1)
            \/ (s = success
                /\ exists value base index,
                     m' = replaceAllUsesWith (OpResult (op_id op)) (OpResult (mod_fresh m1))
                            (createAfter (op_id op) WriteInPlaceOp [value; base; index] m1).2))).
Proof.
  split.
  - unfold ResolveMemory.replaceLoadWithLoadAddress. intros H.
    step H as ? Hused. step H as [replaceWithMem keepAsIs] Hscan.
    destruct keepAsIs; [left; by injection H as <- <-|].
    step H as ? Hisa. apply assert_Done in Hisa. rewrite Hisa in H.
    step H as l Hl. step H as r Hr. step H as ? Hempty.
    injection H as <- <-. right. split; [done|]. by exists l, r.
  - unfold replaceWithWriteInPlace. intros Hu H.
    step H as [status m1] Hlive.
    exists m1. split; [by eapply resultIsLiveAfter_reordered|].
    destruct status; simpl in H.
    + step H as value Hv. step H as base Hb. step H as index Hi. step H as ? Hempty.
      injection H as <- <-. right. split; [done|]. by exists value, base, index.
    + injection H as <- <-. by left.
Qed.

Lemma selectThenOtherThenRead_unique : uniqueIds selectThenOtherThenRead.
Proof. apply (bool_decide_unpack _ (dec := uniqueIds_dec _)). vm_compute. exact I. Qed.

Lemma rewrite_is_all_or_nothing_witness :
  exists m1,
    reordered m1 selectThenOtherThenRead
    /\ replaceWithWriteInPlace (mkOp 10 WriteOp [arg 1; A; arg 2]) selectThenOtherThenRead
       = Done (failure, m1).
Proof.
  destruct (replaceWithWriteInPlace (mkOp 10 WriteOp [arg 1; A; arg 2])
              selectThenOtherThenRead) as [[s m']|e] eqn:Hrun; [|vm_compute in Hrun; discriminate].
  destruct (proj2 (rewrite_is_all_or_nothing (mkOp 10 WriteOp [arg 1; A; arg 2])
                     selectThenOtherThenRead s m')
              selectThenOtherThenRead_unique Hrun) as (m1 & Hre & [[-> ->]|[-> _]]).
  - by exists m1.
  - vm_compute in Hrun. discriminate.
Defined.

(** C8 as stated fails: on [selectThenOtherThenRead] the select check fails at
    the operation that is no read, after the read behind it was moved in
    front of the select; the write is declined and the block is left in the
    new order. *)
Lemma declined_write_leaves_read_moved :
  map op_id (blockOps selectThenOtherThenRead 1) = [10; 11; 12; 13; 14]%nat
  /\ (fun '(s, m') => (s, map op_id (blockOps m' 1)))
       <$> replaceWithWriteInPlace (mkOp 10 WriteOp [arg 1; A; arg 2]) selectThenOtherThenRead
     = Done (failure, [10; 13; 11; 12; 14]%nat).
Proof. split; vm_compute; reflexivity. Qed.

Lemma replaceWithWriteInPlace_shape op m s m' :
  replaceWithWriteInPlace op m = Done (s, m') -> moduleShape m' = moduleShape m.
Proof.
  unfold replaceWithWriteInPlace. intros H. step H as [status m1] Hlive.
  apply resultIsLiveAfter_shape in Hlive. rewrite <- Hlive.
  destruct status; cbn [succeeded] in H.
  - step H as value Hv. step H as base Hb. step H as index Hi.
    destruct (createAfter (op_id op) WriteInPlaceOp [value; base; index] m1)
      as [w m2] eqn:Hc.
    step H as ? Hempty. injection H as <- <-.
    rewrite moduleShape_replaceAllUsesWith.
    change m2 with (w, m2).2. rewrite <- Hc. apply moduleShape_createAfter.
  - by injection H as <- <-.
Qed.

Lemma liveness_visit_shape op m m' : visit op m = Done m' -> moduleShape m' = moduleShape m.
Proof.
  unfold visit. intros H. step H as [status m1] Hsite. step H as ? Hok.
  injection H as <-.
  destruct (op_name op); try (by injection Hsite as <- <-);
    by eapply replaceWithWriteInPlace_shape.
Qed.

(** C9 (amended): the passes and the blocks. The liveness pass keeps every
    function, every block and every block's parameter count. The
    address/scalar pass removes the first function of the module
    ([xdp_entry]) with its blocks, and keeps the remaining function with
    every block and every block's parameter count. *)
Theorem passes_keep_block_structure (m m' : ModuleOp) :
  (runOnOperation m = Done m' -> moduleShape m' = moduleShape m)
  /\ (ResolveMemory.runOnOperation m = Done m' -> moduleShape m' = tail (moduleShape m)).
Proof.
  split.
  - unfold runOnOperation. intros H. step H as funcOp Hfront.
    destruct funcOp as [f|n]; [|discriminate].
    step H as ? Htwo. step H as nextBlock Hlast. unfold walkBlock in H.
    eapply (walkFrom_invariant (fun x => moduleShape x = moduleShape m));
      [|reflexivity|exact H].
    intros op y y' Hy Hv. rewrite <- Hy. by eapply liveness_visit_shape.
  - by intros [_ ?]%ResolveMemoryProofs.runOnOperation_shape.
Qed.

Lemma passes_keep_block_structure_witness :
  moduleShape <$> runOnOperation selectThenRead = Done (moduleShape selectThenRead)
  /\ moduleShape <$> ResolveMemory.runOnOperation (ResolveSamples.loadThenStoreBase LoadOp)
     = Done (tail (moduleShape (ResolveSamples.loadThenStoreBase LoadOp))).
Proof.
  split.
  - destruct (runOnOperation selectThenRead) as [m'|e] eqn:Hrun;
      [|vm_compute in Hrun; discriminate].
    simpl. f_equal.
    exact (proj1 (passes_keep_block_structure selectThenRead m') Hrun).
  - destruct (ResolveMemory.runOnOperation (ResolveSamples.loadThenStoreBase LoadOp))
      as [m'|e] eqn:Hrun; [|vm_compute in Hrun; discriminate].
    simpl. f_equal.
    exact (proj2 (passes_keep_block_structure _ m') Hrun).
Defined.

(** C9 as stated fails: the address/scalar pass destroys a function and its
    block. The module goes from two functions with one block each to one
    function with one block. *)
Lemma resolution_removes_a_function :
  (length (mod_body (ResolveSamples.loadThenStoreBase LoadOp)),
   length (allBlocks (ResolveSamples.loadThenStoreBase LoadOp))) = (2, 2)%nat
  /\ (fun m' => (length (mod_body m'), length (allBlocks m')))
       <$> ResolveMemory.runOnOperation (ResolveSamples.loadThenStoreBase LoadOp)
     = Done (1, 1)%nat.
Proof. split; vm_compute; reflexivity. Qed.

(** C2 (amended): a declined write and the pass. For a write whose result
    does not have exactly one use, or whose single user is neither a branch
    nor a select, [replaceWithWriteInPlace] returns [failure] to its caller
    with the module as it was. The loop of [runOnOperation] then asserts
    that the status succeeded: whenever [replaceWithWriteInPlace] returns
    [failure] for a write, the visit of that write, and with it the walk
    over the block, stops at the assertion, and the operations behind it are
    not visited. *)
Theorem declined_write_stops_the_pass (op : Operation) (m : ModuleOp) :
  op_name op = WriteOp ->
  (forall blk,
     getBlock m (op_id op) = Some blk ->
     isUsedOutsideOfBlock m (OpResult (op_id op)) blk = false ->
     (hasOneUse m (OpResult (op_id op)) = false ->
        replaceWithWriteInPlace op m = Done (failure, m))
     /\ (forall u useOp,
           getUses m (OpResult (op_id op)) = [u] ->
           lookupOp m (use_owner u) = Some useOp ->
           op_name useOp <> BranchOp -> op_name useOp <> IteOp ->
           replaceWithWriteInPlace op m = Done (failure, m)))
  /\ (forall m1,
        replaceWithWriteInPlace op m = Done (failure, m1) ->
        visit op m = Stop (AssertionFailed "status.succeeded()")
        /\ forall fuel b,
             walkFrom visit (S fuel) b (Some op) m
             = Stop (AssertionFailed "status.succeeded()")).
Proof.
  intros Hname. split.
  - intros blk Hblk Hinside. split.
    + intros Hone. unfold replaceWithWriteInPlace, resultIsLiveAfter.
      rewrite Hblk. cbn [fromOption mbind Result_bind]. rewrite Hinside.
      cbn [negb assert mbind Result_bind]. by rewrite Hone.
    + intros u useOp Huses Howner Hbr Hite.
      unfold replaceWithWriteInPlace, resultIsLiveAfter.
      rewrite Hblk. cbn [fromOption mbind Result_bind]. rewrite Hinside.
      cbn [negb assert mbind Result_bind].
      unfold hasOneUse. rewrite Huses. cbn [negb head fromOption mbind Result_bind].
      rewrite Howner. cbn [fromOption mbind Result_bind].
      by destruct (op_name useOp).
  - intros m1 Hsite.
    assert (visit op m = Stop (AssertionFailed "status.succeeded()")) as Hvisit.
    { unfold visit. rewrite Hname, Hsite. done. }
    split; [done|]. intros fuel b. simpl. by rewrite Hvisit.
Qed.

Lemma declined_write_stops_the_pass_witness :
  replaceWithWriteInPlace (mkOp 10 WriteOp [arg 1; A; arg 2]) writeUsedTwice
  = Done (failure, writeUsedTwice)
  /\ visit (mkOp 10 WriteOp [arg 1; A; arg 2]) writeIntoAdd
     = Stop (AssertionFailed "status.succeeded()").
Proof.
  split.
  - refine (proj1 (proj1 (declined_write_stops_the_pass
                            (mkOp 10 WriteOp [arg 1; A; arg 2]) writeUsedTwice eq_refl)
                     1%nat _ _) _); vm_compute; reflexivity.
  - refine (proj1 (proj2 (declined_write_stops_the_pass
                            (mkOp 10 WriteOp [arg 1; A; arg 2]) writeIntoAdd eq_refl)
                     writeIntoAdd _)).
    vm_compute. reflexivity.
Defined.

(** C2 as stated fails: on [writeIntoAdd] the first write is declined (its
    user is an addition) and the pass stops at its assertion; the second
    write, which the test accepts, is never looked at. *)
Lemma declined_write_is_a_hard_failure :
  runOnOperation writeIntoAdd = Stop (AssertionFailed "status.succeeded()")
  /\ fst <$> replaceWithWriteInPlace (mkOp 10 WriteOp [arg 1; A; arg 2]) writeIntoAdd
     = Done failure
  /\ fst <$> replaceWithWriteInPlace (mkOp 12 WriteOp [arg 1; A; arg 2]) writeIntoAdd
     = Done success.
Proof. repeat split; vm_compute; reflexivity. Qed.

(** *** Fuel *)

Lemma resultIsLiveAfter_behind b op m s m' :
  uniqueIds m -> op ∈ allOps m -> op_name op = WriteOp ->
  resultIsLiveAfter op m = Done (s, m') ->
  reordered m' m
  /\ (totalWeight writeWeight (behind (op_id op) (blockOps m' b))
      <= totalWeight writeWeight (behind (op_id op) (blockOps m b)))%nat.
Proof.
  intros Hu Hin Hname.
  apply (resultIsLiveAfter_kept
           (fun m => uniqueIds m
                     /\ exists opW, opW ∈ allOps m /\ op_id opW = op_id op
                                    /\ op_name opW = WriteOp)
           (fun m' m => reordered m' m
                        /\ (totalWeight writeWeight (behind (op_id op) (blockOps m' b))
                            <= totalWeight writeWeight (behind (op_id op) (blockOps m b)))%nat)).
  - intros m0. split; [apply reordered_refl|done].
  - intros m1 m2 m3 [H12 L12] [H23 L23]. split; [by eapply reordered_trans|lia].
  - intros a e m0 m0' cur [Hu0 (opW & HW & HWid & HWname)] Hne Hbefore Hcur Hread Hmove.
    pose proof (isBeforeInBlock_Done _ _ _ _ Hbefore) as (blk & Hba & Hbe).
    assert (reordered m0' m0) as Hre by (by eapply moveBefore_reordered).
    assert (a <> op_id op) as HaW.
    { intros ->. apply lookupOp_Some in Hcur as [Hcin Hcid].
      assert (cur = opW) as -> by (apply (op_by_id (allOps m0)); [apply Hu0|done|done|congruence]).
      congruence. }
    split; [split; [done|]|].
    { exact (moveBefore_behind writeWeight b (op_id op) a e m0 m0' cur
               Hu0 Hne HaW Hbefore Hcur Hmove). }
    split; [by eapply reordered_uniqueIds|].
    exists opW. split; [|done]. by rewrite (reordered_allOps _ _ Hre).
  - split; [done|]. by exists op.
Qed.

Lemma liveness_visit_step b op m m' :
  moduleOk m -> op ∈ blockOps m b -> visit op m = Done m' ->
  moduleOk m'
  /\ (totalWeight writeWeight (behind (op_id op) (blockOps m' b))
      < writeWeight op + totalWeight writeWeight (behind (op_id op) (blockOps m b)))%nat.
Proof.
  intros [Hu Hfresh] Hin H. unfold visit in H.
  step H as [status m1] Hsite. step H as ? Hok. injection H as <-.
  apply assert_Done in Hok.
  assert ((m1 = m) \/ (op_name op = WriteOp
                       /\ replaceWithWriteInPlace op m = Done (status, m1))) as Hcases.
  { destruct (op_name op) eqn:Hname; try (left; by injection Hsite as <- <-).
    by right. }
  clear Hsite. destruct Hcases as [->|[Hname Hsite]].
  - split; [done|]. unfold writeWeight. destruct (bool_decide _); lia.
  - destruct status; [|discriminate].
    unfold replaceWithWriteInPlace in Hsite.
    step Hsite as [status m0] Hlive.
    destruct status; cbn [succeeded] in Hsite; [|discriminate].
    step Hsite as value Hv. step Hsite as base Hb. step Hsite as index Hi.
    destruct (createAfter (op_id op) WriteInPlaceOp [value; base; index] m0)
      as [writeInPlace m2] eqn:Hc.
    step Hsite as ? Hempty. injection Hsite as <-.
    assert (op ∈ allOps m) as Hall by (by eapply blockOps_allOps).
    destruct (resultIsLiveAfter_behind b op m _ _ Hu Hall Hname Hlive) as [Hre Hle].
    pose proof (reordered_uniqueIds _ _ Hre Hu) as [Hops0 Hblks0].
    assert (m2 = (createAfter (op_id op) WriteInPlaceOp [value; base; index] m0).2
            /\ writeInPlace = OpResult (mod_fresh m0)) as [-> ->].
    { rewrite Hc. split; [done|]. unfold createAfter in Hc. by injection Hc as <- _. }
    clear Hc.
    assert (forall k, k ∈ map op_id (allOps m0) -> (k < mod_fresh m0)%nat) as Hlt.
    { intros k Hk. rewrite (reordered_allOps _ _ Hre) in Hk.
      apply list_elem_of_fmap in Hk as (o & -> & Ho).
      destruct Hre as (_ & -> & _).
      rewrite Forall_forall in Hfresh. by apply Hfresh. }
    assert (op_id op ∈ map op_id (blockOps m0 b)) as Hidb.
    { rewrite (reordered_blockOps _ _ b Hre). apply list_elem_of_fmap. by exists op. }
    assert (op_id op ∈ map op_id (allOps m0)) as Hida.
    { rewrite (reordered_allOps _ _ Hre). apply list_elem_of_fmap. by exists op. }
    set (m2 := (createAfter (op_id op) WriteInPlaceOp [value; base; index] m0).2).
    set (old := OpResult (op_id op)). set (new := OpResult (mod_fresh m0)).
    assert (map op_id (allOps (replaceAllUsesWith old new m2))
            ≡ₚ mod_fresh m0 :: map op_id (allOps m0)) as Hids.
    { rewrite allOps_replaceAllUsesWith, map_map.
      erewrite map_ext; [|intros o; apply rewire_id].
      by apply ids_createAfter. }
    split; [split; [split|]|].
    + rewrite Hids. apply NoDup_cons. split; [|done]. intros Hk%Hlt. lia.
    + rewrite block_ids_replaceAllUsesWith. unfold m2.
      by rewrite block_ids_createAfter.
    + rewrite Forall_forall. intros o Ho.
      assert (op_id o ∈ map op_id (allOps (replaceAllUsesWith old new m2))) as Hin'
        by (apply list_elem_of_fmap; by exists o).
      rewrite Hids in Hin'. rewrite replaceAllUsesWith_eq.
      cbn [mod_fresh]. unfold m2, createAfter. cbn [snd mod_fresh].
      apply elem_of_cons in Hin' as [->|Hk%Hlt]; lia.
    + rewrite blockOps_replaceAllUsesWith. unfold m2 at 2.
      rewrite blockOps_createAfter.
      rewrite behind_map by apply rewire_id.
      rewrite totalWeight_map
        by (intros o; unfold writeWeight; by rewrite rewire_name).
      rewrite behind_insertAfter by done.
      assert (writeWeight op = 2%nat) as -> by (unfold writeWeight; by rewrite Hname).
      cbn [totalWeight foldr].
      change (writeWeight (created WriteInPlaceOp [value; base; index] m0)) with 1%nat.
      fold (totalWeight writeWeight (behind (op_id op) (blockOps m0 b))). lia.
Qed.

(** The fuel [walkBlock] gives the walk of the liveness pass is enough: with
    more fuel the walk does the same. *)
Lemma liveness_walk_fuel b m extra :
  moduleOk m ->
  walkFrom visit (2 * length (blockOps m b) + extra) b (head (blockOps m b)) m
  = walkBlock visit b m.
Proof.
  intros Hok. unfold walkBlock.
  apply (walkFrom_enough visit b moduleOk writeWeight).
  - intros o. unfold writeWeight. destruct (bool_decide _); lia.
  - intros m0 [[Hops _] _]. by apply NoDup_blockOps.
  - apply liveness_visit_step.
  - done.
  - intros op Hop. destruct (blockOps m b); [done|]. injection Hop as ->. by left.
  - rewrite pending_head. apply totalWeight_bound.
    intros o. unfold writeWeight. destruct (bool_decide _); lia.
Qed.

End BtorLivenessProofs.

(** ** The translation *)

Module DeserializeProofs.
Import Deserialize LifterSamples DeserializeSpec LifterSpec.

Lemma at_Done {A} (l : list A) i what x :
  at_ l i what = Done x -> l !! N.to_nat i = Some x.
Proof.
  unfold at_. destruct (i <? N.of_nat (length l))%N; [|discriminate].
  apply fromOption_Done.
Qed.

Lemma at_lookup {A} (l : list A) i what x :
  l !! N.to_nat i = Some x -> at_ l i what = Done x.
Proof.
  intros H. unfold at_.
  assert (N.to_nat i < length l)%nat by (eapply lookup_lt_Some; eauto).
  destruct (N.ltb_spec i (N.of_nat (length l))); [|lia].
  by rewrite H.
Qed.

(** C10: [createJmpOp] lets only strictly forward jumps through, and only
    when the instruction found at the target offset of the first section
    carries that offset as its label: a target at or before the jump fails
    the first assertion, a label that differs fails the second, and whenever
    [createJmpOp] returns both conditions hold (it then continues as
    [buildJmpOp]). *)
Theorem createJmpOp_forward_only (jmp : Jmp) (cur_label : label_t) (st : State) :
  ((from (target jmp) <= from cur_label)%Z ->
     createJmpOp jmp cur_label st = Stop (AssertionFailed "jmp.target.from > cur_label.from"))
  /\ (forall prog label ins,
        (from (target jmp) > from cur_label)%Z ->
        head (m_sections st) = Some prog ->
        prog !! N.to_nat (to_size_t (from (target jmp))) = Some (label, ins) ->
        from label <> from (target jmp) ->
        createJmpOp jmp cur_label st = Stop (AssertionFailed "label.from == jmp.target.from"))
  /\ (forall prog label ins,
        (from (target jmp) > from cur_label)%Z ->
        head (m_sections st) = Some prog ->
        prog !! N.to_nat (to_size_t (from (target jmp))) = Some (label, ins) ->
        from label = from (target jmp) ->
        createJmpOp jmp cur_label st = buildJmpOp (from cur_label) jmp st)
  /\ (forall st',
        createJmpOp jmp cur_label st = Done st' ->
        (from (target jmp) > from cur_label)%Z
        /\ exists prog label ins,
             head (m_sections st) = Some prog
             /\ prog !! N.to_nat (to_size_t (from (target jmp))) = Some (label, ins)
             /\ from label = from (target jmp)).
Proof.
  unfold createJmpOp. repeat split.
  - intros Hle. rewrite bool_decide_eq_false_2 by lia. done.
  - intros prog label ins Hgt Hp Hat Hne.
    rewrite bool_decide_eq_true_2 by done. simpl. rewrite Hp. simpl.
    rewrite (at_lookup _ _ _ _ Hat). simpl.
    rewrite bool_decide_eq_false_2 by done. done.
  - intros prog label ins Hgt Hp Hat Heq.
    rewrite bool_decide_eq_true_2 by done. simpl. rewrite Hp. simpl.
    rewrite (at_lookup _ _ _ _ Hat). simpl.
    rewrite bool_decide_eq_true_2 by done. done.
  - step H. apply assert_Done, bool_decide_eq_true in Ha. done.
  - step H. step H. apply fromOption_Done in Ha0.
    step H. destruct a1 as [label ins]. apply at_Done in Ha1.
    step H. apply assert_Done, bool_decide_eq_true in Ha2.
    eauto 10.
Qed.

Lemma print_app out1 out2 st : print out2 (print out1 st) = print (out1 ++ out2) st.
Proof. unfold print. simpl. by rewrite <- app_assoc. Qed.

(** One step of the translation loop over an instruction that is only named. *)
Lemma translate_step n prog cur_op st label ins :
  prog !! N.to_nat cur_op = Some (label, ins) ->
  translate (S n) prog cur_op st
  = createMLIR ins label st ≫= translate n prog (cur_op + 1)%N.
Proof.
  intros Hat. simpl. by rewrite (at_lookup _ _ _ _ Hat).
Qed.

(** C7 (amended): for a call, an indirect call, a packet access, an assume, an
    atomic, an assert or a loop-counter marker, [createMLIR] writes the offset
    of the instruction and the name of its kind to the diagnostic stream and
    changes nothing else (no operation is built, no register is updated), and
    the translation loop goes on with the next instruction. An [Exit] is
    passed over the same way, but all that is written is the offset, which
    every instruction gets. *)
Theorem unsupported_instruction_reported (ins : Instruction) (label : label_t) (st : State) :
  (forall name,
     reportedAs ins = Some name ->
     createMLIR ins label st
     = Done (print [OutNum (from label); OutStr " "; OutStr name; OutEndl] st))
  /\ (ins = Exit ->
      createMLIR ins label st = Done (print [OutNum (from label); OutStr " "] st))
  /\ (forall n prog cur_op,
        (is_Some (reportedAs ins) \/ ins = Exit) ->
        prog !! N.to_nat cur_op = Some (label, ins) ->
        exists out,
          translate (S n) prog cur_op st = translate n prog (cur_op + 1)%N (print out st)
          /\ blocks (print out st) = blocks st
          /\ m_registers (print out st) = m_registers st).
Proof.
  split; [|split].
  - intros name Hname.
    destruct ins; simpl in Hname; try discriminate; injection Hname as <-;
      simpl; by rewrite print_app.
  - intros ->. done.
  - intros n prog cur_op Hkind Hat.
    rewrite (translate_step _ _ _ _ _ _ Hat).
    destruct Hkind as [[name Hname] | ->].
    + exists [OutNum (from label); OutStr " "; OutStr name; OutEndl].
      destruct ins; simpl in Hname; try discriminate; injection Hname as <-;
        simpl; by rewrite print_app.
    + by exists [OutNum (from label); OutStr " "].
Qed.

Lemma unsupported_instruction_reported_witness :
  createMLIR Call (at_offset 1) (entered fallThrough)
  = Done (print [OutNum 1; OutStr " "; OutStr "Call"; OutEndl] (entered fallThrough))
  /\ createMLIR Exit (at_offset 4) (entered sharedBoundary)
     = Done (print [OutNum 4; OutStr " "] (entered sharedBoundary)).
Proof.
  split.
  - apply (proj1 (unsupported_instruction_reported Call (at_offset 1) (entered fallThrough))).
    reflexivity.
  - apply (proj1 (proj2 (unsupported_instruction_reported Exit (at_offset 4)
                           (entered sharedBoundary)))).
    reflexivity.
Defined.

(** C7 as stated fails: an [Exit] leaves no trace that names it. What it
    writes is what an empty ([Undefined]) slot writes, and nothing is built. *)
Lemma exit_is_passed_over_unnamed :
  exists st',
    createMLIR Exit (at_offset 4) (entered sharedBoundary) = Done st'
    /\ cerr st' = cerr (entered sharedBoundary) ++ [OutNum 4; OutStr " "]
    /\ blocks st' = blocks (entered sharedBoundary)
    /\ createMLIR Undefined (at_offset 4) (entered sharedBoundary) = Done st'.
Proof. eexists. repeat split. Qed.

Lemma createJmpOp_forward_only_witness :
  createJmpOp {| cond := None; target := at_offset 0 |} (at_offset 1) (entered straightJump)
  = Stop (AssertionFailed "jmp.target.from > cur_label.from")
  /\ createJmpOp {| cond := None; target := at_offset 2 |} (at_offset 1) (entered straightJump)
     = buildJmpOp 1 {| cond := None; target := at_offset 2 |} (entered straightJump).
Proof.
  split.
  - apply (proj1 (createJmpOp_forward_only _ _ _)). simpl. lia.
  - eapply (proj1 (proj2 (proj2 (createJmpOp_forward_only _ _ _)))).
    + simpl. lia.
    + reflexivity.
    + reflexivity.
    + reflexivity.
Defined.

Lemma incrementBlocks_spec x st :
  collected st ->
  collected (incrementBlocks x st)
  /\ (forall y, y ∈ m_startOfNextBlock (incrementBlocks x st)
                <-> y ∈ m_startOfNextBlock st \/ y = x)
  /\ m_sections (incrementBlocks x st) = m_sections st.
Proof.
  intros [Hnd Ht Hc Hi]. unfold incrementBlocks.
  destruct (decide (x ∈ m_jmpTargets st)) as [Hin|Hnin].
  - split; [done|]. split; [|done].
    intros y. split; [tauto|]. intros [?| ->]; [done|]. by apply Ht.
  - simpl. split; [split; simpl|split; simpl].
    + apply NoDup_app. split; [done|]. split; [|apply NoDup_singleton].
      intros y Hy ->%list_elem_of_singleton. apply Hnin. by apply Ht.
    + intros y. rewrite elem_of_app, list_elem_of_singleton, elem_of_union,
        elem_of_singleton, Ht. tauto.
    + rewrite length_app. simpl. rewrite Hc. lia.
    + rewrite dom_insert_L, Hi, list_to_set_app_L. simpl.
      apply set_eq. intros y.
      rewrite !elem_of_union, !elem_of_singleton, elem_of_empty. tauto.
    + intros y. by rewrite elem_of_app, list_elem_of_singleton.
    + done.
Qed.

Lemma collectBlock_spec st li :
  collected st ->
  collected (collectBlock st li)
  /\ (forall y, y ∈ m_startOfNextBlock (collectBlock st li)
                <-> y ∈ m_startOfNextBlock st \/ y ∈ boundariesOf [li])
  /\ m_sections (collectBlock st li) = m_sections st.
Proof.
  intros Hst. destruct li as [label ins]. unfold boundariesOf. simpl.
  destruct ins; simpl;
    try (split; [done|]; split; [|done]; intros y; rewrite elem_of_nil; tauto).
  set (jmpTo := to_size_t (from (target j))).
  set (st1 := if decide (jmpTo ∉ m_jmpTargets st) then incrementBlocks jmpTo st else st).
  assert (collected st1
          /\ (forall y, y ∈ m_startOfNextBlock st1 <-> y ∈ m_startOfNextBlock st \/ y = jmpTo)
          /\ m_sections st1 = m_sections st) as (H1 & H1in & H1s).
  { subst st1. destruct (decide (jmpTo ∉ m_jmpTargets st)) as [Hn|Hn].
    - by apply incrementBlocks_spec.
    - split; [done|]. split; [|done]. intros y. split; [tauto|].
      intros [?| ->]; [done|]. apply Hst. by apply dec_stable. }
  destruct (cond j).
  - destruct (incrementBlocks_spec (to_size_t (from label + 1)) st1 H1) as (H2 & H2in & H2s).
    split; [done|]. split; [|congruence].
    intros y. rewrite H2in, H1in, app_nil_r, !elem_of_cons, elem_of_nil. tauto.
  - split; [done|]. split; [|done].
    intros y. rewrite H1in, app_nil_r, elem_of_cons, elem_of_nil. tauto.
Qed.

Lemma boundariesOf_cons li prog :
  boundariesOf (li :: prog) = boundariesOf [li] ++ boundariesOf prog.
Proof. unfold boundariesOf. simpl. by rewrite app_nil_r. Qed.

Lemma collect_loop_spec prog st :
  collected st ->
  collected (foldl collectBlock st prog)
  /\ (forall y, y ∈ m_startOfNextBlock (foldl collectBlock st prog)
                <-> y ∈ m_startOfNextBlock st \/ y ∈ boundariesOf prog)
  /\ m_sections (foldl collectBlock st prog) = m_sections st.
Proof.
  revert st. induction prog as [|li prog IH]; intros st Hst.
  - simpl. split; [done|]. split; [|done]. intros y.
    unfold boundariesOf. simpl. rewrite elem_of_nil. tauto.
  - cbn [foldl]. destruct (collectBlock_spec st li Hst) as (H1 & H1in & H1s).
    destruct (IH _ H1) as (H2 & H2in & H2s).
    split; [done|]. split; [|congruence].
    intros y. rewrite (boundariesOf_cons li prog), elem_of_app, H2in, H1in. tauto.
Qed.

Lemma elem_of_boundariesOf x prog :
  x ∈ boundariesOf prog <->
  exists label jmp,
    (label, IJmp jmp) ∈ prog
    /\ (x = to_size_t (from (target jmp))
        \/ (is_Some (cond jmp) /\ x = to_size_t (from label + 1))).
Proof.
  unfold boundariesOf. rewrite list_elem_of_In, in_flat_map. split.
  - intros ([label ins] & Hin & Hx). apply list_elem_of_In in Hin. simpl in Hx.
    destruct ins; try by destruct Hx.
    exists label, j. split; [done|].
    destruct Hx as [<-|Hx]; [by left|].
    destruct (cond j) eqn:Hc; simpl in Hx; [|done].
    destruct Hx as [<-|[]]. right. eauto.
  - intros (label & jmp & Hin & Hx). exists (label, IJmp jmp).
    split; [by apply list_elem_of_In|]. simpl.
    destruct Hx as [->|[[c Hc] ->]]; [by left|].
    right. rewrite Hc. by left.
Qed.

Lemma sorted_without_repeats (l : list N) :
  NoDup l -> StronglySorted N.le l -> StronglySorted N.lt l.
Proof.
  induction 2 as [|x l Hs IH Hall]; [constructor|].
  apply NoDup_cons in H as [Hx Hl].
  constructor; [by apply IH|].
  rewrite Forall_forall in Hall |- *. intros y Hy.
  assert (x <> y) by (intros ->; done).
  specialize (Hall y Hy). lia.
Qed.

Lemma entered_collected sections : collected (enterXDPFunction (initial sections)).
Proof.
  split; simpl.
  - constructor.
  - intros x. rewrite elem_of_nil. set_solver.
  - done.
  - set_solver.
Qed.

(** C5: block-boundary discovery. [collectBlocks], run on the state
    [buildXDPFunction] hands it (the entry block registered at offset 0), is a
    single pass over the first section that returns with
    [m_startOfNextBlock] strictly ascending (so sorted and without a repeated
    offset), holding the target of every jump and the offset after every
    conditional jump and nothing else; the block index owns exactly these
    offsets and the entry offset 0. *)
Theorem collectBlocks_boundaries (prog : InstructionSeq) (rest : list InstructionSeq) :
  exists st',
    collectBlocks (enterXDPFunction (initial (prog :: rest))) = Done st'
    /\ StronglySorted N.lt (m_startOfNextBlock st')
    /\ (forall label jmp,
          (label, IJmp jmp) ∈ prog ->
          to_size_t (from (target jmp)) ∈ m_startOfNextBlock st'
          /\ (is_Some (cond jmp) -> to_size_t (from label + 1) ∈ m_startOfNextBlock st'))
    /\ (forall x,
          x ∈ m_startOfNextBlock st' ->
          exists label jmp,
            (label, IJmp jmp) ∈ prog
            /\ (x = to_size_t (from (target jmp))
                \/ (is_Some (cond jmp) /\ x = to_size_t (from label + 1))))
    /\ 0%N ∈ dom (m_jumpBlocks st')
    /\ dom (m_jumpBlocks st') = {[0%N]} ∪ list_to_set (m_startOfNextBlock st').
Proof.
  set (st0 := enterXDPFunction (initial (prog :: rest))).
  destruct (collect_loop_spec prog st0 (entered_collected _)) as ([Hnd Ht Hc Hi] & Hin & Hs).
  unfold collectBlocks. change (head (m_sections st0)) with (Some prog). simpl.
  rewrite bool_decide_eq_true_2 by done. simpl.
  eexists. split; [reflexivity|]. simpl.
  set (l := m_startOfNextBlock (foldl collectBlock st0 prog)) in *.
  assert (Hperm : sort l ≡ₚ l) by apply merge_sort_Permutation.
  split; [|split; [|split; [|split]]].
  - apply sorted_without_repeats.
    + by rewrite Hperm.
    + apply StronglySorted_merge_sort; apply _.
  - intros label jmp Hj. split.
    + rewrite Hperm. apply Hin. right. apply elem_of_boundariesOf. eauto 10.
    + intros Hcond. rewrite Hperm. apply Hin. right. apply elem_of_boundariesOf. eauto 10.
  - intros x. rewrite Hperm. intros [Hx|Hx]%Hin.
    + by apply elem_of_nil in Hx.
    + by apply elem_of_boundariesOf.
  - rewrite Hi. apply elem_of_union_l. by apply elem_of_singleton.
  - rewrite Hi. f_equal. apply set_eq. intros x.
    rewrite !elem_of_list_to_set. by rewrite Hperm.
Qed.

Example collectBlocks_sharedBoundary :
  (fun st => (m_startOfNextBlock st, m_numBlocks st))
    <$> collectBlocks (entered sharedBoundary)
  = Done ([1; 2; 4]%N, 3%N).
Proof. vm_compute. reflexivity. Qed.

Lemma keeps_refl st : keeps st st.
Proof. by split. Qed.

Lemma keeps_trans st1 st2 st3 : keeps st1 st2 -> keeps st2 st3 -> keeps st1 st3.
Proof.
  intros [] []. split; try congruence; auto.
Qed.

Lemma blockOpsOf_create b name operands succ attr st :
  blockOpsOf b (create name operands succ attr st).2
  = if decide (b = insertionBlock st) then
      match blocks st !! b with
      | Some blk => blk_ops blk ++ [ {| op_id := freshOp st; op_name := name;
                                        op_operands := operands; op_successor := succ;
                                        op_attr := attr |} ]
      | None => []
      end
    else blockOpsOf b st.
Proof.
  unfold blockOpsOf, create. simpl.
  destruct (decide (b = insertionBlock st)) as [->|Hne].
  - rewrite lookup_alter_eq. by destruct (blocks st !! insertionBlock st).
  - by rewrite lookup_alter_ne.
Qed.

Lemma lacksTerminator_snoc ops op :
  lacksTerminator (ops ++ [op]) = negb (isTerminator (op_name op)).
Proof. unfold lacksTerminator. by rewrite last_snoc. Qed.

Lemma keeps_create name operands succ attr st :
  isTerminator name = false -> keeps st (create name operands succ attr st).2.
Proof.
  intros Hname. split; try done.
  - intros b. unfold create. simpl.
    destruct (decide (b = insertionBlock st)) as [->|Hne].
    + rewrite lookup_alter_eq. intros [x ->]. by eexists.
    + by rewrite lookup_alter_ne.
  - intros b Hb. rewrite blockOpsOf_create.
    destruct (decide (b = insertionBlock st)); [|done].
    destruct (blocks st !! b); [|done].
    rewrite lacksTerminator_snoc. simpl. by rewrite Hname.
Qed.

Lemma keeps_print out st : keeps st (print out st).
Proof. by split. Qed.

Lemma keeps_writeReg r val st st' : writeReg r val st = Done st' -> keeps st st'.
Proof.
  unfold writeReg. destruct (r <? _)%N; [|discriminate].
  intros [= <-]. split; try done. simpl. by rewrite length_insert.
Qed.

Lemma keeps_createBinaryOp bin st st' : createBinaryOp bin st = Done st' -> keeps st st'.
Proof.
  unfold createBinaryOp. intros H. step H.
  step H. destruct a0 as [rhs st1].
  assert (keeps st st1) as K1.
  { destruct (bin_v bin).
    - injection Ha0 as <- <-. by apply keeps_create.
    - step Ha0. injection Ha0 as <- <-. apply keeps_refl. }
  unfold buildBinaryOp in H.
  destruct (create _ _ _ _ st1) as [res st2] eqn:Hc.
  apply keeps_writeReg in H.
  eapply keeps_trans; [exact K1|]. eapply keeps_trans; [|exact H].
  change st2 with (res, st2).2. rewrite <- Hc.
  apply keeps_create. by destruct (bin_op bin).
Qed.

Lemma keeps_createUnaryOp un st st' : createUnaryOp un st = Done st' -> keeps st st'.
Proof.
  unfold createUnaryOp. intros H. step H.
  unfold buildUnaryOp in H.
  destruct (create _ _ _ _ st) as [res st1] eqn:Hc.
  apply keeps_writeReg in H.
  eapply keeps_trans; [|exact H].
  change st1 with (res, st1).2. rewrite <- Hc.
  apply keeps_create. by destruct (un_op un).
Qed.

Lemma keeps_createLoadMapOp l st st' : createLoadMapOp l st = Done st' -> keeps st st'.
Proof.
  unfold createLoadMapOp, buildConstantOp, buildBinaryOp. intros H.
  destruct (create ConstantOp _ _ _ st) as [map st1] eqn:Hc1.
  step H.
  destruct (create LoadMapOp _ _ _ st1) as [res st2] eqn:Hc2.
  apply keeps_writeReg in H.
  eapply keeps_trans; [|exact H].
  apply (keeps_trans _ st1).
  - change st1 with (map, st1).2. rewrite <- Hc1. by apply keeps_create.
  - change st2 with (res, st2).2. rewrite <- Hc2. by apply keeps_create.
Qed.

Lemma keeps_buildStoreOp name base off mem st res st' :
  isTerminator name = false ->
  buildStoreOp name base off mem st = Done (res, st') -> keeps st st'.
Proof.
  unfold buildStoreOp. intros Hname H. step H. destruct a as [val st1].
  assert (keeps st st1) as K1.
  { destruct (value mem).
    - injection Ha as <- <-. by apply keeps_create.
    - step Ha. injection Ha as <- <-. apply keeps_refl. }
  destruct (create name _ _ _ st1) as [r st2] eqn:Hc.
  injection H as <- <-.
  eapply keeps_trans; [exact K1|].
  change st2 with (r, st2).2. rewrite <- Hc. by apply keeps_create.
Qed.

Lemma keeps_createMemOp mem st st' : createMemOp mem st = Done st' -> keeps st st'.
Proof.
  unfold createMemOp, buildConstantOp, buildBinaryOp. intros H.
  destruct (create ConstantOp _ _ _ st) as [off st1] eqn:Hc1.
  assert (keeps st st1) as K1.
  { change st1 with (off, st1).2. rewrite <- Hc1. by apply keeps_create. }
  step H. destruct a as [res st2].
  assert (keeps st1 st2) as K2.
  { destruct (match width (access mem) with
              | 1%Z => _ | 2%Z => _ | 4%Z => _ | 8%Z => _ | _ => _ end)
      as [[ld store]|] eqn:Hw.
    - assert (isTerminator ld = false /\ isTerminator store = false) as [Hld Hstore].
      { destruct (width (access mem)) as [|p|p]; try discriminate.
        do 4 (try destruct p as [p|p|]); try discriminate;
          injection Hw as <- <-; done. }
      step Ha. destruct (is_load mem).
      + destruct (create ld _ _ _ st1) as [r s] eqn:Hc2.
        injection Ha as <- <-.
        change s with (r, s).2. rewrite <- Hc2. by apply keeps_create.
      + by eapply keeps_buildStoreOp.
    - injection Ha as <- <-. apply keeps_refl. }
  eapply keeps_trans; [exact K1|]. eapply keeps_trans; [exact K2|].
  destruct (is_load mem).
  - destruct (value mem); [discriminate|]. by eapply keeps_writeReg.
  - injection H as <-. apply keeps_refl.
Qed.

Lemma keeps_createMLIR ins label st st' :
  isJmp ins = false -> createMLIR ins label st = Done st' -> keeps st st'.
Proof.
  intros Hj H. unfold createMLIR in H.
  eapply keeps_trans; [apply (keeps_print [OutNum (from label); OutStr " "])|].
  destruct ins; try discriminate Hj;
    try (injection H as <-; first [apply keeps_refl | apply keeps_print]).
  - by eapply keeps_createBinaryOp.
  - by eapply keeps_createUnaryOp.
  - by eapply keeps_createLoadMapOp.
  - by eapply keeps_createMemOp.
Qed.

Lemma keeps_translate n prog cur_op st cur1 st1 :
  (forall i label ins,
     prog !! i = Some (label, ins) ->
     (N.to_nat cur_op <= i < N.to_nat cur_op + n)%nat -> isJmp ins = false) ->
  translate n prog cur_op st = Done (cur1, st1) ->
  keeps st st1 /\ cur1 = (cur_op + N.of_nat n)%N.
Proof.
  revert cur_op st. induction n as [|n IH]; intros cur_op st Hrange H.
  - injection H as <- <-. split; [apply keeps_refl | lia].
  - simpl in H. step H. destruct a as [label ins].
    apply at_Done in Ha. step H.
    apply IH in H as [K ->].
    + split; [|lia]. eapply keeps_trans; [|exact K].
      eapply keeps_createMLIR; [|exact Ha0].
      eapply Hrange; [exact Ha|lia].
    + intros i l' i' Hi Hr. eapply Hrange; [exact Hi|lia].
Qed.

(** *** The frame of the translation, jumps included *)

Lemma framed_refl st : framed st st.
Proof.
  split; try done.
  - intros blk Hblk. exists []. rewrite Hblk. f_equal.
    destruct blk. unfold mapBlock. simpl. by rewrite app_nil_r.
  - exists []. by rewrite app_nil_r.
Qed.

Lemma framed_trans st1 st2 st3 : framed st1 st2 -> framed st2 st3 -> framed st1 st3.
Proof.
  intros F12 F23. destruct F12, F23. split; try congruence.
  - intros b Hb. rewrite framed_others1; [by apply framed_others0|congruence].
  - intros blk Hblk. destruct (framed_current0 blk Hblk) as [ops1 H1].
    rewrite <- framed_point0 in H1.
    destruct (framed_current1 _ H1) as [ops2 H2].
    exists (ops1 ++ ops2). rewrite <- framed_point0, H2. f_equal.
    unfold mapBlock. simpl. by rewrite app_assoc.
  - destruct framed_cerr0 as [o1 H1]. destruct framed_cerr1 as [o2 H2].
    exists (o1 ++ o2). by rewrite H2, H1, app_assoc.
Qed.

Lemma framed_print out st : framed st (print out st).
Proof.
  split; try done.
  - intros blk Hblk. exists []. simpl. rewrite Hblk. f_equal.
    destruct blk. unfold mapBlock. simpl. by rewrite app_nil_r.
  - by exists out.
Qed.

Lemma framed_create name operands succ attr st :
  framed st (create name operands succ attr st).2.
Proof.
  split; try done; simpl.
  - apply dom_alter_L.
  - intros b Hb. by rewrite lookup_alter_ne.
  - intros blk Hblk. eexists. rewrite lookup_alter_eq, Hblk. reflexivity.
  - exists []. by rewrite app_nil_r.
Qed.

Lemma framed_writeReg r val st st' : writeReg r val st = Done st' -> framed st st'.
Proof.
  unfold writeReg. destruct (r <? _)%N; [|discriminate].
  intros [= <-]. split; try done; simpl.
  - by rewrite length_insert.
  - intros blk Hblk. exists []. rewrite Hblk. f_equal.
    destruct blk. unfold mapBlock. simpl. by rewrite app_nil_r.
  - exists []. by rewrite app_nil_r.
Qed.

Lemma framed_created name operands succ attr st res st' :
  create name operands succ attr st = (res, st') -> framed st st'.
Proof.
  intros H. change st' with (res, st').2. rewrite <- H. apply framed_create.
Qed.

Lemma framed_createBinaryOp bin st st' : createBinaryOp bin st = Done st' -> framed st st'.
Proof.
  unfold createBinaryOp. intros H. step H as lhs Hlhs.
  step H as [rhs st1] Hrhs.
  assert (framed st st1) as F1.
  { destruct (bin_v bin).
    - injection Hrhs as <- <-. apply framed_create.
    - step Hrhs as x Hx. injection Hrhs as <- <-. apply framed_refl. }
  unfold buildBinaryOp in H.
  destruct (create _ _ _ _ st1) as [res st2] eqn:Hc.
  apply framed_writeReg in H. apply framed_created in Hc.
  eauto using framed_trans.
Qed.

Lemma framed_createUnaryOp un st st' : createUnaryOp un st = Done st' -> framed st st'.
Proof.
  unfold createUnaryOp. intros H. step H as rhs Hrhs.
  unfold buildUnaryOp in H.
  destruct (create _ _ _ _ st) as [res st1] eqn:Hc.
  apply framed_writeReg in H. apply framed_created in Hc.
  eauto using framed_trans.
Qed.

Lemma framed_createLoadMapOp l st st' : createLoadMapOp l st = Done st' -> framed st st'.
Proof.
  unfold createLoadMapOp, buildConstantOp, buildBinaryOp. intros H.
  destruct (create ConstantOp _ _ _ st) as [map st1] eqn:Hc1.
  step H as cur Hcur.
  destruct (create LoadMapOp _ _ _ st1) as [res st2] eqn:Hc2.
  apply framed_writeReg in H. apply framed_created in Hc1, Hc2.
  eauto using framed_trans.
Qed.

Lemma framed_buildStoreOp name base off mem st res st' :
  buildStoreOp name base off mem st = Done (res, st') -> framed st st'.
Proof.
  unfold buildStoreOp. intros H. step H as [val st1] Hval.
  assert (framed st st1) as F1.
  { destruct (value mem).
    - injection Hval as <- <-. apply framed_create.
    - step Hval as x Hx. injection Hval as <- <-. apply framed_refl. }
  destruct (create name _ _ _ st1) as [r st2] eqn:Hc.
  injection H as <- <-. apply framed_created in Hc.
  eauto using framed_trans.
Qed.

Lemma framed_createMemOp mem st st' : createMemOp mem st = Done st' -> framed st st'.
Proof.
  unfold createMemOp, buildConstantOp, buildBinaryOp. intros H.
  destruct (create ConstantOp _ _ _ st) as [off st1] eqn:Hc1.
  apply framed_created in Hc1.
  step H as [res st2] Hres.
  assert (framed st1 st2) as F2.
  { destruct (match width (access mem) with
              | 1%Z => _ | 2%Z => _ | 4%Z => _ | 8%Z => _ | _ => _ end)
      as [[ld store]|].
    - step Hres as base Hbase. destruct (is_load mem).
      + destruct (create ld _ _ _ st1) as [r s] eqn:Hc2.
        injection Hres as <- <-. by apply framed_created in Hc2.
      + by eapply framed_buildStoreOp.
    - injection Hres as <- <-. apply framed_refl. }
  assert (framed st2 st') as F3.
  { destruct (is_load mem).
    - destruct (value mem); [discriminate|]. by eapply framed_writeReg.
    - injection H as <-. apply framed_refl. }
  eauto using framed_trans.
Qed.

Lemma framed_buildJmpOp cur jmp st st' : buildJmpOp cur jmp st = Done st' -> framed st st'.
Proof.
  unfold buildJmpOp. intros H. destruct (cond jmp).
  - injection H as <-. apply framed_print.
  - step H as block Hblock. injection H as <-. apply framed_create.
Qed.

Lemma createJmpOp_Done jmp label st st' :
  createJmpOp jmp label st = Done st' ->
  buildJmpOp (from label) jmp st = Done st'
  /\ exists prog, head (m_sections st) = Some prog /\ forwardJump prog label jmp.
Proof.
  unfold createJmpOp. intros H.
  step H as ? Hfwd. apply assert_Done, bool_decide_eq_true in Hfwd.
  step H as prog Hprog. apply fromOption_Done in Hprog.
  step H as [l ins] Hat. apply at_Done in Hat.
  step H as ? Hlabel. apply assert_Done, bool_decide_eq_true in Hlabel.
  split; [done|]. exists prog. split; [done|]. split; [done|]. eauto.
Qed.

(** After the offset is written, every instruction is translated within
    the frame. *)
Lemma createMLIR_body ins label st st' :
  createMLIR ins label st = Done st' ->
  framed (print [OutNum (from label); OutStr " "] st) st'.
Proof.
  intros H. unfold createMLIR in H.
  destruct ins;
    try (injection H as <-; first [apply framed_refl | apply framed_print]).
  - by eapply framed_createBinaryOp.
  - by eapply framed_createUnaryOp.
  - by eapply framed_createLoadMapOp.
  - apply createJmpOp_Done in H as [H _]. by eapply framed_buildJmpOp.
  - by eapply framed_createMemOp.
Qed.

Lemma framed_createMLIR ins label st st' :
  createMLIR ins label st = Done st' -> framed st st'.
Proof.
  intros H%createMLIR_body.
  eapply framed_trans; [apply (framed_print [OutNum (from label); OutStr " "])|done].
Qed.

Lemma translate_framed n prog cur_op st cur1 st1 :
  translate n prog cur_op st = Done (cur1, st1) ->
  framed st st1 /\ cur1 = (cur_op + N.of_nat n)%N.
Proof.
  revert cur_op st. induction n as [|n IH]; intros cur_op st H.
  - injection H as <- <-. split; [apply framed_refl|lia].
  - simpl in H. step H as [label ins] Hat. step H as st0 Hins.
    apply framed_createMLIR in Hins. apply IH in H as [F ->].
    split; [by eapply framed_trans|lia].
Qed.

Lemma jumpBlockAt_Some off st b :
  m_jumpBlocks st !! off = Some b -> jumpBlockAt off st = Done b.
Proof. unfold jumpBlockAt. by intros ->. Qed.

(** A range without jumps, entered with a block that has no terminator at its
    end, leaves the block without terminator. *)
Lemma jump_free_range_stays_open
    (prog : InstructionSeq) (st : State) (cur_op next : N) (curBlock : nat)
    (cur1 : N) (st1 : State) :
  lacksTerminator (blockOpsOf curBlock st) = true ->
  (forall i label ins,
     prog !! i = Some (label, ins) ->
     (N.to_nat cur_op <= i < N.to_nat next)%nat -> isJmp ins = false) ->
  translateUpTo next prog cur_op (rangeStart curBlock cur_op next st) = Done (cur1, st1) ->
  lacksTerminator (blockOpsOf curBlock st1) = true.
Proof.
  intros Hopen Hrange Htr. unfold translateUpTo in Htr.
  apply keeps_translate in Htr as [K _].
  - by apply (keeps_open _ _ K).
  - intros i label ins Hi Hr. eapply Hrange; [exact Hi|lia].
Qed.

(** C6: the fall-through branch. Let the translation of a boundary range go
    through and let the block of the range have no terminator at its end
    after it, whatever the instructions of the range are: a range without
    jumps, or a range closed by a conditional jump, for which nothing is
    built. Then the loop body of [buildFunctionBody] appends to that block
    one unconditional branch to the block that owns the next boundary offset;
    the operands of the branch are the register file as the translation of
    the range left it, one per register, and the target becomes the last
    block. *)
Theorem fallthrough_branch_synthesised
    (prog : InstructionSeq) (st : State) (cur_op next : N) (curBlock nextBlock : nat)
    (cur1 : N) (st1 : State) :
  m_jumpBlocks st !! cur_op = Some curBlock ->
  m_jumpBlocks st !! next = Some nextBlock ->
  is_Some (blocks st !! curBlock) ->
  length (m_registers st) = m_ebpfRegisters ->
  translateUpTo next prog cur_op (rangeStart curBlock cur_op next st) = Done (cur1, st1) ->
  lacksTerminator (blockOpsOf curBlock st1) = true ->
  exists st',
    buildBlock prog (cur_op, st) next = Done (cur1, st')
    /\ blockOpsOf curBlock st' = blockOpsOf curBlock st1 ++ [fallThroughBranch nextBlock st1]
    /\ length (op_operands (fallThroughBranch nextBlock st1)) = m_ebpfRegisters
    /\ m_registers st' = m_registers st1
    /\ m_lastBlock st' = nextBlock.
Proof.
  intros Hcur Hnext Hblk Hlen Htr Hopen.
  assert (framed (rangeStart curBlock cur_op next st) st1) as F.
  { unfold translateUpTo in Htr. by apply translate_framed in Htr as [F _]. }
  pose proof (framed_index _ _ F) as Kidx. simpl in Kidx.
  assert (length (m_registers st1) = m_ebpfRegisters) as Hlen1.
  { rewrite (framed_size _ _ F). unfold rangeStart, blockArguments.
    cbn [m_registers setRegisters print setInsertionPointToEnd].
    rewrite length_app, length_drop, length_map, length_seq, Hlen. lia. }
  assert (is_Some (blocks st1 !! curBlock)) as [blk Hb].
  { apply elem_of_dom. rewrite (framed_dom _ _ F). by apply elem_of_dom. }
  assert (buildBlock prog (cur_op, st) next
          = Done (cur1,
                  setLastBlock nextBlock
                    (print [OutStr "/**/ cpp block at: "; OutNum (Z.of_N next); OutEndl]
                       (create BranchOp (m_registers st1) (Some nextBlock) None
                          (setInsertionPointToEnd curBlock st1)).2))) as Hbuild.
  { unfold buildBlock. cbn beta iota.
    rewrite bool_decide_eq_true_2 by (rewrite Hcur; eauto).
    cbn [mbind Result_bind assert].
    rewrite (jumpBlockAt_Some _ _ _ Hcur). cbn [mbind Result_bind].
    unfold setupRegisters. rewrite bool_decide_eq_true_2 by (simpl; lia).
    cbn [mbind Result_bind]. fold (rangeStart curBlock cur_op next st).
    rewrite Htr. cbn [mbind Result_bind].
    rewrite Hopen.
    rewrite bool_decide_eq_true_2 by (rewrite Kidx, Hnext; eauto).
    cbn [mbind Result_bind assert].
    rewrite (jumpBlockAt_Some next (setInsertionPointToEnd curBlock st1) nextBlock)
      by (simpl; by rewrite Kidx).
    reflexivity. }
  eexists. split; [exact Hbuild|].
  split; [|done].
  unfold blockOpsOf at 1. simpl. rewrite lookup_alter_eq.
  unfold blockOpsOf. by rewrite Hb.
Qed.

Lemma fallthrough_branch_synthesised_witness :
  exists st',
    buildBlock condSkip (0%N, condSkipCollected) 1%N = Done (1%N, st')
    /\ blockOpsOf 0 st'
       = blockOpsOf 0 condSkipFirstRange ++ [fallThroughBranch 2 condSkipFirstRange]
    /\ length (op_operands (fallThroughBranch 2 condSkipFirstRange)) = m_ebpfRegisters
    /\ m_registers st' = m_registers condSkipFirstRange
    /\ m_lastBlock st' = 2%nat.
Proof.
  apply (fallthrough_branch_synthesised condSkip condSkipCollected 0 1 0 2 1
           condSkipFirstRange).
  - vm_compute. reflexivity.
  - vm_compute. reflexivity.
  - vm_compute. eauto.
  - vm_compute. reflexivity.
  - vm_compute. reflexivity.
  - vm_compute. reflexivity.
Defined.

(** The first range of [condSkip] is its conditional jump: nothing is built
    for it, and its block holds the synthesised branch alone. *)
Example condSkip_first_block :
  map (fun o => (op_name o, op_successor o, length (op_operands o)))
    (blockOpsOf 0 (stateOf (buildBlock condSkip (0%N, condSkipCollected) 1%N)))
  = [(BranchOp, Some 2%nat, m_ebpfRegisters)].
Proof. vm_compute. reflexivity. Qed.

Example condSkip_second_block :
  map op_name (blockOpsOf 2 (stateOf (buildBlock condSkip (1%N, condSkipAfterFirstRange) 3%N)))
  = [ConstantOp; AddOp; BranchOp].
Proof. vm_compute. reflexivity. Qed.

End DeserializeProofs.

(** * Further properties: edge cases, invariants and composition *)

Lemma nextAfter_middle (o : Operation) (front rest : list Operation) :
  op_id o ∉ map op_id front ->
  nextAfter (op_id o) (front ++ o :: rest) = head rest.
Proof.
  induction front as [|x front IH]; intros Hnot; simpl.
  - by rewrite decide_True.
  - apply not_elem_of_cons in Hnot as [Hne Hnot].
    rewrite decide_False by congruence. by apply IH.
Qed.

(** A walk whose visits change nothing ends with the module it started with. *)
Lemma walkFrom_unchanged visit b m (rest front : list Operation) fuel :
  blockOps m b = front ++ rest ->
  NoDup (map op_id (front ++ rest)) ->
  (forall o, o ∈ rest -> visit o m = Done m) ->
  (length rest <= fuel)%nat ->
  walkFrom visit fuel b (head rest) m = Done m.
Proof.
  revert front fuel. induction rest as [|o rest IH]; intros front fuel Hops Hnd Hv Hfuel.
  - by destruct fuel.
  - destruct fuel as [|fuel]; [simpl in Hfuel; lia|]. simpl.
    rewrite Hv by (by left). simpl. rewrite Hops.
    rewrite nextAfter_middle.
    + apply (IH (front ++ [o])).
      * by rewrite <- app_assoc.
      * by rewrite <- app_assoc.
      * intros o' Ho'. apply Hv. by right.
      * simpl in Hfuel. lia.
    + rewrite map_app in Hnd. apply NoDup_app in Hnd as (_ & Hdisj & _).
      intros Hin. apply (Hdisj _ Hin). simpl. by left.
Qed.

Lemma walkBlock_unchanged visit b m :
  NoDup (map op_id (blockOps m b)) ->
  (forall o, o ∈ blockOps m b -> visit o m = Done m) ->
  walkBlock visit b m = Done m.
Proof.
  intros Hnd Hv. unfold walkBlock.
  apply (walkFrom_unchanged visit b m (blockOps m b) []); try done. lia.
Qed.

Lemma foldM_unchanged {A B} (f : A -> B -> Result A) (l : list B) (a : A) :
  (forall x, x ∈ l -> f a x = Done a) -> foldM f l a = Done a.
Proof.
  induction l as [|x l IH]; intros Hf; simpl; [done|].
  rewrite Hf by (by left). simpl. apply IH. intros y Hy. apply Hf. by right.
Qed.

(** ** Results that are no fuel stop *)

Lemma bind_ends {A B} (r : Result A) (f : A -> Result B) :
  r <> Stop FuelExhausted -> (forall a, r = Done a -> f a <> Stop FuelExhausted) ->
  r ≫= f <> Stop FuelExhausted.
Proof.
  intros Hr Hf. destruct r as [a|e]; [by apply Hf|].
  simpl. intros [= ->]. by apply Hr.
Qed.

Lemma assert_ends c s : assert c s <> Stop FuelExhausted.
Proof. by destruct c. Qed.

Lemma fromOption_ends {A} (o : option A) e :
  e <> FuelExhausted -> fromOption o e <> Stop FuelExhausted.
Proof. destruct o; simpl; congruence. Qed.

Lemma foldM_ends {A B} (I : A -> Prop) (f : A -> B -> Result A) :
  (forall a x, I a -> f a x <> Stop FuelExhausted /\ forall a', f a x = Done a' -> I a') ->
  forall l a, I a -> foldM f l a <> Stop FuelExhausted.
Proof.
  intros Hf l. induction l as [|x l IH]; intros a Ha; simpl; [done|].
  destruct (Hf a x Ha) as [Hne Hnext].
  apply bind_ends; [done|]. intros a' Ha'. apply IH. by apply Hnext.
Qed.

Section WalkEnds.

Variable visit : Operation -> ModuleOp -> Result ModuleOp.
Variable b : nat.
Variable I : ModuleOp -> Prop.
Variable w : Operation -> nat.

Hypothesis w_positive : forall o, (1 <= w o)%nat.
Hypothesis I_unique : forall m, I m -> NoDup (map op_id (blockOps m b)).
Hypothesis visit_step : forall op m m',
  I m -> op ∈ blockOps m b -> visit op m = Done m' ->
  I m'
  /\ (totalWeight w (behind (op_id op) (blockOps m' b))
      < w op + totalWeight w (behind (op_id op) (blockOps m b)))%nat.
Hypothesis visit_ends : forall op m, visit op m <> Stop FuelExhausted.

(** With fuel for everything that is pending the walk does not run out of
    fuel, and it keeps [I]. *)
Lemma walkFrom_ends fuel cur m :
  I m -> (forall op, cur = Some op -> op ∈ blockOps m b) ->
  (pending w b m cur <= fuel)%nat ->
  walkFrom visit fuel b cur m <> Stop FuelExhausted
  /\ forall m', walkFrom visit fuel b cur m = Done m' -> I m'.
Proof.
  revert cur m. induction fuel as [|fuel IH]; intros cur m Hm Hcur Hfuel.
  - destruct cur as [op|].
    + exfalso. simpl in Hfuel. pose proof (w_positive op). lia.
    + simpl. split; [done|]. by intros m' [= <-].
  - destruct cur as [op|]; simpl.
    2:{ split; [done|]. by intros m' [= <-]. }
    destruct (visit op m) as [m1|e] eqn:Hv; simpl.
    2:{ split; [|done]. intros [= ->]. by apply (visit_ends op m). }
    destruct (visit_step op m m1 Hm (Hcur op eq_refl) Hv) as [Hm1 Hlt].
    apply IH; [done| |].
    + intros op' Hnext. rewrite nextAfter_behind in Hnext.
      apply (behind_elem (op_id op)).
      destruct (behind (op_id op) (blockOps m1 b)); [done|].
      injection Hnext as ->. by left.
    + rewrite pending_next by auto. simpl in Hfuel. lia.
Qed.

End WalkEnds.

Lemma map_signature_withoutNames ns f ops :
  (forall o, op_id (f o) = op_id o) -> (forall o, op_name (f o) = op_name o) ->
  map signature (withoutNames ns (map f ops)) = map signature (withoutNames ns ops).
Proof.
  intros Hid Hname. unfold withoutNames.
  induction ops as [|o ops IH]; [done|]. cbn [map].
  destruct (decide (op_name o ∉ ns)) as [Hn|Hn].
  - rewrite !filter_cons_True by (by rewrite ?Hname). cbn [map].
    unfold signature at 1 3. by rewrite Hid, Hname, IH.
  - rewrite !filter_cons_False by (by rewrite ?Hname). done.
Qed.

Lemma withoutNames_cons ns o ops :
  withoutNames ns (o :: ops)
  = if decide (op_name o ∈ ns) then withoutNames ns ops else o :: withoutNames ns ops.
Proof.
  unfold withoutNames. destruct (decide (op_name o ∈ ns)).
  - apply filter_cons_False. intros H. by apply H.
  - by apply filter_cons_True.
Qed.

Lemma withoutNames_insertAfter ns id new ops :
  op_name new ∈ ns -> withoutNames ns (insertAfter id new ops) = withoutNames ns ops.
Proof.
  intros Hnew. induction ops as [|o ops IH]; [done|]. simpl.
  destruct (decide (op_id o = id)).
  - rewrite !(withoutNames_cons ns o), (withoutNames_cons ns new).
    by rewrite (decide_True _ _ Hnew).
  - rewrite !(withoutNames_cons ns o). by rewrite IH.
Qed.

Lemma withoutNames_insertBefore ns id new ops :
  op_name new ∈ ns -> withoutNames ns (insertBefore id new ops) = withoutNames ns ops.
Proof.
  intros Hnew. induction ops as [|o ops IH]; [done|]. simpl.
  destruct (decide (op_id o = id)).
  - rewrite (withoutNames_cons ns new). by rewrite (decide_True _ _ Hnew).
  - rewrite !(withoutNames_cons ns o). by rewrite IH.
Qed.

Lemma withoutNames_removeOp ns a ops :
  (forall o, o ∈ ops -> op_id o = a -> op_name o ∈ ns) ->
  withoutNames ns (removeOp a ops) = withoutNames ns ops.
Proof.
  induction ops as [|o ops IH]; intros Hall; [done|].
  assert (withoutNames ns (removeOp a ops) = withoutNames ns ops) as IH'.
  { apply IH. intros o' Ho'. apply Hall. by right. }
  unfold removeOp in *. destruct (decide (op_id o = a)) as [Hoa|Hoa].
  - rewrite filter_cons_False by (intros H; by apply H).
    rewrite IH', (withoutNames_cons ns o).
    rewrite decide_True; [done|]. apply Hall; [by left|done].
  - rewrite filter_cons_True by done.
    rewrite !(withoutNames_cons ns o). by rewrite IH'.
Qed.

Lemma moduleOk_eraseFront m : moduleOk m -> moduleOk (eraseFront m).
Proof.
  intros [[Hops Hblks] Hfresh]. unfold eraseFront.
  destruct (mod_body m) as [|t rest] eqn:Hbody; [done|].
  unfold moduleOk, uniqueIds, allOps, allBlocks in *. rewrite Hbody in *. simpl in *.
  rewrite map_app, concat_app, map_app in Hops.
  rewrite map_app in Hblks. rewrite map_app, concat_app in Hfresh.
  apply NoDup_app in Hops as (_ & _ & Hops).
  apply NoDup_app in Hblks as (_ & _ & Hblks).
  apply Forall_app in Hfresh as [_ Hfresh]. done.
Qed.

Module ResolveMemoryFacts.
Import ResolveMemory ResolveSpec ResolveSamples ResolveCases ResolveMemoryProofs.

Lemma resolve_visit_other op m : isGenericLoad (op_name op) = false -> visit op m = Done m.
Proof. unfold visit. by destruct (op_name op). Qed.

(** X1: a generic load of any width whose result has no use stops the pass:
    the rewrite site fails its first assertion, and so do the visit of the
    load and the walk over its block when it reaches the load. *)
Theorem unused_load_stops_the_pass (op : Operation) (m : ModuleOp) :
  isGenericLoad (op_name op) = true ->
  getUses m (OpResult (op_id op)) = [] ->
  replaceLoadWithLoadAddress op m = Stop (AssertionFailed "!op.getResult().use_empty()")
  /\ visit op m = Stop (AssertionFailed "!op.getResult().use_empty()")
  /\ forall fuel b,
       walkFrom visit (S fuel) b (Some op) m
       = Stop (AssertionFailed "!op.getResult().use_empty()").
Proof.
  intros Hload Hnone.
  assert (replaceLoadWithLoadAddress op m
          = Stop (AssertionFailed "!op.getResult().use_empty()")) as Hsite.
  { unfold replaceLoadWithLoadAddress, use_empty. by rewrite Hnone. }
  assert (visit op m = Stop (AssertionFailed "!op.getResult().use_empty()")) as Hvisit.
  { unfold visit. destruct (op_name op); try discriminate Hload; by rewrite Hsite. }
  split; [done|]. split; [done|]. intros fuel b. simpl. by rewrite Hvisit.
Qed.

Lemma unused_load_stops_the_pass_witness :
  visit (mkOp 10 Load32Op [arg 1; arg 2]) (eraseFront unusedLoad)
  = Stop (AssertionFailed "!op.getResult().use_empty()").
Proof.
  refine (proj1 (proj2 (unused_load_stops_the_pass
                          (mkOp 10 Load32Op [arg 1; arg 2]) (eraseFront unusedLoad) _ _))).
  - reflexivity.
  - vm_compute. reflexivity.
Defined.

Example unusedLoad_run :
  runOnOperation unusedLoad = Stop (AssertionFailed "!op.getResult().use_empty()").
Proof. vm_compute. reflexivity. Qed.

(** X2: on a module of two functions whose second function holds no generic
    load, the pass removes the first function and does nothing else: the
    result is the module [Operation::erase] leaves. *)
Theorem resolve_without_loads (m : ModuleOp) (front : TopLevelOp) (main : FuncOp) :
  mod_body m = [front; TopFunc main] ->
  isFuncOp front = true ->
  Forall (fun blk => NoDup (map op_id (blk_ops blk))
                     /\ Forall (fun o => isGenericLoad (op_name o) = false) (blk_ops blk))
    (fn_blocks main) ->
  runOnOperation m = Done (eraseFront m).
Proof.
  intros Hbody Hfront Hblocks. unfold runOnOperation.
  rewrite Hbody. cbn [length bool_decide_eq_true_2]. 
  rewrite bool_decide_eq_true_2 by done.
  cbn [assert mbind Result_bind head last fromOption]. rewrite Hfront.
  cbn [assert mbind Result_bind isFuncOp].
  assert (mod_body (eraseFront m) = [TopFunc main]) as Hrest.
  { unfold eraseFront. by rewrite Hbody. }
  rewrite Hrest. cbn [last fromOption mbind Result_bind topBlocks].
  apply foldM_unchanged. intros b _.
  assert (blockOps (eraseFront m) b = []
          \/ exists blk, blk ∈ fn_blocks main /\ blk_ops blk = blockOps (eraseFront m) b)
    as [Hnil|(blk & Hblk & Hops)].
  { destruct (blockOps (eraseFront m) b) as [|o ops] eqn:Hb; [by left|]. right.
    destruct (blockOps_lookupBlock (eraseFront m) b) as (B & HB & _ & HBops);
      [by rewrite Hb|].
    exists B. split; [|by rewrite HBops, Hb].
    unfold allBlocks in HB. rewrite Hrest in HB. simpl in HB.
    by rewrite app_nil_r in HB. }
  - unfold walkBlock. by rewrite Hnil.
  - rewrite Forall_forall in Hblocks. destruct (Hblocks blk Hblk) as [Hnd Hnone].
    apply walkBlock_unchanged.
    + by rewrite <- Hops.
    + intros o Ho. apply resolve_visit_other. rewrite <- Hops in Ho.
      rewrite Forall_forall in Hnone. by apply Hnone.
Qed.

Lemma resolve_without_loads_witness :
  runOnOperation storesOnly = Done (eraseFront storesOnly).
Proof.
  eapply resolve_without_loads.
  - reflexivity.
  - reflexivity.
  - refine (bool_decide_unpack _ _). vm_compute. exact I.
Defined.

Lemma resolve_visit_keeps op m m' :
  visit op m = Done m' ->
  forall b, map signature (withoutNames [LoadAddrOp] (blockOps m' b))
            = map signature (withoutNames [LoadAddrOp] (blockOps m b)).
Proof.
  unfold visit. intros H b. step H as [s m1] Hsite. injection H as <-.
  assert ((s = failure /\ m1 = m)
          \/ replaceLoadWithLoadAddress op m = Done (s, m1)) as [[_ ->]|Hrun].
  { destruct (op_name op); try (left; by injection Hsite as <- <-); by right. }
  - done.
  - apply replaceLoadWithLoadAddress_cases in Hrun
      as [[_ ->]|(_ & _ & l & r & ->)]; [done|].
    rewrite blockOps_replaceAllUsesWith, blockOps_createAfter.
    rewrite map_signature_withoutNames by (intros o; apply rewire_id || apply rewire_name).
    rewrite withoutNames_insertAfter; [done|]. simpl. by left.
Qed.

(** X3: what a completed run keeps. In every block, the operations other than
    address-producing loads are, by identity and name and in their order,
    those of the module without its first function: the pass removes none of
    them, renames none, reorders none, and adds address-producing loads
    only. *)
Theorem resolve_keeps_operations (m m' : ModuleOp) :
  runOnOperation m = Done m' ->
  forall b, map signature (withoutNames [LoadAddrOp] (blockOps m' b))
            = map signature (withoutNames [LoadAddrOp] (blockOps (eraseFront m) b)).
Proof.
  unfold runOnOperation. intros H.
  step H as ? Htwo. step H as front Hfront. step H as back Hback.
  step H as ? Hf1. step H as ? Hf2. step H as funcOp Hmain.
  eapply (foldM_invariant
            (fun x => forall b, map signature (withoutNames [LoadAddrOp] (blockOps x b))
                                = map signature (withoutNames [LoadAddrOp]
                                                   (blockOps (eraseFront m) b))));
    [|done|exact H].
  intros m1 blk m2 Hm1 Hw. unfold walkBlock in Hw.
  eapply (walkFrom_invariant
            (fun x => forall b, map signature (withoutNames [LoadAddrOp] (blockOps x b))
                                = map signature (withoutNames [LoadAddrOp]
                                                   (blockOps (eraseFront m) b))));
    [|exact Hm1|exact Hw].
  intros op y y' Hy Hv b. rewrite <- Hy. by eapply resolve_visit_keeps.
Qed.

Lemma resolve_keeps_operations_witness :
  (fun m' => map signature (withoutNames [LoadAddrOp] (blockOps m' 1)))
    <$> runOnOperation (loadThenStoreBase LoadOp)
  = Done [(10, LoadOp); (11, StoreOp)]%nat.
Proof.
  destruct (runOnOperation (loadThenStoreBase LoadOp)) as [m'|e] eqn:Hrun;
    [|vm_compute in Hrun; discriminate].
  simpl. f_equal.
  rewrite (resolve_keeps_operations (loadThenStoreBase LoadOp) m' Hrun 1%nat).
  vm_compute. reflexivity.
Defined.

Lemma classifyUse_ends m res u : classifyUse m res u <> Stop FuelExhausted.
Proof.
  unfold classifyUse. apply bind_ends; [by apply fromOption_ends|].
  intros owner _. unfold lhs.
  destruct (op_name owner); try done;
    (apply bind_ends; [by apply fromOption_ends|done]).
Qed.

Lemma scanUses_ends m res uses r k : scanUses m res uses r k <> Stop FuelExhausted.
Proof.
  revert r k. induction uses as [|u uses IH]; intros r k; simpl; [done|].
  apply bind_ends; [apply classifyUse_ends|]. intros [a i] _.
  apply bind_ends; [apply assert_ends|]. intros _ _.
  apply bind_ends; [apply assert_ends|]. intros _ _. apply IH.
Qed.

Lemma replaceLoadWithLoadAddress_ends op m :
  replaceLoadWithLoadAddress op m <> Stop FuelExhausted.
Proof.
  unfold replaceLoadWithLoadAddress.
  apply bind_ends; [apply assert_ends|]. intros _ _.
  apply bind_ends; [apply scanUses_ends|]. intros [r k] _.
  destruct k; [done|].
  apply bind_ends; [apply assert_ends|]. intros _ _.
  destruct (bool_decide _); [|done]. unfold lhs, rhs.
  apply bind_ends; [by apply fromOption_ends|]. intros l _.
  apply bind_ends; [by apply fromOption_ends|]. intros r' _.
  destruct (createAfter _ _ _ m) as [loadAddr m1].
  apply bind_ends; [apply assert_ends|done].
Qed.

Lemma resolve_visit_ends op m : visit op m <> Stop FuelExhausted.
Proof.
  unfold visit. apply bind_ends.
  - destruct (op_name op); try done; apply replaceLoadWithLoadAddress_ends.
  - by intros [s m'] _.
Qed.

(** A visit keeps every block in order, not only the one that is walked. *)
Lemma resolve_visit_blockOk b op m m' :
  blockOk b m -> visit op m = Done m' -> blockOk b m'.
Proof.
  intros [Hnd Hfresh] H. unfold visit in H.
  step H as [s m1] Hsite. injection H as <-.
  assert ((s = failure /\ m1 = m)
          \/ replaceLoadWithLoadAddress op m = Done (s, m1)) as [[_ ->]|Hrun].
  { destruct (op_name op); try (left; by injection Hsite as <- <-); by right. }
  { done. }
  apply replaceLoadWithLoadAddress_cases in Hrun
    as [[_ ->]|(_ & _ & l & r & ->)]; [done|].
  set (new := created LoadAddrOp [l; r] m).
  assert (forall k, k ∈ map op_id (blockOps m b) -> (k < mod_fresh m)%nat) as Hlt.
  { intros k (o & -> & Ho)%list_elem_of_fmap.
    rewrite Forall_forall in Hfresh. by apply Hfresh. }
  assert (map op_id (blockOps
            (replaceAllUsesWith (OpResult (op_id op)) (OpResult (mod_fresh m))
               (createAfter (op_id op) LoadAddrOp [l; r] m).2) b)
          = map op_id (insertAfter (op_id op) new (blockOps m b))) as Hids.
  { rewrite blockOps_replaceAllUsesWith, blockOps_createAfter, map_map.
    apply map_ext. intros o. apply rewire_id. }
  assert (map op_id (insertAfter (op_id op) new (blockOps m b)) ≡ₚ map op_id (blockOps m b)
          \/ map op_id (insertAfter (op_id op) new (blockOps m b))
             ≡ₚ mod_fresh m :: map op_id (blockOps m b)) as Hperm.
  { destruct (decide (op_id op ∈ map op_id (blockOps m b))) as [Hin|Hnin].
    - right. by rewrite ids_insertAfter.
    - left. by rewrite insertAfter_absent. }
  split.
  - rewrite Hids. destruct Hperm as [-> | ->]; [done|].
    apply NoDup_cons. split; [|done]. intros Hk%Hlt. lia.
  - rewrite Forall_forall. intros o Ho.
    assert (op_id o ∈ map op_id (insertAfter (op_id op) new (blockOps m b))) as Hin'.
    { rewrite <- Hids. apply list_elem_of_fmap. by exists o. }
    rewrite replaceAllUsesWith_eq. cbn [mod_fresh]. unfold createAfter. cbn [snd mod_fresh].
    destruct Hperm as [Hp|Hp]; rewrite Hp in Hin'.
    + apply Hlt in Hin'. lia.
    + apply elem_of_cons in Hin' as [->|Hk%Hlt]; lia.
Qed.

(** X4: the pass comes to an end. On a module whose identities are unique and
    were handed out by the counter, the walk over every block reaches the end
    of the block or stops at an assertion; the operations the pass inserts
    behind the cursor are visited once and insert nothing, so the walk never
    runs out of steps. *)
Theorem resolve_pass_ends (m : ModuleOp) :
  moduleOk m -> runOnOperation m <> Stop FuelExhausted.
Proof.
  intros Hok. unfold runOnOperation.
  apply bind_ends; [apply assert_ends|]. intros _ _.
  apply bind_ends; [by apply fromOption_ends|]. intros front _.
  apply bind_ends; [by apply fromOption_ends|]. intros back _.
  apply bind_ends; [apply assert_ends|]. intros _ _.
  apply bind_ends; [apply assert_ends|]. intros _ _.
  apply bind_ends; [by apply fromOption_ends|]. intros funcOp _.
  apply (foldM_ends (fun x => forall b, blockOk b x)).
  - intros x b Hx. unfold walkBlock.
    apply (walkFrom_ends visit b (fun x => forall b, blockOk b x) loadWeight).
    + intros o. unfold loadWeight. destruct (op_name _); lia.
    + intros m0 Hm0. apply Hm0.
    + intros op m0 m0' Hm0 Hin Hv. split.
      * intros b'. eapply resolve_visit_blockOk; [apply Hm0|exact Hv].
      * exact (proj2 (resolve_visit_step b op m0 m0' (Hm0 b) Hin Hv)).
    + apply resolve_visit_ends.
    + done.
    + intros op Hop. destruct (blockOps x b); [done|]. injection Hop as ->. by left.
    + rewrite pending_head. apply totalWeight_bound.
      intros o. unfold loadWeight. destruct (op_name _); lia.
  - intros b. apply moduleOk_blockOk. by apply moduleOk_eraseFront.
Qed.

Lemma loadThenStoreBase_ok : moduleOk (loadThenStoreBase LoadOp).
Proof. apply (bool_decide_unpack _ (dec := moduleOk_dec _)). vm_compute. exact I. Qed.

Lemma resolve_pass_ends_witness :
  runOnOperation (loadThenStoreBase LoadOp) <> Stop FuelExhausted.
Proof. exact (resolve_pass_ends _ loadThenStoreBase_ok). Defined.

(** X5: a specialised load cannot be visited again. When the rewrite site
    returns [success], the load is an 8-byte generic load that is left in the
    module without uses; the rewrite site and the visit, applied to it once
    more, stop at the first assertion of the site. *)
Theorem specialised_load_stops_a_second_visit (op : Operation) (m m' : ModuleOp) :
  replaceLoadWithLoadAddress op m = Done (success, m') ->
  op_name op = LoadOp
  /\ getUses m' (OpResult (op_id op)) = []
  /\ replaceLoadWithLoadAddress op m'
     = Stop (AssertionFailed "!op.getResult().use_empty()")
  /\ visit op m' = Stop (AssertionFailed "!op.getResult().use_empty()").
Proof.
  intros H. pose proof H as Hrun. unfold replaceLoadWithLoadAddress in H.
  step H as ? Hused. step H as [replaceWithMem keepAsIs] Hscan.
  destruct keepAsIs; [discriminate|].
  step H as ? Hisa. apply assert_Done in Hisa. rewrite Hisa in H.
  apply bool_decide_eq_true in Hisa.
  step H as l Hl. step H as r Hr.
  destruct (createAfter (op_id op) LoadAddrOp [l; r] m) as [loadAddr m1].
  step H as ? Hempty. injection H as Hm'. subst m'. apply assert_Done in Hempty.
  assert (getUses (replaceAllUsesWith (OpResult (op_id op)) loadAddr m1)
            (OpResult (op_id op)) = []) as Hnone.
  { unfold use_empty in Hempty.
    destruct (getUses (replaceAllUsesWith (OpResult (op_id op)) loadAddr m1)
                (OpResult (op_id op))); [done|discriminate]. }
  assert (replaceLoadWithLoadAddress op
            (replaceAllUsesWith (OpResult (op_id op)) loadAddr m1)
          = Stop (AssertionFailed "!op.getResult().use_empty()")) as Hsite.
  { unfold replaceLoadWithLoadAddress, use_empty. by rewrite Hnone. }
  split; [done|]. split; [done|]. split; [done|].
  unfold visit. by rewrite Hisa, Hsite.
Qed.

Lemma specialised_load_stops_a_second_visit_witness :
  exists m',
    replaceLoadWithLoadAddress (mkOp 10 LoadOp [arg 1; arg 2])
      (eraseFront (loadThenStoreBase LoadOp)) = Done (success, m')
    /\ visit (mkOp 10 LoadOp [arg 1; arg 2]) m'
       = Stop (AssertionFailed "!op.getResult().use_empty()").
Proof.
  destruct (replaceLoadWithLoadAddress (mkOp 10 LoadOp [arg 1; arg 2])
              (eraseFront (loadThenStoreBase LoadOp))) as [[s m']|e] eqn:Hrun;
    [|vm_compute in Hrun; discriminate].
  assert (s = success) as ->.
  { pose proof Hrun as Hrun'. vm_compute in Hrun'. by injection Hrun' as <- _. }
  exists m'. split; [done|].
  exact (proj2 (proj2 (proj2 (specialised_load_stops_a_second_visit _ _ _ Hrun)))).
Defined.

Example resolved_module_not_resolved_again :
  runOnOperation (loadThenStoreBase LoadOp) ≫= (fun m' => runOnOperation (withEntry m'))
  = Stop (AssertionFailed "!op.getResult().use_empty()").
Proof. vm_compute. reflexivity. Qed.

End ResolveMemoryFacts.

(** ** One operation replaced by a new one behind it *)

Lemma getUses_createAfter id name operands m v :
  v ∉ operands -> getUses (createAfter id name operands m).2 v = getUses m v.
Proof. intros Hv. unfold getUses, createAfter. simpl. by rewrite addUses_other. Qed.

Lemma uses_point m v u : wellFormed m -> u ∈ getUses m v -> usePointsTo m v u.
Proof.
  intros (_ & _ & Huses) Hu. unfold getUses in Hu.
  destruct (mod_uses m !! v) as [us|] eqn:Hus; [|by apply elem_of_nil in Hu].
  apply Huses in Hus. rewrite Forall_forall in Hus. by apply Hus.
Qed.

(** The new operation takes over every use of the old one. *)
Lemma replaced_by_created (op : Operation) (m : ModuleOp) (b : nat)
    (name : OpName) (operands : list Value) :
  wellFormed m -> op ∈ blockOps m b ->
  (forall v, v ∈ operands -> v ∈ op_operands op) ->
  let old := OpResult (op_id op) in
  let new := OpResult (mod_fresh m) in
  let m' := replaceAllUsesWith old new (createAfter (op_id op) name operands m).2 in
  getUses m' old = []
  /\ getUses m' new = rev (getUses m old)
  /\ (forall u, u ∈ getUses m old ->
        exists o, lookupOp m' (use_owner u) = Some o
                  /\ op_operands o !! use_index u = Some new)
  /\ map signature (blockOps m' b)
     = map signature (insertAfter (op_id op) (created name operands m) (blockOps m b))
  /\ nextAfter (op_id op) (blockOps m' b) = Some (created name operands m).
Proof.
  intros Hwf Hin Hsub old new m'.
  pose proof Hwf as (Hids & Hops & Huses).
  assert (op ∈ allOps m) as Hop by (by eapply blockOps_allOps).
  assert (op_id op < mod_fresh m)%nat as Hfresh.
  { rewrite Forall_forall in Hids. by apply Hids. }
  assert ((old ∉ operands) /\ (new ∉ operands)) as [Hold_in Hnew_in].
  { rewrite Forall_forall in Hops. specialize (Hops op Hop).
    rewrite Forall_forall in Hops.
    split; intros Hv%Hsub%Hops; simpl in Hv; lia. }
  assert (old <> new) as Hon by (unfold old, new; intros [= ?]; lia).
  assert (getUses (createAfter (op_id op) name operands m).2 old = getUses m old) as Hold
    by (by apply getUses_createAfter).
  assert (getUses (createAfter (op_id op) name operands m).2 new = []) as Hnew.
  { rewrite getUses_createAfter by done.
    by apply ResolveMemoryProofs.fresh_value_unused. }
  assert (forall u, u ∈ getUses m old -> use_owner u <> mod_fresh m) as Howners.
  { intros u Hu. pose proof (uses_point _ _ _ Hwf Hu) as Hpt. unfold usePointsTo in Hpt.
    destruct (lookupOp m (use_owner u)) as [o|] eqn:Ho; [|done].
    apply lookupOp_Some in Ho as [Hoin Hoid].
    rewrite Forall_forall in Hids. specialize (Hids o Hoin). lia. }
  split; [by apply getUses_replaceAllUsesWith_old|].
  split; [|split; [|split]].
  - unfold m'. rewrite getUses_replaceAllUsesWith_new, Hold, Hnew. by rewrite app_nil_r.
  - intros u Hu.
    pose proof (uses_point _ _ _ Hwf Hu) as Hpt. pose proof (Howners u Hu) as Hofresh.
    unfold usePointsTo in Hpt.
    destruct (lookupOp m (use_owner u)) as [o|] eqn:Ho; [|done]. simpl in Hpt.
    pose proof (lookupOp_Some _ _ _ Ho) as [Hoin Hoid].
    exists (rewire (getUses m old) new o). split.
    + unfold m'. rewrite lookupOp_replaceAllUsesWith, Hold.
      rewrite lookupOp_createAfter by done. by rewrite Ho.
    + apply rewire_use; [done|done|]. by eapply lookup_lt_Some.
  - unfold m'. rewrite blockOps_replaceAllUsesWith, Hold.
    rewrite blockOps_createAfter, map_map.
    apply map_ext. intros o. unfold signature. by rewrite rewire_id, rewire_name.
  - unfold m'. rewrite blockOps_replaceAllUsesWith, Hold.
    rewrite blockOps_createAfter.
    rewrite nextAfter_map by apply rewire_id.
    rewrite nextAfter_insertAfter.
    2:{ apply list_elem_of_fmap. by exists op. }
    simpl. f_equal. apply ResolveMemoryProofs.rewire_other.
    intros u Hu. simpl. by apply Howners.
Qed.

(** ** Positions in a block *)

Lemma indexOf_elem x ops i : indexOf x ops = Some i -> x ∈ map op_id ops.
Proof.
  revert i. induction ops as [|o ops IH]; intros i; simpl; [done|].
  destruct (decide (op_id o = x)) as [<-|Hne]; [by left|].
  destruct (indexOf x ops) as [j|]; [|done]. intros _. right. by eapply IH.
Qed.

Lemma indexOf_present x ops : x ∈ map op_id ops -> is_Some (indexOf x ops).
Proof.
  induction ops as [|o ops IH]; simpl; intros Hx.
  - by apply elem_of_nil in Hx.
  - destruct (decide (op_id o = x)); [by eexists|].
    apply elem_of_cons in Hx as [?|Hx]; [congruence|].
    destruct (IH Hx) as [j ->]. by eexists.
Qed.

Lemma elem_of_ids_insertBefore e new x ops :
  x ∈ map op_id ops -> x ∈ map op_id (insertBefore e new ops).
Proof.
  induction ops as [|o ops IH]; simpl; intros Hx; [done|].
  destruct (decide (op_id o = e)); simpl.
  - by right.
  - apply elem_of_cons in Hx as [->|Hx]; [by left|]. right. by apply IH.
Qed.

(** An operation in front of [e] is still in front of it when another
    operation has been taken out and put back right before [e]. *)
Lemma indexOf_move_other (A : Operation) (a e x : nat) (ops : list Operation) ix ie :
  op_id A = a -> a <> e -> x <> a ->
  indexOf x ops = Some ix -> indexOf e ops = Some ie -> (ix < ie)%nat ->
  exists ix' ie',
    indexOf x (insertBefore e A (removeOp a ops)) = Some ix'
    /\ indexOf e (insertBefore e A (removeOp a ops)) = Some ie'
    /\ (ix' < ie')%nat.
Proof.
  intros HA Hae Hxa. revert ix ie.
  induction ops as [|o ops IH]; intros ix ie Hx He Hlt; [done|].
  simpl in Hx, He.
  destruct (decide (op_id o = e)) as [Hoe|Hoe].
  { injection He as <-. lia. }
  destruct (indexOf e ops) as [je|] eqn:Hje; [|done]. injection He as <-.
  assert (forall L, indexOf e (o :: L) = S <$> indexOf e L) as Hcons_e.
  { intros L. simpl. by rewrite decide_False. }
  destruct (decide (op_id o = x)) as [Hox|Hox].
  - injection Hx as <-.
    assert (removeOp a (o :: ops) = o :: removeOp a ops) as ->.
    { unfold removeOp. rewrite filter_cons_True; [done|congruence]. }
    simpl. rewrite decide_False by done. simpl.
    rewrite decide_True by done. rewrite decide_False by done.
    destruct (indexOf_present e (insertBefore e A (removeOp a ops))) as [j Hj].
    { apply elem_of_ids_insertBefore, elem_of_ids_removeOp; [congruence|].
      by eapply indexOf_elem. }
    rewrite Hj. exists 0%nat, (S j). repeat split. lia.
  - destruct (indexOf x ops) as [jx|] eqn:Hjx; [|done]. injection Hx as <-.
    destruct (IH jx je eq_refl eq_refl ltac:(lia)) as (ix' & ie' & Hx' & He' & Hlt').
    destruct (decide (op_id o = a)) as [Hoa|Hoa].
    + assert (removeOp a (o :: ops) = removeOp a ops) as ->.
      { unfold removeOp. rewrite filter_cons_False; [done|]. intros H. by apply H. }
      eauto.
    + assert (removeOp a (o :: ops) = o :: removeOp a ops) as ->.
      { unfold removeOp. by rewrite filter_cons_True. }
      simpl. rewrite decide_False by done. simpl.
      rewrite !decide_False by done. rewrite Hx', He'.
      exists (S ix'), (S ie'). repeat split. lia.
Qed.

Lemma isBeforeInBlock_true m x e :
  isBeforeInBlock m x e = Done true <->
  exists blk ix ie,
    getBlock m x = Some blk /\ getBlock m e = Some blk
    /\ indexOf x (blockOps m blk) = Some ix
    /\ indexOf e (blockOps m blk) = Some ie /\ (ix < ie)%nat.
Proof.
  unfold isBeforeInBlock. split.
  - intros H. step H as blk Hblk. apply fromOption_Done in Hblk.
    step H as ? Hsame. apply assert_Done, bool_decide_eq_true in Hsame.
    step H as ix Hix. apply fromOption_Done in Hix.
    step H as ie Hie. apply fromOption_Done in Hie.
    injection H as Hlt. apply bool_decide_eq_true in Hlt. eauto 10.
  - intros (blk & ix & ie & Hx & He & Hix & Hie & Hlt).
    rewrite Hx. cbn [fromOption mbind Result_bind].
    rewrite bool_decide_eq_true_2 by done. cbn [assert mbind Result_bind].
    rewrite Hix, Hie. cbn [fromOption mbind Result_bind].
    by rewrite bool_decide_eq_true_2.
Qed.

(** Moving [a] in front of [e] keeps in front of [e] what was there. *)
Lemma moveBefore_keeps_front m m' a e x :
  uniqueIds m -> a <> e -> x <> a ->
  isBeforeInBlock m a e = Done false ->
  moveBefore a e m = Done m' ->
  isBeforeInBlock m x e = Done true ->
  isBeforeInBlock m' x e = Done true.
Proof.
  intros Hu Hae Hxa Hnot Hmove Hx.
  pose proof (isBeforeInBlock_Done _ _ _ _ Hnot) as (blk' & Hablk & Heblk').
  pose proof (moveBefore_reordered a e m m' blk' Hu Hae Hablk Heblk' Hmove) as Hre.
  pose proof (reordered_uniqueIds _ _ Hre Hu) as Hu'.
  apply isBeforeInBlock_true in Hx as (blk & ix & ie & Hxb & Heb & Hix & Hie & Hlt).
  unfold moveBefore in Hmove. step Hmove as cur Hcur. apply fromOption_Done in Hcur.
  injection Hmove as <-.
  apply lookupOp_Some in Hcur as [_ Hid].
  destruct (indexOf_move_other cur a e x (blockOps m blk) ix ie Hid Hae Hxa Hix Hie Hlt)
    as (ix' & ie' & Hix' & Hie' & Hlt').
  set (m' := mapBlocks (mapBlock (fun ops => insertBefore e cur (removeOp a ops))) m) in *.
  assert (blockOps m' blk = insertBefore e cur (removeOp a (blockOps m blk))) as Hops.
  { unfold m'. by rewrite blockOps_mapBlocks. }
  apply isBeforeInBlock_true. exists blk, ix', ie'.
  rewrite Hops. repeat split; try done.
  - apply blockOps_getBlock; [done|]. rewrite Hops. by eapply indexOf_elem.
  - apply blockOps_getBlock; [done|]. rewrite Hops. by eapply indexOf_elem.
Qed.

(** ** The block of an operation *)

Lemma getBlock_body m1 m2 x : mod_body m1 = mod_body m2 -> getBlock m1 x = getBlock m2 x.
Proof. unfold getBlock, allBlocks. by intros ->. Qed.

Lemma getBlock_reordered m' m x : reordered m' m -> getBlock m' x = getBlock m x.
Proof.
  intros H%reordered_allBlocks. unfold getBlock.
  induction H as [|b' b bs' bs (Hid & _ & Hp) _ IH]; [done|]. simpl.
  assert (bool_decide (x ∈ map op_id (blk_ops b')) = bool_decide (x ∈ map op_id (blk_ops b)))
    as ->.
  { apply bool_decide_ext. by rewrite Hp. }
  destruct (bool_decide _); [simpl; by rewrite Hid|exact IH].
Qed.

Lemma getBlock_mapBlocks f m x :
  (forall ops, x ∈ map op_id (f ops) <-> x ∈ map op_id ops) ->
  getBlock (mapBlocks (mapBlock f) m) x = getBlock m x.
Proof.
  intros Hf. unfold getBlock. rewrite allBlocks_mapBlocks.
  induction (allBlocks m) as [|b bs IH]; [done|]. simpl.
  assert (bool_decide (x ∈ map op_id (f (blk_ops b)))
          = bool_decide (x ∈ map op_id (blk_ops b))) as ->.
  { apply bool_decide_ext. apply Hf. }
  destruct (bool_decide _); [done|exact IH].
Qed.

Lemma elem_of_ids_insertAfter id new x ops :
  x <> op_id new -> x ∈ map op_id (insertAfter id new ops) <-> x ∈ map op_id ops.
Proof.
  intros Hne. induction ops as [|o ops IH]; [done|]. simpl.
  destruct (decide (op_id o = id)); simpl.
  - rewrite !elem_of_cons. split; [|tauto].
    intros [?|[?|?]]; [by left|done|by right].
  - rewrite !elem_of_cons, IH. done.
Qed.

Lemma getBlock_createAfter id name operands m x :
  x <> mod_fresh m -> getBlock (createAfter id name operands m).2 x = getBlock m x.
Proof.
  intros Hne.
  rewrite (getBlock_body _ _ _ (createAfter_body id name operands m)).
  apply getBlock_mapBlocks. intros ops. by apply elem_of_ids_insertAfter.
Qed.

Lemma getBlock_replaceAllUsesWith old new m x :
  getBlock (replaceAllUsesWith old new m) x = getBlock m x.
Proof.
  rewrite replaceAllUsesWith_eq.
  etrans; [apply (getBlock_body _ (mapOps (rewire (getUses m old) new) m)); reflexivity|].
  unfold mapOps. apply getBlock_mapBlocks. intros ops.
  rewrite map_map. erewrite map_ext; [done|]. intros o. apply rewire_id.
Qed.

Module BtorLivenessFacts.
Import BtorLiveness LivenessSamples LivenessCases BtorLivenessProofs.

(** X6: a write whose result has one use, by a branch of its own block, is
    rewritten in place: the in-place write with the operands (value, base,
    index) of the write is created right behind it, the branch reads the new
    result, and the old result is left without uses. *)
Theorem write_feeding_branch_rewritten
    (op : Operation) (m : ModuleOp) (blk : nat) (value base index : Value)
    (u : Use) (branch : Operation) :
  wellFormed m ->
  op ∈ blockOps m blk ->
  op_name op = WriteOp ->
  op_operands op !! 0%nat = Some value ->
  op_operands op !! 1%nat = Some base ->
  op_operands op !! 2%nat = Some index ->
  getBlock m (op_id op) = Some blk ->
  getUses m (OpResult (op_id op)) = [u] ->
  getBlock m (use_owner u) = Some blk ->
  lookupOp m (use_owner u) = Some branch ->
  op_name branch = BranchOp ->
  let new := OpResult (mod_fresh m) in
  let m' := replaceAllUsesWith (OpResult (op_id op)) new
              (createAfter (op_id op) WriteInPlaceOp [value; base; index] m).2 in
  replaceWithWriteInPlace op m = Done (success, m')
  /\ visit op m = Done m'
  /\ getUses m' (OpResult (op_id op)) = []
  /\ getUses m' new = [u]
  /\ (exists o, lookupOp m' (use_owner u) = Some o
                /\ op_operands o !! use_index u = Some new)
  /\ nextAfter (op_id op) (blockOps m' blk)
     = Some (created WriteInPlaceOp [value; base; index] m).
Proof.
  intros Hwf Hin Hname Hv Hb Hi Hblk Huses Hublk Hbr Hbrname new m'.
  destruct (replaced_by_created op m blk WriteInPlaceOp [value; base; index] Hwf Hin)
    as (Hempty & Hnew & Hrewired & _ & Hnext).
  { intros v Hv'. rewrite !elem_of_cons, elem_of_nil in Hv'.
    destruct Hv' as [->|[->|[->|[]]]]; by eapply list_elem_of_lookup_2. }
  fold new m' in Hempty, Hnew, Hrewired, Hnext.
  assert (replaceWithWriteInPlace op m = Done (success, m')) as Hsite.
  { unfold replaceWithWriteInPlace, resultIsLiveAfter.
    rewrite Hblk. cbn [fromOption mbind Result_bind].
    unfold isUsedOutsideOfBlock. rewrite Huses. cbn [existsb].
    rewrite Hublk, bool_decide_eq_true_2 by done.
    cbn [negb orb assert mbind Result_bind].
    unfold hasOneUse. rewrite Huses. cbn [negb head fromOption mbind Result_bind].
    rewrite Hbr. cbn [fromOption mbind Result_bind]. rewrite Hbrname.
    cbn [mbind Result_bind succeeded]. unfold operand. rewrite Hv, Hb, Hi.
    cbn [fromOption mbind Result_bind].
    destruct (createAfter (op_id op) WriteInPlaceOp [value; base; index] m)
      as [writeInPlace m2] eqn:Hc.
    assert (m2 = (createAfter (op_id op) WriteInPlaceOp [value; base; index] m).2
            /\ writeInPlace = new) as [-> ->].
    { rewrite Hc. split; [done|]. unfold createAfter in Hc. by injection Hc as <- _. }
    change (replaceAllUsesWith (OpResult (op_id op)) new
              (createAfter (op_id op) WriteInPlaceOp [value; base; index] m).2) with m'.
    unfold use_empty. by rewrite Hempty. }
  split; [done|]. split.
  { unfold visit. rewrite Hname, Hsite. done. }
  split; [done|]. split; [by rewrite Hnew, Huses|].
  split; [|done]. apply Hrewired. rewrite Huses. by left.
Qed.

Lemma writeThenBranch_wellFormed : wellFormed writeThenBranch.
Proof. apply (bool_decide_unpack _ (dec := wellFormed_dec _)). vm_compute. exact I. Qed.

Lemma write_feeding_branch_rewritten_witness :
  visit (mkOp 10 WriteOp [arg 1; A; arg 2]) writeThenBranch
  = Done (replaceAllUsesWith (OpResult 10) (OpResult 12)
            (createAfter 10 WriteInPlaceOp [arg 1; A; arg 2] writeThenBranch).2).
Proof.
  refine (proj1 (proj2 (write_feeding_branch_rewritten
            (mkOp 10 WriteOp [arg 1; A; arg 2]) writeThenBranch 1 (arg 1) A (arg 2)
            {| use_owner := 11; use_index := 0 |} (br 11 [OpResult 10])
            writeThenBranch_wellFormed _ _ _ _ _ _ _ _ _ _))).
  - vm_compute. apply list_elem_of_here.
  - reflexivity.
  - reflexivity.
  - reflexivity.
  - reflexivity.
  - vm_compute. reflexivity.
  - vm_compute. reflexivity.
  - vm_compute. reflexivity.
  - vm_compute. reflexivity.
  - reflexivity.
Defined.

Example writeThenBranch_run :
  (fun m' => map signature (blockOps m' 1)) <$> runOnOperation writeThenBranch
  = Done [(10, WriteOp); (12, WriteInPlaceOp); (11, BranchOp)]%nat.
Proof. vm_compute. reflexivity. Qed.

(** *** The reads behind a select *)

Lemma moveReadOpsBeforeUsers_front users opPtr m m' :
  uniqueIds m ->
  moveReadOpsBeforeUsers users opPtr m = Done (success, m') ->
  (forall x, isBeforeInBlock m x opPtr = Done true ->
             isBeforeInBlock m' x opPtr = Done true)
  /\ (forall u, u ∈ users -> use_owner u <> opPtr ->
                isBeforeInBlock m' (use_owner u) opPtr = Done true).
Proof.
  revert m. induction users as [|u users IH]; intros m Hu H.
  - injection H as <-. split; [done|]. intros u Hin. by apply elem_of_nil in Hin.
  - simpl in H. step H as notBefore Hnot. destruct notBefore.
    + destruct (bool_decide (use_owner u ≠ opPtr)) eqn:Hne; [|discriminate].
      apply bool_decide_eq_true in Hne.
      step Hnot as before Hbefore. injection Hnot as Hb.
      apply negb_true_iff in Hb. subst before.
      step H as cur Hcur.
      destruct (negb (opsMatchOp cur ReadOp)); [discriminate|].
      step H as m1 Hmove. step H as before' Hbefore'. step H as ? Hassert.
      apply assert_Done in Hassert. subst before'.
      pose proof (isBeforeInBlock_Done _ _ _ _ Hbefore) as (blk & Ha & He).
      pose proof (moveBefore_reordered _ _ _ _ _ Hu Hne Ha He Hmove) as Hre.
      pose proof (reordered_uniqueIds _ _ Hre Hu) as Hu1.
      destruct (IH m1 Hu1 H) as [IH1 IH2]. split.
      * intros y Hy. apply IH1.
        apply (moveBefore_keeps_front m m1 (use_owner u) opPtr y); try done.
        intros ->. congruence.
      * intros u' [->|Hin]%elem_of_cons Hne'; [by apply IH1|by apply IH2].
    + destruct (IH m Hu H) as [IH1 IH2]. split; [done|].
      intros u' [->|Hin]%elem_of_cons Hne'; [|by apply IH2].
      apply IH1. rewrite bool_decide_eq_true_2 in Hnot by done.
      step Hnot as before Hbefore. injection Hnot as Hb.
      apply negb_false_iff in Hb. by subst before.
Qed.

Lemma moveReadOpsBeforeUsers_declined users opPtr m m' :
  moveReadOpsBeforeUsers users opPtr m = Done (failure, m') ->
  exists u cur,
    u ∈ users /\ use_owner u <> opPtr
    /\ isBeforeInBlock m' (use_owner u) opPtr = Done false
    /\ lookupOp m' (use_owner u) = Some cur /\ op_name cur <> ReadOp.
Proof.
  revert m. induction users as [|u users IH]; intros m H; [discriminate|].
  simpl in H. step H as notBefore Hnot.
  assert (forall m0, moveReadOpsBeforeUsers users opPtr m0 = Done (failure, m') ->
            exists u0 cur, u0 ∈ u :: users /\ use_owner u0 <> opPtr
              /\ isBeforeInBlock m' (use_owner u0) opPtr = Done false
              /\ lookupOp m' (use_owner u0) = Some cur /\ op_name cur <> ReadOp) as Hrest.
  { intros m0 H0. destruct (IH m0 H0) as (u0 & cur & Hin & Hrest).
    exists u0, cur. split; [by right|done]. }
  destruct notBefore; [|by eapply Hrest].
  destruct (bool_decide (use_owner u ≠ opPtr)) eqn:Hne; [|discriminate].
  apply bool_decide_eq_true in Hne.
  step Hnot as before Hbefore. injection Hnot as Hb.
  apply negb_true_iff in Hb. subst before.
  step H as cur Hcur. apply fromOption_Done in Hcur. unfold opsMatchOp in H.
  destruct (bool_decide (op_name cur = ReadOp)) eqn:Hread; simpl in H.
  - step H as m1 Hmove. step H as before' Hbefore'. step H as ? Hassert.
    by eapply Hrest.
  - injection H as <-. apply bool_decide_eq_false in Hread.
    exists u, cur. split; [by left|done].
Qed.

(** X7: the reads behind a select. [moveReadOpsBefore] only changes the order
    of operations inside blocks. When it returns [success], every user of
    the array other than the select stands in front of the select; when it
    returns [failure], a user of the array that is no read stands at or
    behind the select. *)
Theorem reads_moved_in_front_of_select
    (array : Value) (opPtr : nat) (m : ModuleOp) (s : LogicalResult) (m' : ModuleOp) :
  uniqueIds m ->
  moveReadOpsBefore array opPtr m = Done (s, m') ->
  reordered m' m
  /\ (s = success ->
      forall u, u ∈ getUses m array -> use_owner u <> opPtr ->
                isBeforeInBlock m' (use_owner u) opPtr = Done true)
  /\ (s = failure ->
      exists u cur,
        u ∈ getUses m array /\ use_owner u <> opPtr
        /\ isBeforeInBlock m' (use_owner u) opPtr = Done false
        /\ lookupOp m' (use_owner u) = Some cur /\ op_name cur <> ReadOp).
Proof.
  unfold moveReadOpsBefore. intros Hu H. split; [|split].
  - apply (moveReadOpsBeforeUsers_kept uniqueIds reordered reordered_refl reordered_trans)
      in H; [done| |done].
    intros a e m0 m0' cur Hu0 Hne Hbefore _ _ Hmove.
    apply isBeforeInBlock_Done in Hbefore as (blk & Ha & He).
    assert (reordered m0' m0) by (by eapply moveBefore_reordered).
    split; [done|]. by eapply reordered_uniqueIds.
  - intros ->. exact (proj2 (moveReadOpsBeforeUsers_front _ _ _ _ Hu H)).
  - intros ->. by apply (moveReadOpsBeforeUsers_declined _ _ m).
Qed.

Lemma selectThenRead_unique : uniqueIds selectThenRead.
Proof. apply (bool_decide_unpack _ (dec := uniqueIds_dec _)). vm_compute. exact I. Qed.

Lemma reads_moved_in_front_of_select_witness :
  exists m',
    moveReadOpsBefore A 11 selectThenRead = Done (success, m')
    /\ isBeforeInBlock m' 12 11 = Done true.
Proof.
  destruct (moveReadOpsBefore A 11 selectThenRead) as [[s m']|e] eqn:Hrun;
    [|vm_compute in Hrun; discriminate].
  assert (s = success) as ->.
  { pose proof Hrun as Hrun'. vm_compute in Hrun'. by injection Hrun' as <- _. }
  exists m'. split; [done|].
  refine (proj1 (proj2 (reads_moved_in_front_of_select A 11 selectThenRead success m'
                          selectThenRead_unique Hrun)) eq_refl
            {| use_owner := 12; use_index := 0 |} _ _).
  - vm_compute. apply list_elem_of_here.
  - simpl. lia.
Defined.

Example selectThenRead_run :
  map signature (blockOps selectThenRead 1)
  = [(10, WriteOp); (11, IteOp); (12, ReadOp); (13, BranchOp)]%nat
  /\ (fun m' => map signature (blockOps m' 1)) <$> runOnOperation selectThenRead
     = Done [(10, WriteOp); (14, WriteInPlaceOp); (12, ReadOp); (11, IteOp);
             (13, BranchOp)]%nat.
Proof. split; vm_compute; reflexivity. Qed.

(** X8: the shape the select check insists on. Whenever [usedInITEPattern]
    returns, with either status, the select has exactly one use, by a
    branch; one of its two data operands is the result of a write that has
    exactly one use, the other is the array that write was applied to; and the
    status is that of [moveReadOpsBefore] on this array and the select. On
    any other shape the check does not return: it stops. *)
Theorem select_check_shape
    (iteOp : Operation) (m : ModuleOp) (s : LogicalResult) (m' : ModuleOp) :
  usedInITEPattern iteOp m = Done (s, m') ->
  exists u branch trueValue falseValue w def array,
    getUses m (OpResult (op_id iteOp)) = [u]
    /\ lookupOp m (use_owner u) = Some branch /\ op_name branch = BranchOp
    /\ op_operands iteOp !! 1%nat = Some trueValue
    /\ op_operands iteOp !! 2%nat = Some falseValue
    /\ ((trueValue = OpResult w /\ array = falseValue)
        \/ (falseValue = OpResult w /\ array = trueValue))
    /\ lookupOp m w = Some def /\ op_name def = WriteOp
    /\ hasOneUse m (OpResult w) = true
    /\ op_operands def !! 1%nat = Some array
    /\ moveReadOpsBefore array (op_id iteOp) m = Done (s, m').
Proof.
  assert (forall v, hasOneUse m v = true -> exists u, getUses m v = [u]) as Hone.
  { intros v Hv. unfold hasOneUse in Hv.
    destruct (getUses m v) as [|u [|u' us]]; try discriminate. by exists u. }
  assert (forall v, opsMatchValue m v WriteOp = Done true ->
            exists w def, v = OpResult w /\ lookupOp m w = Some def
                          /\ op_name def = WriteOp) as Hwrite.
  { intros v Hv. destruct v as [w| |]; try discriminate. simpl in Hv.
    step Hv as def Hdef. apply fromOption_Done in Hdef.
    injection Hv as Hn. apply bool_decide_eq_true in Hn. eauto. }
  unfold usedInITEPattern. intros H.
  step H as ? H1. apply assert_Done, Hone in H1 as [u Huses].
  rewrite Huses in H. step H as use Huse. injection Huse as <-.
  step H as branch Hbranch. apply fromOption_Done in Hbranch.
  step H as ? H2. apply assert_Done, bool_decide_eq_true in H2.
  step H as trueValue Ht. apply fromOption_Done in Ht.
  step H as falseValue Hf. apply fromOption_Done in Hf.
  step H as trueIsWrite Htw. destruct trueIsWrite.
  - step H as ? H3. apply assert_Done in H3.
    apply Hwrite in Htw as (w & def & -> & Hdef & Hname).
    step H as def' Hdef'. simpl in Hdef'. rewrite Hdef in Hdef'. injection Hdef' as <-.
    step H as base Hbase. apply fromOption_Done in Hbase.
    step H as ? H4. apply assert_Done, bool_decide_eq_true in H4. subst base.
    exists u, branch, (OpResult w), falseValue, w, def, falseValue. eauto 15.
  - step H as falseIsWrite Hfw. step H as ? H3. apply assert_Done in H3. subst falseIsWrite.
    step H as ? H4. apply assert_Done in H4.
    apply Hwrite in Hfw as (w & def & -> & Hdef & Hname).
    step H as def' Hdef'. simpl in Hdef'. rewrite Hdef in Hdef'. injection Hdef' as <-.
    step H as base Hbase. apply fromOption_Done in Hbase.
    step H as ? H5. apply assert_Done, bool_decide_eq_true in H5. subst base.
    exists u, branch, trueValue, (OpResult w), w, def, trueValue. eauto 15.
Qed.

Lemma select_check_shape_witness :
  exists m', moveReadOpsBefore A 11 selectThenRead = Done (success, m').
Proof.
  destruct (usedInITEPattern (mkOp 11 IteOp [arg 3; OpResult 10; A]) selectThenRead)
    as [[s m']|e] eqn:Hrun; [|vm_compute in Hrun; discriminate].
  assert (s = success) as ->.
  { pose proof Hrun as Hrun'. vm_compute in Hrun'. by injection Hrun' as <- _. }
  destruct (select_check_shape _ _ _ _ Hrun)
    as (u & branch & t & f & w & def & array & _ & _ & _ & Ht & Hf & Hcase & _ & _ & _ & _ & Hmove).
  exists m'. simpl in Ht, Hf. injection Ht as <-. injection Hf as <-.
  destruct Hcase as [[_ ->]|[Hw _]]; [exact Hmove|discriminate].
Defined.

(** *** Blocks without writes *)

Lemma liveness_visit_other op m : op_name op <> WriteOp -> visit op m = Done m.
Proof. unfold visit. by destruct (op_name op). Qed.

(** X9: the pass looks at the last of the two blocks of the first function
    and at nothing else. When no operation of that block is a write, the
    module comes back as it was, whatever the other blocks and functions
    hold. *)
Theorem liveness_without_writes
    (m : ModuleOp) (f : FuncOp) (rest : list TopLevelOp) (entry loop : Block) :
  mod_body m = TopFunc f :: rest ->
  fn_blocks f = [entry; loop] ->
  NoDup (map op_id (blockOps m (blk_id loop))) ->
  Forall (fun o => op_name o <> WriteOp) (blockOps m (blk_id loop)) ->
  runOnOperation m = Done m.
Proof.
  intros Hbody Hblocks Hnd Hnone. unfold runOnOperation.
  rewrite Hbody. cbn [head fromOption mbind Result_bind]. rewrite Hblocks.
  cbn [length]. rewrite bool_decide_eq_true_2 by done.
  cbn [assert mbind Result_bind last fromOption].
  apply walkBlock_unchanged; [done|].
  intros o Ho. apply liveness_visit_other. rewrite Forall_forall in Hnone. by apply Hnone.
Qed.

Lemma liveness_without_writes_witness :
  runOnOperation readsOnly = Done readsOnly.
Proof.
  eapply liveness_without_writes.
  - reflexivity.
  - reflexivity.
  - refine (bool_decide_unpack _ _). vm_compute. exact I.
  - refine (bool_decide_unpack _ _). vm_compute. exact I.
Defined.

(** *** The end of the walk *)

Lemma isBeforeInBlock_ends m a e : isBeforeInBlock m a e <> Stop FuelExhausted.
Proof.
  unfold isBeforeInBlock.
  apply bind_ends; [by apply fromOption_ends|]. intros blk _.
  apply bind_ends; [apply assert_ends|]. intros _ _.
  apply bind_ends; [by apply fromOption_ends|]. intros ia _.
  apply bind_ends; [by apply fromOption_ends|]. done.
Qed.

Lemma moveReadOpsBeforeUsers_ends users opPtr m :
  moveReadOpsBeforeUsers users opPtr m <> Stop FuelExhausted.
Proof.
  revert m. induction users as [|u users IH]; intros m; simpl; [done|].
  apply bind_ends.
  - destruct (bool_decide _); [|done].
    apply bind_ends; [apply isBeforeInBlock_ends|done].
  - intros notBefore _. destruct notBefore; [|apply IH].
    apply bind_ends; [by apply fromOption_ends|]. intros cur _.
    destruct (negb _); [done|]. unfold moveBefore.
    apply bind_ends.
    { apply bind_ends; [by apply fromOption_ends|done]. }
    intros m1 _. apply bind_ends; [apply isBeforeInBlock_ends|]. intros before _.
    apply bind_ends; [apply assert_ends|]. intros _ _. apply IH.
Qed.

Lemma opsMatchValue_ends m v n : opsMatchValue m v n <> Stop FuelExhausted.
Proof.
  destruct v; simpl; try done.
  apply bind_ends; [by apply fromOption_ends|done].
Qed.

Lemma definingOp_ends m v : definingOp m v <> Stop FuelExhausted.
Proof. destruct v; simpl; try done. by apply fromOption_ends. Qed.

Lemma usedInITEPattern_ends iteOp m : usedInITEPattern iteOp m <> Stop FuelExhausted.
Proof.
  unfold usedInITEPattern, moveReadOpsBefore, operand.
  apply bind_ends; [apply assert_ends|]. intros _ _.
  apply bind_ends; [by apply fromOption_ends|]. intros use _.
  apply bind_ends; [by apply fromOption_ends|]. intros useOp _.
  apply bind_ends; [apply assert_ends|]. intros _ _.
  apply bind_ends; [by apply fromOption_ends|]. intros trueValue _.
  apply bind_ends; [by apply fromOption_ends|]. intros falseValue _.
  apply bind_ends; [apply opsMatchValue_ends|]. intros trueIsWrite _.
  destruct trueIsWrite.
  - apply bind_ends; [apply assert_ends|]. intros _ _.
    apply bind_ends; [apply definingOp_ends|]. intros def _.
    apply bind_ends; [by apply fromOption_ends|]. intros base _.
    apply bind_ends; [apply assert_ends|]. intros _ _.
    apply moveReadOpsBeforeUsers_ends.
  - apply bind_ends; [apply opsMatchValue_ends|]. intros falseIsWrite _.
    apply bind_ends; [apply assert_ends|]. intros _ _.
    apply bind_ends; [apply assert_ends|]. intros _ _.
    apply bind_ends; [apply definingOp_ends|]. intros def _.
    apply bind_ends; [by apply fromOption_ends|]. intros base _.
    apply bind_ends; [apply assert_ends|]. intros _ _.
    apply moveReadOpsBeforeUsers_ends.
Qed.

Lemma resultIsLiveAfter_ends op m : resultIsLiveAfter op m <> Stop FuelExhausted.
Proof.
  unfold resultIsLiveAfter.
  apply bind_ends; [by apply fromOption_ends|]. intros blockPtr _.
  apply bind_ends; [apply assert_ends|]. intros _ _.
  destruct (negb _); [done|].
  apply bind_ends; [by apply fromOption_ends|]. intros use _.
  apply bind_ends; [by apply fromOption_ends|]. intros useOp _.
  destruct (op_name useOp); try done. apply usedInITEPattern_ends.
Qed.

Lemma replaceWithWriteInPlace_ends op m :
  replaceWithWriteInPlace op m <> Stop FuelExhausted.
Proof.
  unfold replaceWithWriteInPlace, operand.
  apply bind_ends; [apply resultIsLiveAfter_ends|]. intros [status m1] _.
  destruct (succeeded status); [|done].
  apply bind_ends; [by apply fromOption_ends|]. intros value _.
  apply bind_ends; [by apply fromOption_ends|]. intros base _.
  apply bind_ends; [by apply fromOption_ends|]. intros index _.
  destruct (createAfter _ _ _ m1) as [w m2].
  apply bind_ends; [apply assert_ends|done].
Qed.

Lemma liveness_visit_ends op m : visit op m <> Stop FuelExhausted.
Proof.
  unfold visit. apply bind_ends.
  - destruct (op_name op); try done. apply replaceWithWriteInPlace_ends.
  - intros [status m'] _. apply bind_ends; [apply assert_ends|done].
Qed.

(** X10: the pass comes to an end. On a module whose identities are unique and
    were handed out by the counter, the walk over the block reaches its end
    or stops at an assertion: an in-place write created behind the cursor is
    visited once and creates nothing, and a read that is moved stays behind
    the cursor, so the walk never runs out of steps. *)
Theorem liveness_pass_ends (m : ModuleOp) :
  moduleOk m -> runOnOperation m <> Stop FuelExhausted.
Proof.
  intros Hok. unfold runOnOperation.
  apply bind_ends; [by apply fromOption_ends|]. intros funcOp _.
  destruct funcOp as [f|n]; [|done].
  apply bind_ends; [apply assert_ends|]. intros _ _.
  apply bind_ends; [by apply fromOption_ends|]. intros nextBlock _.
  unfold walkBlock.
  apply (walkFrom_ends visit (blk_id nextBlock) moduleOk writeWeight).
  - intros o. unfold writeWeight. destruct (bool_decide _); lia.
  - intros m0 [[Hops _] _]. by apply NoDup_blockOps.
  - apply liveness_visit_step.
  - apply liveness_visit_ends.
  - done.
  - intros op Hop. destruct (blockOps m _); [done|]. injection Hop as ->. by left.
  - rewrite pending_head. apply totalWeight_bound.
    intros o. unfold writeWeight. destruct (bool_decide _); lia.
Qed.

Lemma selectThenRead_ok : moduleOk selectThenRead.
Proof. apply (bool_decide_unpack _ (dec := moduleOk_dec _)). vm_compute. exact I. Qed.

Lemma liveness_pass_ends_witness :
  runOnOperation selectThenRead <> Stop FuelExhausted.
Proof. exact (liveness_pass_ends _ selectThenRead_ok). Defined.

(** *** What the pass keeps *)

Lemma moveBefore_keeps_others a e m m' cur b :
  uniqueIds m -> lookupOp m a = Some cur -> op_name cur = ReadOp ->
  moveBefore a e m = Done m' ->
  withoutNames [ReadOp; WriteInPlaceOp] (blockOps m' b)
  = withoutNames [ReadOp; WriteInPlaceOp] (blockOps m b).
Proof.
  intros [Hops _] Hcur Hread Hmove. unfold moveBefore in Hmove.
  rewrite Hcur in Hmove. simpl in Hmove. injection Hmove as <-.
  rewrite blockOps_mapBlocks by done.
  apply lookupOp_Some in Hcur as [Hcin Hcid].
  rewrite withoutNames_insertBefore by (rewrite Hread; by left).
  apply withoutNames_removeOp. intros o Ho Hid.
  assert (o = cur) as ->.
  { apply (op_by_id (allOps m)); [done| |done|congruence]. by eapply blockOps_allOps. }
  rewrite Hread. by left.
Qed.

Lemma resultIsLiveAfter_keeps op m s m' :
  uniqueIds m -> resultIsLiveAfter op m = Done (s, m') ->
  reordered m' m
  /\ forall b, withoutNames [ReadOp; WriteInPlaceOp] (blockOps m' b)
               = withoutNames [ReadOp; WriteInPlaceOp] (blockOps m b).
Proof.
  apply (resultIsLiveAfter_kept uniqueIds
           (fun m' m => reordered m' m
                        /\ forall b, withoutNames [ReadOp; WriteInPlaceOp] (blockOps m' b)
                                     = withoutNames [ReadOp; WriteInPlaceOp] (blockOps m b))).
  - intros m0. split; [apply reordered_refl|done].
  - intros m1 m2 m3 [H12 E12] [H23 E23]. split; [by eapply reordered_trans|].
    intros b. by rewrite E12, E23.
  - intros a e m0 m0' cur Hu0 Hne Hbefore Hcur Hread Hmove.
    pose proof (isBeforeInBlock_Done _ _ _ _ Hbefore) as (blk & Ha & He).
    pose proof (moveBefore_reordered _ _ _ _ _ Hu0 Hne Ha He Hmove) as Hre.
    split; [split; [done|]|by eapply reordered_uniqueIds].
    intros b. by eapply moveBefore_keeps_others.
Qed.

Lemma liveness_visit_keeps op m m' :
  uniqueIds m -> visit op m = Done m' ->
  forall b,
    map signature (withoutNames [ReadOp; WriteInPlaceOp] (blockOps m' b))
    = map signature (withoutNames [ReadOp; WriteInPlaceOp] (blockOps m b))
    /\ map signature (withoutNames [WriteInPlaceOp] (blockOps m' b))
       ≡ₚ map signature (withoutNames [WriteInPlaceOp] (blockOps m b)).
Proof.
  intros Hu H b. unfold visit in H.
  step H as [status m1] Hsite. step H as ? Hok. injection H as <-.
  assert (m1 = m \/ replaceWithWriteInPlace op m = Done (status, m1)) as [->|Hrun].
  { destruct (op_name op); try (left; by injection Hsite as _ <-); by right. }
  { done. }
  unfold replaceWithWriteInPlace in Hrun.
  step Hrun as [status0 m0] Hlive.
  destruct (resultIsLiveAfter_keeps _ _ _ _ Hu Hlive) as [Hre Heq].
  assert (map signature (withoutNames [WriteInPlaceOp] (blockOps m0 b))
          ≡ₚ map signature (withoutNames [WriteInPlaceOp] (blockOps m b))) as Hperm.
  { unfold withoutNames. by rewrite (reordered_blockOps _ _ b Hre). }
  destruct (succeeded status0).
  - step Hrun as value Hv. step Hrun as base Hb. step Hrun as index Hi.
    destruct (createAfter (op_id op) WriteInPlaceOp [value; base; index] m0)
      as [writeInPlace m2] eqn:Hc.
    step Hrun as ? Hempty. injection Hrun as _ <-.
    assert (m2 = (createAfter (op_id op) WriteInPlaceOp [value; base; index] m0).2) as ->
      by (by rewrite Hc).
    rewrite blockOps_replaceAllUsesWith, blockOps_createAfter.
    rewrite !map_signature_withoutNames
      by (intros o; apply rewire_id || apply rewire_name).
    rewrite !withoutNames_insertAfter
      by (simpl; repeat first [apply list_elem_of_here | apply list_elem_of_further]).
    by rewrite Heq.
  - injection Hrun as _ <-. by rewrite Heq.
Qed.

(** X11: what a completed run keeps. In every block, the operations other
    than in-place writes are, by identity and name, those of the input; and
    leaving the reads aside they stand in the order of the input. The pass
    removes no operation, renames none, adds in-place writes only, and
    changes the order inside a block only by moving reads. *)
Theorem liveness_keeps_operations (m m' : ModuleOp) :
  moduleOk m ->
  runOnOperation m = Done m' ->
  forall b,
    map signature (withoutNames [ReadOp; WriteInPlaceOp] (blockOps m' b))
    = map signature (withoutNames [ReadOp; WriteInPlaceOp] (blockOps m b))
    /\ map signature (withoutNames [WriteInPlaceOp] (blockOps m' b))
       ≡ₚ map signature (withoutNames [WriteInPlaceOp] (blockOps m b)).
Proof.
  intros Hok H. unfold runOnOperation in H.
  step H as funcOp Hfront. destruct funcOp as [f|n]; [|discriminate].
  step H as ? Htwo. step H as nextBlock Hlast. unfold walkBlock in H.
  set (kept := fun x : ModuleOp =>
         moduleOk x
         /\ forall b,
              map signature (withoutNames [ReadOp; WriteInPlaceOp] (blockOps x b))
              = map signature (withoutNames [ReadOp; WriteInPlaceOp] (blockOps m b))
              /\ map signature (withoutNames [WriteInPlaceOp] (blockOps x b))
                 ≡ₚ map signature (withoutNames [WriteInPlaceOp] (blockOps m b))).
  assert (kept m') as [_ Hkept]; [|exact Hkept].
  refine (proj2 (walkFrom_ends visit (blk_id nextBlock) kept writeWeight
                   _ _ _ liveness_visit_ends _ _ m _ _ _) m' H).
  - intros o. unfold writeWeight. destruct (bool_decide (op_name o = WriteOp)); lia.
  - intros m0 [[[Hops _] _] _]. by apply NoDup_blockOps.
  - intros op m0 m0' [Hok0 Hk0] Hin Hv.
    destruct (liveness_visit_step _ _ _ _ Hok0 Hin Hv) as [Hok1 Hlt].
    split; [|done]. split; [done|]. intros b.
    destruct (liveness_visit_keeps _ _ _ (proj1 Hok0) Hv b) as [E P].
    destruct (Hk0 b) as [E0 P0]. split; [by rewrite E|by rewrite P].
  - split; [done|]. by intros b.
  - intros op Hop. destruct (blockOps m _); [done|]. injection Hop as ->. by left.
  - rewrite pending_head. apply totalWeight_bound.
    intros o. unfold writeWeight. destruct (bool_decide (op_name o = WriteOp)); lia.
Qed.

Lemma liveness_keeps_operations_witness :
  (fun m' => map signature (withoutNames [ReadOp; WriteInPlaceOp] (blockOps m' 1)))
    <$> runOnOperation selectThenRead
  = Done [(10, WriteOp); (11, IteOp); (13, BranchOp)]%nat.
Proof.
  destruct (runOnOperation selectThenRead) as [m'|e] eqn:Hrun;
    [|vm_compute in Hrun; discriminate].
  simpl. f_equal.
  rewrite (proj1 (liveness_keeps_operations selectThenRead m' selectThenRead_ok Hrun 1%nat)).
  vm_compute. reflexivity.
Defined.

(** X12: a rewritten write cannot be visited again. After [success] the write
    is left in its block without uses. The liveness test, applied to it once
    more, finds no single use and declines, and the visit stops at the
    assertion on the status: a second run of the pass over a block in which
    the first run rewrote a write does not get past that write. *)
Theorem rewritten_write_stops_a_second_visit (op : Operation) (m m' : ModuleOp) :
  op_name op = WriteOp ->
  (op_id op < mod_fresh m)%nat ->
  uniqueIds m ->
  replaceWithWriteInPlace op m = Done (success, m') ->
  getUses m' (OpResult (op_id op)) = []
  /\ replaceWithWriteInPlace op m' = Done (failure, m')
  /\ visit op m' = Stop (AssertionFailed "status.succeeded()").
Proof.
  intros Hname Hfresh Hu H. unfold replaceWithWriteInPlace in H.
  step H as [status m1] Hlive.
  pose proof (resultIsLiveAfter_reordered _ _ _ _ Hu Hlive) as Hre.
  assert (exists blk, getBlock m (op_id op) = Some blk) as [blk Hblk].
  { unfold resultIsLiveAfter in Hlive. step Hlive as blk Hblk.
    apply fromOption_Done in Hblk. eauto. }
  destruct status; cbn [succeeded] in H; [|discriminate].
  step H as value Hv. step H as base Hb. step H as index Hi.
  destruct (createAfter (op_id op) WriteInPlaceOp [value; base; index] m1)
    as [writeInPlace m2] eqn:Hc.
  step H as ? Hempty. injection H as Hm'. subst m'. apply assert_Done in Hempty.
  set (m' := replaceAllUsesWith (OpResult (op_id op)) writeInPlace m2) in *.
  assert (getUses m' (OpResult (op_id op)) = []) as Hnone.
  { unfold use_empty in Hempty.
    destruct (getUses m' (OpResult (op_id op))); [done|discriminate]. }
  assert (getBlock m' (op_id op) = Some blk) as Hblk'.
  { unfold m'. rewrite getBlock_replaceAllUsesWith.
    change m2 with (writeInPlace, m2).2. rewrite <- Hc.
    rewrite getBlock_createAfter.
    - by rewrite (getBlock_reordered _ _ _ Hre).
    - destruct Hre as (_ & -> & _). lia. }
  assert (replaceWithWriteInPlace op m' = Done (failure, m')) as Hsite.
  { unfold replaceWithWriteInPlace, resultIsLiveAfter.
    rewrite Hblk'. cbn [fromOption mbind Result_bind].
    unfold isUsedOutsideOfBlock, hasOneUse. rewrite Hnone. done. }
  split; [done|]. split; [done|].
  unfold visit. by rewrite Hname, Hsite.
Qed.

Lemma writeThenBranch_unique : uniqueIds writeThenBranch.
Proof. apply (bool_decide_unpack _ (dec := uniqueIds_dec _)). vm_compute. exact I. Qed.

Lemma rewritten_write_stops_a_second_visit_witness :
  exists m',
    replaceWithWriteInPlace (mkOp 10 WriteOp [arg 1; A; arg 2]) writeThenBranch
    = Done (success, m')
    /\ visit (mkOp 10 WriteOp [arg 1; A; arg 2]) m'
       = Stop (AssertionFailed "status.succeeded()").
Proof.
  destruct (replaceWithWriteInPlace (mkOp 10 WriteOp [arg 1; A; arg 2]) writeThenBranch)
    as [[s m']|e] eqn:Hrun; [|vm_compute in Hrun; discriminate].
  assert (s = success) as ->.
  { pose proof Hrun as Hrun'. vm_compute in Hrun'. by injection Hrun' as <- _. }
  exists m'. split; [done|].
  refine (proj2 (proj2 (rewritten_write_stops_a_second_visit
                          (mkOp 10 WriteOp [arg 1; A; arg 2]) writeThenBranch m'
                          eq_refl _ writeThenBranch_unique Hrun))).
  vm_compute. lia.
Defined.

Example liveness_not_run_twice :
  runOnOperation writeThenBranch ≫= runOnOperation
  = Stop (AssertionFailed "status.succeeded()").
Proof. vm_compute. reflexivity. Qed.

End BtorLivenessFacts.

Module DeserializeFacts.
Import Deserialize LifterSamples DeserializeSpec LifterSpec DeserializeProofs.

(** The translation loop: [n] instructions from [cur_op] are translated, each
    within the frame; the jumps among them were let through by [createJmpOp]. *)
Lemma translate_Done n prog cur_op st cur1 st1 sec :
  head (m_sections st) = Some sec ->
  translate n prog cur_op st = Done (cur1, st1) ->
  framed st st1
  /\ cur1 = (cur_op + N.of_nat n)%N
  /\ ((0 < n)%nat -> (N.to_nat cur_op + n <= length prog)%nat)
  /\ forall i label jmp,
       (N.to_nat cur_op <= i < N.to_nat cur_op + n)%nat ->
       prog !! i = Some (label, IJmp jmp) -> forwardJump sec label jmp.
Proof.
  revert cur_op st. induction n as [|n IH]; intros cur_op st Hsec H.
  - injection H as <- <-. split; [apply framed_refl|]. split; [lia|]. split; [lia|].
    intros i label jmp Hi. lia.
  - simpl in H. step H as [label ins] Hat. apply at_Done in Hat.
    step H as st0 Hins.
    pose proof (framed_createMLIR _ _ _ _ Hins) as F0.
    assert (head (m_sections st0) = Some sec) as Hsec0.
    { by rewrite (framed_sections _ _ F0). }
    destruct (IH _ _ Hsec0 H) as (F1 & -> & Hlen & Hjumps).
    split; [by eapply framed_trans|]. split; [lia|].
    pose proof (lookup_lt_Some _ _ _ Hat) as Hlt.
    unfold LabeledInstruction in *.
    split.
    { intros _. destruct (decide (n = 0%nat)) as [->|Hn]; [lia|].
      assert (0 < n)%nat as Hpos by lia. specialize (Hlen Hpos). lia. }
    intros i label' jmp Hi Hlook.
    destruct (decide (i = N.to_nat cur_op)) as [->|Hne].
    + pose proof (eq_trans (eq_sym Hat) Hlook) as Heq. injection Heq as -> ->.
      unfold createMLIR in Hins.
      apply createJmpOp_Done in Hins as [_ (prog' & Hp & Hfwd)].
      simpl in Hp. rewrite Hsec in Hp. by injection Hp as <-.
    + apply (Hjumps i); [lia|done].
Qed.

(** *** The loop over the boundaries *)

Lemma registered_framed st st' : framed st st' -> registered st -> registered st'.
Proof.
  intros F [Hlast Hidx Hsize].
  assert (forall b, is_Some (blocks st !! b) -> is_Some (blocks st' !! b)) as Hdom.
  { intros b Hb. apply elem_of_dom. rewrite (framed_dom _ _ F). by apply elem_of_dom. }
  split.
  - rewrite (framed_last _ _ F). by apply Hdom.
  - intros off b Hb. rewrite (framed_index _ _ F) in Hb. apply Hdom. by eapply Hidx.
  - by rewrite (framed_size _ _ F).
Qed.

Lemma setupRegisters_Done b st st' :
  setupRegisters b st = Done st' ->
  st' = setRegisters (blockArguments b m_ebpfRegisters
                        ++ drop m_ebpfRegisters (m_registers st)) st
  /\ (m_ebpfRegisters <= length (m_registers st))%nat.
Proof.
  unfold setupRegisters. destruct (bool_decide _) eqn:Hlen; [|discriminate].
  apply bool_decide_eq_true in Hlen. by intros [= <-].
Qed.

Lemma length_setup b (regs : list Value) :
  (m_ebpfRegisters <= length regs)%nat ->
  length (blockArguments b m_ebpfRegisters ++ drop m_ebpfRegisters regs) = length regs.
Proof.
  intros H. unfold blockArguments.
  rewrite length_app, length_map, length_seq, length_drop. lia.
Qed.

Lemma buildBlock_Done prog sec cur_op st next cur1 st1 :
  head (m_sections st) = Some sec -> registered st ->
  buildBlock prog (cur_op, st) next = Done (cur1, st1) ->
  m_sections st1 = m_sections st
  /\ registered st1
  /\ (cur_op <= cur1)%N
  /\ forall i label jmp,
       (N.to_nat cur_op <= i < N.to_nat cur1)%nat ->
       prog !! i = Some (label, IJmp jmp) -> forwardJump sec label jmp.
Proof.
  intros Hsec Hreg H. unfold buildBlock in H.
  step H as ? Hhas. step H as curBlock Hcur.
  step H as st_b Hsetup. apply setupRegisters_Done in Hsetup as [-> Hlen].
  cbn [m_registers print setInsertionPointToEnd] in Hlen.
  step H as [cur2 st_c] Htr. unfold translateUpTo in Htr.
  apply (translate_Done _ _ _ _ _ _ sec) in Htr as (F & -> & _ & Hjumps); [|done].
  assert (registered st_c) as Hreg_c.
  { apply (registered_framed _ _ F). destruct Hreg as [Hlast Hidx Hsize].
    split; [exact Hlast|exact Hidx|].
    cbn [m_registers setRegisters print setInsertionPointToEnd].
    by rewrite length_setup. }
  assert (m_sections st_c = m_sections st) as Hsec_c by (by rewrite (framed_sections _ _ F)).
  assert (forall i label jmp,
            (N.to_nat cur_op <= i
             < N.to_nat (cur_op + N.of_nat (N.to_nat (next - cur_op))))%nat ->
            prog !! i = Some (label, IJmp jmp) -> forwardJump sec label jmp) as Hj.
  { intros i label jmp Hi. apply Hjumps. lia. }
  destruct (lacksTerminator _).
  - step H as ? Hnext. step H as nextBlock Hblock. injection H as <- <-.
    unfold jumpBlockAt in Hblock. apply fromOption_Done in Hblock. simpl in Hblock.
    split; [done|]. split; [|split; [lia|done]].
    destruct Hreg_c as [Hlast Hidx Hsize]. split; simpl.
    + rewrite lookup_alter_is_Some. by eapply Hidx.
    + intros off b Hb. rewrite lookup_alter_is_Some. by eapply Hidx.
    + done.
  - injection H as <- <-. split; [done|]. split; [done|]. split; [lia|done].
Qed.

Lemma buildBlocks_Done prog sec bounds cur_op st cur1 st1 :
  head (m_sections st) = Some sec -> registered st ->
  (forall i label jmp, (i < N.to_nat cur_op)%nat ->
     prog !! i = Some (label, IJmp jmp) -> forwardJump sec label jmp) ->
  foldM (buildBlock prog) bounds (cur_op, st) = Done (cur1, st1) ->
  m_sections st1 = m_sections st
  /\ registered st1
  /\ forall i label jmp, (i < N.to_nat cur1)%nat ->
       prog !! i = Some (label, IJmp jmp) -> forwardJump sec label jmp.
Proof.
  revert cur_op st. induction bounds as [|next bounds IH]; intros cur_op st Hsec Hreg Hdone H.
  - by injection H as <- <-.
  - simpl in H. step H as [cur2 st2] Hblock.
    destruct (buildBlock_Done _ _ _ _ _ _ _ Hsec Hreg Hblock) as (Hs2 & Hreg2 & Hle & Hj).
    destruct (IH cur2 st2) as (Hs1 & Hreg1 & Hj1); try done.
    + by rewrite Hs2.
    + intros i label jmp Hi Hlook.
      destruct (decide (i < N.to_nat cur_op)%nat); [by eapply Hdone|].
      apply (Hj i); [lia|done].
    + split; [congruence|done].
Qed.

Lemma incrementBlocks_registered x st :
  registered st ->
  registered (incrementBlocks x st) /\ m_sections (incrementBlocks x st) = m_sections st.
Proof.
  intros [Hlast Hidx Hsize]. unfold incrementBlocks.
  destruct (decide (x ∈ m_jmpTargets st)); [done|]. simpl. split; [|done].
  split; simpl.
  - rewrite lookup_insert_is_Some'. by right.
  - intros off b. rewrite lookup_insert_Some. intros [[_ <-]|[_ Hb]].
    + rewrite lookup_insert_is_Some'. by left.
    + rewrite lookup_insert_is_Some'. right. by eapply Hidx.
  - done.
Qed.

Lemma collectBlock_registered st li :
  registered st ->
  registered (collectBlock st li) /\ m_sections (collectBlock st li) = m_sections st.
Proof.
  intros Hreg. destruct li as [label ins]. destruct ins; try done. simpl.
  set (st1 := if decide _ then _ else st).
  assert (registered st1 /\ m_sections st1 = m_sections st) as [H1 Hs1].
  { subst st1. destruct (decide _); [by apply incrementBlocks_registered|done]. }
  destruct (cond j); [|done].
  destruct (incrementBlocks_registered (to_size_t (from label + 1)) st1 H1) as [H2 Hs2].
  split; [done|congruence].
Qed.

Lemma collectBlocks_registered st st' :
  registered st -> collectBlocks st = Done st' ->
  registered st' /\ m_sections st' = m_sections st.
Proof.
  intros Hreg H. unfold collectBlocks in H.
  step H as prog Hprog. step H as ? Hcount. injection H as <-.
  assert (registered (foldl collectBlock st prog)
          /\ m_sections (foldl collectBlock st prog) = m_sections st) as [[Hl Hi Hs] Hsec].
  { clear Hcount Hprog. revert st Hreg. induction prog as [|li prog IH]; intros st Hreg; [done|].
    simpl. destruct (collectBlock_registered st li Hreg) as [H1 Hs1].
    destruct (IH _ H1) as [H2 Hs2]. split; [done|congruence]. }
  split; [by split|done].
Qed.

Lemma entered_registered sections : registered (enterXDPFunction (initial sections)).
Proof.
  split; simpl.
  - rewrite lookup_insert_eq. by eexists.
  - intros off b. rewrite lookup_insert_Some, lookup_empty.
    intros [[_ <-]|[_ ?]]; [|done]. rewrite lookup_insert_eq. by eexists.
  - reflexivity.
Qed.

(** What a completed [buildFunctionBody] has seen. *)
Lemma buildFunctionBody_Done prog rest st1 :
  buildFunctionBody (enterXDPFunction (initial (prog :: rest))) = Done st1 ->
  registered st1
  /\ forall i label jmp,
       prog !! i = Some (label, IJmp jmp) -> forwardJump prog label jmp.
Proof.
  intros H. unfold buildFunctionBody in H.
  step H as prog' Hprog. apply fromOption_Done in Hprog. simpl in Hprog.
  injection Hprog as <-.
  step H as st_c Hcollect.
  destruct (collectBlocks_registered _ _ (entered_registered _) Hcollect) as [Hreg_c Hsec_c].
  step H as [cur_op st_l] Hloop.
  apply (buildBlocks_Done _ prog) in Hloop as (Hsec_l & Hreg_l & Hj);
    [| simpl; by rewrite Hsec_c | destruct Hreg_c; by split
     | intros i label jmp Hi; simpl in Hi; lia].
  simpl in Hsec_l. rewrite Hsec_c in Hsec_l. simpl in Hsec_l.
  step H as st_s Hsetup. step H as [cur2 st_t] Htr. injection H as <-.
  assert (registered st_s /\ m_sections st_s = prog :: rest) as [Hreg_s Hsec_s].
  { destruct (_ <? _)%N.
    - apply setupRegisters_Done in Hsetup as [-> Hlen].
      cbn [m_registers setInsertionPointToEnd] in Hlen.
      destruct Hreg_l as [Hlast Hidx Hsize]. split; [|done].
      split; [exact Hlast|exact Hidx|].
      cbn [m_registers setRegisters setInsertionPointToEnd].
      by rewrite length_setup.
    - by injection Hsetup as <-. }
  unfold translateUpTo in Htr.
  apply (translate_Done _ _ _ _ _ _ prog) in Htr as (F & -> & _ & Hjumps);
    [|by rewrite Hsec_s].
  split; [by eapply registered_framed|].
  intros i label jmp Hlook.
  destruct (decide (i < N.to_nat cur_op)%nat); [by eapply Hj|].
  pose proof (lookup_lt_Some _ _ _ Hlook) as Hlt. unfold LabeledInstruction in *.
  apply (Hjumps i); [lia|done].
Qed.

Lemma buildXDPFunction_Done sections st' :
  buildXDPFunction (initial sections) = Done st' ->
  exists st1, buildFunctionBody (enterXDPFunction (initial sections)) = Done st1.
Proof. unfold buildXDPFunction. intros H. step H as st1 Hbody. eauto. Qed.

(** X13: a section is lifted to the end only when each of its jumps is
    strictly forward and lands on an instruction that carries the target
    offset as its label. Every instruction of the first section goes through
    [createMLIR] before [buildXDPFunction] returns, so one jump that points
    backwards, at itself, past the end of the section or at a label that does
    not match makes the whole function fail. *)
Theorem lifting_needs_forward_jumps
    (prog : InstructionSeq) (rest : list InstructionSeq) (st' : State) :
  buildXDPFunction (initial (prog :: rest)) = Done st' ->
  forall i label jmp,
    prog !! i = Some (label, IJmp jmp) -> forwardJump prog label jmp.
Proof.
  intros [st1 Hbody]%buildXDPFunction_Done.
  exact (proj2 (buildFunctionBody_Done _ _ _ Hbody)).
Qed.

Lemma lifting_needs_forward_jumps_witness :
  forwardJump condSkip (at_offset 0)
    {| cond := Some {| cond_left := reg 1; cond_right := IsImm 0 |};
       target := at_offset 3 |}.
Proof.
  destruct (buildXDPFunction (initial [condSkip])) as [st'|e] eqn:Hrun;
    [|vm_compute in Hrun; discriminate].
  exact (lifting_needs_forward_jumps condSkip [] st' Hrun 0%nat _ _ eq_refl).
Defined.

Example loopBack_not_lifted :
  buildXDPFunction (initial [loopBack])
  = Stop (AssertionFailed "jmp.target.from > cur_label.from").
Proof. vm_compute. reflexivity. Qed.

(** X14: the value the lifted function returns. Once the body is built the
    epilogue cannot fail: register 0 is overwritten with the first argument
    of the last block, the assertion on it holds, and a [ReturnOp] of that
    block argument is appended to the last block. What the program left in
    register 0 is not returned. *)
Theorem function_returns_block_argument
    (prog : InstructionSeq) (rest : list InstructionSeq) (st1 : State) :
  buildFunctionBody (enterXDPFunction (initial (prog :: rest))) = Done st1 ->
  exists st',
    buildXDPFunction (initial (prog :: rest)) = Done st'
    /\ m_lastBlock st' = m_lastBlock st1
    /\ blockOpsOf (m_lastBlock st1) st' = blockOpsOf (m_lastBlock st1) st1 ++ [returnOf st1]
    /\ (forall b, b <> m_lastBlock st1 -> blocks st' !! b = blocks st1 !! b)
    /\ m_registers st' = <[0%nat := BlockArgument (m_lastBlock st1) 0]> (m_registers st1).
Proof.
  intros Hbody.
  destruct (buildFunctionBody_Done _ _ _ Hbody) as [[Hlast Hidx Hsize] _].
  destruct (m_registers st1) as [|r0 regs] eqn:Hregs; [discriminate|].
  unfold buildXDPFunction. rewrite Hbody. cbn [mbind Result_bind].
  unfold writeReg, readReg, at_.
  cbn [m_registers setInsertionPointToEnd setRegisters]. rewrite Hregs.
  assert (forall (x : Value) (l : list Value),
            (N.of_nat R0_RETURN_VALUE <? N.of_nat (length (x :: l)))%N = true) as Hlt.
  { intros x l. apply N.ltb_lt. unfold R0_RETURN_VALUE. cbn [length]. lia. }
  rewrite Hlt. cbn [mbind Result_bind m_registers setRegisters].
  change (<[N.to_nat (N.of_nat R0_RETURN_VALUE) :=
            BlockArgument (m_lastBlock (setInsertionPointToEnd (m_lastBlock st1) st1)) 0]>
            (r0 :: regs))
    with (BlockArgument (m_lastBlock st1) 0 :: regs).
  rewrite Hlt.
  change ((BlockArgument (m_lastBlock st1) 0 :: regs)
            !! N.to_nat (N.of_nat R0_RETURN_VALUE))
    with (Some (BlockArgument (m_lastBlock st1) 0)).
  cbn [fromOption mbind Result_bind].
  rewrite bool_decide_eq_true_2 by done. cbn [assert mbind Result_bind].
  eexists. split; [reflexivity|]. simpl.
  split; [done|]. split; [|split; [|done]].
  - unfold blockOpsOf. simpl. rewrite lookup_alter_eq.
    destruct Hlast as [blk ->]. done.
  - intros b Hb. by rewrite lookup_alter_ne.
Qed.

Lemma function_returns_block_argument_witness :
  (fun st' => last (blockOpsOf 0 st')) <$> buildXDPFunction (initial [straightLine])
  = Done (Some {| op_id := 3; op_name := ReturnOp; op_operands := [BlockArgument 0 0];
                  op_successor := None; op_attr := None |}).
Proof.
  destruct (buildFunctionBody (enterXDPFunction (initial [straightLine])))
    as [st1|e] eqn:Hbody; [|vm_compute in Hbody; discriminate].
  destruct (function_returns_block_argument straightLine [] st1 Hbody)
    as (st' & -> & _ & Hops & _).
  assert (m_lastBlock st1 = 0%nat /\ freshOp st1 = 3%nat) as [Hl Hf].
  { pose proof Hbody as Hb. vm_compute in Hb. by injection Hb as <-. }
  simpl. rewrite Hl in Hops. rewrite Hops, last_snoc. unfold returnOf.
  by rewrite Hl, Hf.
Defined.

Example straightLine_lifted :
  (fun st' => map (fun o => (op_name o, op_operands o)) (blockOpsOf 0 st'))
    <$> buildXDPFunction (initial [straightLine])
  = Done [ (ConstantOp, []);
           (AddOp, [BlockArgument 0 1; OpResult 0]);
           (MoveOp, [BlockArgument 0 0; OpResult 1]);
           (ReturnOp, [BlockArgument 0 0]) ].
Proof. vm_compute. reflexivity. Qed.

(** *** Sections without jumps *)

Lemma collect_nothing prog st :
  Forall (fun li : LabeledInstruction => isJmp li.2 = false) prog ->
  foldl collectBlock st prog = st.
Proof.
  induction 1 as [|[label ins] prog Hins _ IH]; [done|].
  simpl. destruct ins; try discriminate Hins; exact IH.
Qed.

(** X15: a section without jumps is lifted into the entry block alone.
    [collectBlocks] records no boundary, the loop over the boundaries does
    not run, and [buildFunctionBody] is the translation of the instructions,
    one after the other, with the insertion point at the end of the entry
    block and the registers bound to its arguments; the function built has
    this one block. *)
Theorem jump_free_section_single_block
    (prog : InstructionSeq) (rest : list InstructionSeq) :
  Forall (fun li : LabeledInstruction => isJmp li.2 = false) prog ->
  buildFunctionBody (enterXDPFunction (initial (prog :: rest)))
  = ('(_, st) ← translate (length prog) prog 0
                  (straightLineStart (prog :: rest) (length prog));
     Done st)
  /\ forall st',
       buildXDPFunction (initial (prog :: rest)) = Done st' ->
       dom (blocks st') = {[0%nat]}
       /\ m_lastBlock st' = 0%nat
       /\ m_startOfNextBlock st' = [].
Proof.
  intros Hnone.
  assert (buildFunctionBody (enterXDPFunction (initial (prog :: rest)))
          = ('(_, st) ← translate (length prog) prog 0
                          (straightLineStart (prog :: rest) (length prog));
             Done st)) as Hbody.
  { unfold buildFunctionBody, collectBlocks.
    change (head (m_sections (enterXDPFunction (initial (prog :: rest)))))
      with (Some prog).
    cbn [fromOption mbind Result_bind]. rewrite (collect_nothing _ _ Hnone).
    change (m_startOfNextBlock (enterXDPFunction (initial (prog :: rest)))) with (@nil N).
    change (m_numBlocks (enterXDPFunction (initial (prog :: rest)))) with 0%N.
    cbn [length N.of_nat]. rewrite bool_decide_eq_true_2 by done.
    cbn [assert mbind Result_bind]. 
    change (sort []) with (@nil N).
    cbn [m_startOfNextBlock print foldM mbind Result_bind].
    unfold translateUpTo. rewrite N.sub_0_r, Nat2N.id.
    destruct prog as [|li prog]; [reflexivity|].
    assert ((0 <? N.of_nat (length (li :: prog)))%N = true) as ->.
    { apply N.ltb_lt. cbn [length]. lia. }
    reflexivity. }
  split; [exact Hbody|].
  intros st' H. unfold buildXDPFunction in H.
  step H as st1 Hst1. rewrite Hbody in Hst1.
  step Hst1 as [cur1 st_t] Htr. injection Hst1 as ->.
  apply (translate_Done _ _ _ _ _ _ prog) in Htr as (F & _); [|done].
  step H as st2 Hw. apply framed_writeReg in Hw.
  step H as r0 Hr0. step H as ? Hnn.
  assert (framed st2 st') as Fc by (injection H as <-; apply framed_create).
  pose proof (framed_trans _ _ _ Hw Fc) as F23.
  rewrite (framed_dom _ _ F23), (framed_last _ _ F23), (framed_bounds _ _ F23).
  cbn [blocks m_lastBlock m_startOfNextBlock setInsertionPointToEnd].
  rewrite (framed_dom _ _ F), (framed_last _ _ F), (framed_bounds _ _ F).
  split; [|done]. simpl. by rewrite dom_insert_L, dom_empty_L, union_empty_r_L.
Qed.

Lemma straightLine_no_jump :
  Forall (fun li : LabeledInstruction => isJmp li.2 = false) straightLine.
Proof. repeat constructor. Qed.

Lemma jump_free_section_single_block_witness :
  buildFunctionBody (enterXDPFunction (initial [straightLine]))
  = ('(_, st) ← translate 4 straightLine 0 (straightLineStart [straightLine] 4); Done st).
Proof.
  exact (proj1 (jump_free_section_single_block straightLine [] straightLine_no_jump)).
Defined.

(** *** Memory accesses of a width that is not 1, 2, 4 or 8 *)

(** X16: the [switch] of [createMemOp] has no default. For a width other than
    1, 2, 4 and 8 it builds no memory operation at all; all that is built is
    the constant of the offset. A store then leaves the registers as they
    are, and a load binds its destination register to the null value. *)
Theorem unsupported_width_builds_no_access (mem : Mem) (st : State) :
  width (access mem) ∉ [1; 2; 4; 8]%Z ->
  (is_load mem = false ->
     createMemOp mem st = Done (buildConstantOp (offset (access mem)) st).2)
  /\ (forall r, is_load mem = true -> value mem = IsReg r ->
        createMemOp mem st
        = writeReg (v r) NullValue (buildConstantOp (offset (access mem)) st).2).
Proof.
  intros Hwidth. unfold createMemOp.
  destruct (buildConstantOp (offset (access mem)) st) as [off st1].
  assert ((match width (access mem) with
           | 1%Z => Some (Load8Op, Store8Op)
           | 2%Z => Some (Load16Op, Store16Op)
           | 4%Z => Some (Load32Op, Store32Op)
           | 8%Z => Some (LoadOp, StoreOp)
           | _ => None
           end) = None) as ->.
  { destruct (width (access mem)) as [|p|p]; try done.
    do 4 (try destruct p as [p|p|]); try done; exfalso; apply Hwidth;
      repeat first [apply list_elem_of_here | apply list_elem_of_further]. }
  cbn [mbind Result_bind]. split.
  - by intros ->.
  - by intros r -> ->.
Qed.

Lemma three_is_no_width : (3 ∉ [1; 2; 4; 8])%Z.
Proof. rewrite !elem_of_cons, elem_of_nil. lia. Qed.

Lemma unsupported_width_builds_no_access_witness :
  (fun st' => (m_registers st' !! 3%nat, length (blockOpsOf 0 st')))
    <$> createMemOp {| access := {| width := 3; basereg := reg 1; offset := 0 |};
                       value := IsReg (reg 3); is_load := true |}
          (entered straightLine)
  = Done (Some NullValue, 1%nat).
Proof.
  rewrite (proj2 (unsupported_width_builds_no_access
                    {| access := {| width := 3; basereg := reg 1; offset := 0 |};
                       value := IsReg (reg 3); is_load := true |}
                    (entered straightLine) three_is_no_width) (reg 3) eq_refl eq_refl).
  vm_compute. reflexivity.
Defined.

(** *** The frame and the log of the translation loop *)



(** X18: no instruction is translated without a trace. Whatever its kind,
    every instruction of a translated range writes its offset and a blank to
    the diagnostic stream before anything else it writes, and nothing that
    was written is taken back: the stream grows by one such entry per
    instruction, in program order. *)
Theorem every_instruction_logs_its_offset
    (n : nat) (prog : InstructionSeq) (cur_op : N) (st : State) (cur1 : N) (st1 : State) :
  translate n prog cur_op st = Done (cur1, st1) ->
  exists out,
    cerr st1 = cerr st ++ out
    /\ logged (map fst (take n (drop (N.to_nat cur_op) prog))) out.
Proof.
  revert cur_op st. induction n as [|n IH]; intros cur_op st H.
  - injection H as <- <-. exists []. split; [by rewrite app_nil_r|].
    rewrite take_0. constructor.
  - simpl in H. step H as [label ins] Hat. apply at_Done in Hat.
    step H as st0 Hins. apply createMLIR_body in Hins.
    destruct (framed_cerr _ _ Hins) as [extra Hextra]. simpl in Hextra.
    destruct (IH _ _ H) as (rest & Hrest & Hlog).
    exists (OutNum (from label) :: OutStr " " :: extra ++ rest). split.
    + rewrite Hrest, Hextra. rewrite <- !app_assoc. done.
    + pose proof (drop_S _ _ _ Hat) as Hdrop. unfold InstructionSeq, LabeledInstruction in *.
      rewrite Hdrop. cbn [take map fst].
      constructor. replace (S (N.to_nat cur_op)) with (N.to_nat (cur_op + 1)) by lia.
      exact Hlog.
Qed.

Lemma every_instruction_logs_its_offset_witness :
  exists out,
    cerr (stateOf (translate 4 straightLine 0 (entered straightLine))) = out
    /\ logged [at_offset 0; at_offset 1; at_offset 2; at_offset 3] out.
Proof.
  destruct (translate 4 straightLine 0 (entered straightLine)) as [[cur1 st1]|e] eqn:Hrun;
    [|vm_compute in Hrun; discriminate].
  destruct (every_instruction_logs_its_offset _ _ _ _ _ _ Hrun) as (out & Hout & Hlog).
  exists out. split; [|exact Hlog]. simpl. by rewrite Hout.
Defined.

(** *** The sections behind the first *)

Section OtherSections.

Variable s : list InstructionSeq.

Lemma withSections_create name operands succ attr st :
  create name operands succ attr (withSections s st)
  = ((create name operands succ attr st).1,
     withSections s (create name operands succ attr st).2).
Proof. reflexivity. Qed.

Lemma withSections_writeReg r val st :
  writeReg r val (withSections s st) = withSections s <$> writeReg r val st.
Proof. unfold writeReg. simpl. by destruct (_ <? _)%N. Qed.

Lemma withSections_createBinaryOp bin st :
  createBinaryOp bin (withSections s st) = withSections s <$> createBinaryOp bin st.
Proof.
  unfold createBinaryOp, buildBinaryOp, buildConstantOp.
  change (readReg (v (bin_dst bin)) (withSections s st)) with (readReg (v (bin_dst bin)) st).
  destruct (readReg (v (bin_dst bin)) st) as [lhs|e]; [|done]. cbn [mbind Result_bind].
  destruct (bin_v bin) as [imm|r].
  - cbn [mbind Result_bind]. rewrite !withSections_create. cbn [fst snd].
    apply withSections_writeReg.
  - change (readReg (v r) (withSections s st)) with (readReg (v r) st).
    destruct (readReg (v r) st) as [rhs|e]; [|done]. cbn [mbind Result_bind].
    rewrite !withSections_create. apply withSections_writeReg.
Qed.

Lemma withSections_createUnaryOp un st :
  createUnaryOp un (withSections s st) = withSections s <$> createUnaryOp un st.
Proof.
  unfold createUnaryOp, buildUnaryOp.
  change (readReg (v (un_dst un)) (withSections s st)) with (readReg (v (un_dst un)) st).
  destruct (readReg (v (un_dst un)) st) as [rhs|e]; [|done]. cbn [mbind Result_bind].
  rewrite withSections_create. apply withSections_writeReg.
Qed.

Lemma withSections_createLoadMapOp l st :
  createLoadMapOp l (withSections s st) = withSections s <$> createLoadMapOp l st.
Proof.
  unfold createLoadMapOp, buildBinaryOp, buildConstantOp.
  rewrite withSections_create.
  destruct (create ConstantOp [] None (Some (mapfd l)) st) as [map st1]. cbn [fst snd].
  change (readReg (v (map_dst l)) (withSections s st1)) with (readReg (v (map_dst l)) st1).
  destruct (readReg (v (map_dst l)) st1) as [cur|e]; [|done]. cbn [mbind Result_bind].
  rewrite withSections_create.
  destruct (create LoadMapOp [cur; map] None None st1) as [res st2]. cbn [fst snd].
  apply withSections_writeReg.
Qed.

Lemma withSections_buildStoreOp name base off mem st :
  buildStoreOp name base off mem (withSections s st)
  = (fun '(val, st') => (val, withSections s st')) <$> buildStoreOp name base off mem st.
Proof.
  unfold buildStoreOp, buildConstantOp. destruct (value mem) as [imm|r].
  - cbn [mbind Result_bind]. by rewrite !withSections_create.
  - change (readReg (v r) (withSections s st)) with (readReg (v r) st).
    destruct (readReg (v r) st) as [val|e]; [|done]. cbn [mbind Result_bind].
    by rewrite withSections_create.
Qed.

Lemma withSections_createMemOp mem st :
  createMemOp mem (withSections s st) = withSections s <$> createMemOp mem st.
Proof.
  unfold createMemOp, buildBinaryOp, buildConstantOp.
  rewrite withSections_create.
  destruct (create ConstantOp [] None (Some (offset (access mem))) st) as [off st1].
  cbn [fst snd].
  destruct (match width (access mem) with
            | 1%Z => _ | 2%Z => _ | 4%Z => _ | 8%Z => _ | _ => _ end)
    as [[ld store]|].
  - change (readReg (v (basereg (access mem))) (withSections s st1))
      with (readReg (v (basereg (access mem))) st1).
    destruct (readReg (v (basereg (access mem))) st1) as [base|e]; [|done].
    cbn [mbind Result_bind]. destruct (is_load mem).
    + cbn [mbind Result_bind]. rewrite withSections_create.
      destruct (create ld [base; off] None None st1) as [res st2]. cbn [fst snd].
      destruct (value mem); [done|]. apply withSections_writeReg.
    + rewrite withSections_buildStoreOp.
      destruct (buildStoreOp store base off mem st1) as [[val st2]|e]; done.
  - cbn [mbind Result_bind]. destruct (is_load mem); [|done].
    destruct (value mem); [done|]. apply withSections_writeReg.
Qed.

Lemma withSections_createJmpOp jmp label st :
  head (m_sections st) = head s ->
  createJmpOp jmp label (withSections s st) = withSections s <$> createJmpOp jmp label st.
Proof.
  intros Hhead. unfold createJmpOp, buildJmpOp.
  destruct (assert _ _) as [[]|e]; [|done]. cbn [mbind Result_bind].
  change (m_sections (withSections s st)) with s. rewrite <- Hhead.
  destruct (head (m_sections st)) as [prog|]; [|done]. cbn [fromOption mbind Result_bind].
  match goal with
  | |- context [@at_ ?A ?p ?i ?w] => destruct (@at_ A p i w) as [[l ins]|e]; [|done]
  end.
  cbn [mbind Result_bind].
  destruct (assert _ _) as [[]|e]; [|done]. cbn [mbind Result_bind].
  destruct (cond jmp); [done|].
  change (jumpBlockAt (to_size_t (from (target jmp))) (withSections s st))
    with (jumpBlockAt (to_size_t (from (target jmp))) st).
  by destruct (jumpBlockAt _ st).
Qed.

Lemma withSections_createMLIR ins label st :
  head (m_sections st) = head s ->
  createMLIR ins label (withSections s st) = withSections s <$> createMLIR ins label st.
Proof.
  intros Hhead. unfold createMLIR.
  change (print [OutNum (from label); OutStr " "] (withSections s st))
    with (withSections s (print [OutNum (from label); OutStr " "] st)).
  destruct ins; try done.
  - apply withSections_createBinaryOp.
  - apply withSections_createUnaryOp.
  - apply withSections_createLoadMapOp.
  - by apply withSections_createJmpOp.
  - apply withSections_createMemOp.
Qed.

Lemma withSections_translate n prog cur_op st :
  head (m_sections st) = head s ->
  translate n prog cur_op (withSections s st)
  = (fun '(c, st') => (c, withSections s st')) <$> translate n prog cur_op st.
Proof.
  revert cur_op st. induction n as [|n IH]; intros cur_op st Hhead; [done|].
  simpl.
  match goal with
  | |- context [@at_ ?A ?p ?i ?w] => destruct (@at_ A p i w) as [[label ins]|e]; [|done]
  end.
  cbn [mbind Result_bind]. rewrite withSections_createMLIR by done.
  destruct (createMLIR ins label st) as [st0|e] eqn:Hins; [|done].
  cbn [fmap Result_fmap mbind Result_bind]. apply IH.
  by rewrite (framed_sections _ _ (framed_createMLIR _ _ _ _ Hins)).
Qed.

Lemma withSections_incrementBlocks x st :
  incrementBlocks x (withSections s st) = withSections s (incrementBlocks x st).
Proof.
  unfold incrementBlocks. simpl. by destruct (decide (x ∈ m_jmpTargets st)).
Qed.

Lemma withSections_collectBlock st li :
  collectBlock (withSections s st) li = withSections s (collectBlock st li).
Proof.
  destruct li as [label ins]. destruct ins; try done. simpl.
  destruct (decide (_ ∉ m_jmpTargets st)).
  - rewrite !withSections_incrementBlocks. by destruct (cond j).
  - destruct (cond j); [|done]. by rewrite withSections_incrementBlocks.
Qed.

Lemma withSections_collect prog st :
  foldl collectBlock (withSections s st) prog = withSections s (foldl collectBlock st prog).
Proof.
  revert st. induction prog as [|li prog IH]; intros st; [done|].
  simpl. by rewrite withSections_collectBlock, IH.
Qed.

Lemma withSections_setupRegisters b st :
  setupRegisters b (withSections s st) = withSections s <$> setupRegisters b st.
Proof. unfold setupRegisters. simpl. by destruct (bool_decide _). Qed.

Lemma setupRegisters_sections b st st' :
  setupRegisters b st = Done st' -> m_sections st' = m_sections st.
Proof. by intros [-> _]%setupRegisters_Done. Qed.

Lemma buildBlock_sections prog cur_op st next cur1 st1 :
  buildBlock prog (cur_op, st) next = Done (cur1, st1) -> m_sections st1 = m_sections st.
Proof.
  unfold buildBlock. intros H.
  step H as ? Hhas. step H as curBlock Hcur.
  step H as st_b Hsetup. apply setupRegisters_sections in Hsetup. simpl in Hsetup.
  step H as [cur2 st_c] Htr. unfold translateUpTo in Htr.
  apply translate_framed in Htr as [F _]. pose proof (framed_sections _ _ F) as Hc.
  destruct (lacksTerminator _).
  - step H as ? Hnext. step H as nextBlock Hblock. injection H as <- <-. simpl. congruence.
  - injection H as <- <-. congruence.
Qed.

Lemma withSections_buildBlock prog cur_op st next :
  head (m_sections st) = head s ->
  buildBlock prog (cur_op, withSections s st) next
  = (fun '(c, st') => (c, withSections s st')) <$> buildBlock prog (cur_op, st) next.
Proof.
  intros Hhead. unfold buildBlock.
  change (m_jumpBlocks (withSections s st)) with (m_jumpBlocks st).
  destruct (assert (bool_decide (is_Some (m_jumpBlocks st !! cur_op))) _) as [[]|e];
    [|done].
  cbn [mbind Result_bind].
  change (jumpBlockAt cur_op (withSections s st)) with (jumpBlockAt cur_op st).
  destruct (jumpBlockAt cur_op st) as [curBlock|e]; [|done]. cbn [mbind Result_bind].
  set (st_a := print [OutStr "NEW block at: "; OutNum (Z.of_N cur_op); OutEndl;
                      OutStr "  next: "; OutNum (Z.of_N next); OutEndl]
                 (setInsertionPointToEnd curBlock st)).
  change (print [OutStr "NEW block at: "; OutNum (Z.of_N cur_op); OutEndl;
                 OutStr "  next: "; OutNum (Z.of_N next); OutEndl]
            (setInsertionPointToEnd curBlock (withSections s st)))
    with (withSections s st_a).
  rewrite withSections_setupRegisters.
  destruct (setupRegisters curBlock st_a) as [st_b|e] eqn:Hsetup; [|done].
  cbn [fmap Result_fmap mbind Result_bind].
  unfold translateUpTo. rewrite withSections_translate
    by (by rewrite (setupRegisters_sections _ _ _ Hsetup)).
  destruct (translate _ prog cur_op st_b) as [[c st_c]|e]; [|done].
  cbn [fmap Result_fmap mbind Result_bind].
  change (blockOpsOf curBlock (withSections s st_c)) with (blockOpsOf curBlock st_c).
  destruct (lacksTerminator _); [|done].
  change (m_jumpBlocks (withSections s st_c)) with (m_jumpBlocks st_c).
  destruct (assert (bool_decide (is_Some (m_jumpBlocks st_c !! next))) _) as [[]|e];
    [|done].
  cbn [mbind Result_bind].
  change (jumpBlockAt next (setInsertionPointToEnd curBlock (withSections s st_c)))
    with (jumpBlockAt next (setInsertionPointToEnd curBlock st_c)).
  by destruct (jumpBlockAt next _).
Qed.

Lemma buildBlocks_sections prog bounds cur_op st cur1 st1 :
  foldM (buildBlock prog) bounds (cur_op, st) = Done (cur1, st1) ->
  m_sections st1 = m_sections st.
Proof.
  revert cur_op st. induction bounds as [|next bounds IH]; intros cur_op st H.
  - by injection H as <- <-.
  - cbn [foldM] in H. step H as [c2 st2] Hb.
    rewrite (IH _ _ H). by eapply buildBlock_sections.
Qed.

Lemma withSections_buildBlocks prog bounds cur_op st :
  head (m_sections st) = head s ->
  foldM (buildBlock prog) bounds (cur_op, withSections s st)
  = (fun '(c, st') => (c, withSections s st'))
      <$> foldM (buildBlock prog) bounds (cur_op, st).
Proof.
  revert cur_op st. induction bounds as [|next bounds IH]; intros cur_op st Hhead; [done|].
  cbn [foldM]. rewrite withSections_buildBlock by done.
  destruct (buildBlock prog (cur_op, st) next) as [[c st1]|e] eqn:Hb; [|done].
  cbn [fmap Result_fmap mbind Result_bind]. apply IH.
  by rewrite (buildBlock_sections _ _ _ _ _ _ Hb).
Qed.

Lemma collectBlocks_sections st st' :
  collectBlocks st = Done st' -> m_sections st' = m_sections st.
Proof.
  unfold collectBlocks. intros H. step H as prog Hprog. step H as ? Hcount.
  injection H as <-. simpl. clear. revert st.
  induction prog as [|[label ins] prog IH]; intros st; [done|]. simpl. rewrite IH.
  destruct ins; try done. simpl.
  assert (forall x st0, m_sections (incrementBlocks x st0) = m_sections st0) as Hinc.
  { intros x st0. unfold incrementBlocks. by destruct (decide _). }
  destruct (cond j); rewrite ?Hinc; destruct (decide _); by rewrite ?Hinc.
Qed.

Lemma withSections_collectBlocks st :
  head (m_sections st) = head s ->
  collectBlocks (withSections s st) = withSections s <$> collectBlocks st.
Proof.
  intros Hhead. unfold collectBlocks.
  change (m_sections (withSections s st)) with s. rewrite <- Hhead.
  destruct (head (m_sections st)) as [prog|]; [|done]. cbn [fromOption mbind Result_bind].
  rewrite withSections_collect.
  change (m_numBlocks (withSections s (foldl collectBlock st prog)))
    with (m_numBlocks (foldl collectBlock st prog)).
  change (m_startOfNextBlock (withSections s (foldl collectBlock st prog)))
    with (m_startOfNextBlock (foldl collectBlock st prog)).
  by destruct (assert _ _) as [[]|e].
Qed.

Lemma withSections_buildFunctionBody st :
  head (m_sections st) = head s ->
  buildFunctionBody (withSections s st) = withSections s <$> buildFunctionBody st.
Proof.
  intros Hhead. unfold buildFunctionBody.
  change (m_sections (withSections s st)) with s. rewrite <- Hhead.
  destruct (head (m_sections st)) as [prog|] eqn:Hprog; [|done].
  cbn [fromOption mbind Result_bind].
  rewrite withSections_collectBlocks by (by rewrite Hprog).
  destruct (collectBlocks st) as [st_c|e] eqn:Hc; [|done].
  cbn [fmap Result_fmap mbind Result_bind].
  pose proof (collectBlocks_sections _ _ Hc) as Hsec_c.
  set (st_p := print [OutNum (Z.of_nat (length prog)); OutStr " instructions"; OutEndl] st_c).
  change (print [OutNum (Z.of_nat (length prog)); OutStr " instructions"; OutEndl]
            (withSections s st_c)) with (withSections s st_p).
  change (m_startOfNextBlock (withSections s st_p)) with (m_startOfNextBlock st_p).
  rewrite withSections_buildBlocks by (simpl; by rewrite Hsec_c, Hprog).
  destruct (foldM (buildBlock prog) (m_startOfNextBlock st_p) (0%N, st_p))
    as [[cur_op st_l]|e] eqn:Hl; [|done].
  cbn [fmap Result_fmap mbind Result_bind].
  assert (m_sections st_l = m_sections st) as Hsec_l.
  { rewrite (buildBlocks_sections _ _ _ _ _ _ Hl). exact Hsec_c. }
  destruct (cur_op <? N.of_nat (length prog))%N.
  - change (m_lastBlock (withSections s st_l)) with (m_lastBlock st_l).
    change (setInsertionPointToEnd (m_lastBlock st_l) (withSections s st_l))
      with (withSections s (setInsertionPointToEnd (m_lastBlock st_l) st_l)).
    change (m_lastBlock (withSections s (setInsertionPointToEnd (m_lastBlock st_l) st_l)))
      with (m_lastBlock (setInsertionPointToEnd (m_lastBlock st_l) st_l)).
    rewrite withSections_setupRegisters.
    destruct (setupRegisters _ _) as [st_s|e] eqn:Hs; [|done].
    cbn [fmap Result_fmap mbind Result_bind].
    unfold translateUpTo. rewrite withSections_translate.
    + by destruct (translate _ prog cur_op st_s) as [[c st_t]|e].
    + rewrite (setupRegisters_sections _ _ _ Hs). simpl. by rewrite Hsec_l, Hprog.
  - cbn [mbind Result_bind].
    unfold translateUpTo. rewrite withSections_translate by (by rewrite Hsec_l, Hprog).
    by destruct (translate _ prog cur_op st_l) as [[c st_t]|e].
Qed.

End OtherSections.

(** X19: only the first section is lifted. The function built from a list of
    sections is the function built from its first section alone: the blocks,
    the operations, the registers and the diagnostics do not depend on the
    sections behind the first, which are kept in the object and never
    read. *)
Theorem only_first_section_is_lifted (prog : InstructionSeq) (rest : list InstructionSeq) :
  buildXDPFunction (initial (prog :: rest))
  = withSections (prog :: rest) <$> buildXDPFunction (initial [prog]).
Proof.
  unfold buildXDPFunction.
  change (enterXDPFunction (initial (prog :: rest)))
    with (withSections (prog :: rest) (enterXDPFunction (initial [prog]))).
  rewrite withSections_buildFunctionBody by done.
  destruct (buildFunctionBody (enterXDPFunction (initial [prog]))) as [st1|e]; [|done].
  cbn [fmap Result_fmap mbind Result_bind].
  change (m_lastBlock (withSections (prog :: rest) st1)) with (m_lastBlock st1).
  change (setInsertionPointToEnd (m_lastBlock st1) (withSections (prog :: rest) st1))
    with (withSections (prog :: rest) (setInsertionPointToEnd (m_lastBlock st1) st1)).
  change (m_lastBlock (withSections (prog :: rest)
                         (setInsertionPointToEnd (m_lastBlock st1) st1)))
    with (m_lastBlock st1).
  rewrite withSections_writeReg.
  destruct (writeReg _ _ (setInsertionPointToEnd (m_lastBlock st1) st1)) as [st2|e]; [|done].
  cbn [fmap Result_fmap mbind Result_bind].
  change (readReg (N.of_nat R0_RETURN_VALUE) (withSections (prog :: rest) st2))
    with (readReg (N.of_nat R0_RETURN_VALUE) st2).
  destruct (readReg _ st2) as [r0|e]; [|done]. cbn [mbind Result_bind].
  by destruct (assert _ _) as [[]|e].
Qed.

Example second_section_ignored :
  blocks <$> buildXDPFunction (initial [straightLine; loopBack])
  = blocks <$> buildXDPFunction (initial [straightLine]).
Proof. vm_compute. reflexivity. Qed.

End DeserializeFacts.

(** ** Use lists that agree with the operands *)

Lemma walkFrom_invariant_in (I : ModuleOp -> Prop) visit b :
  (forall op m m', I m -> op ∈ blockOps m b -> visit op m = Done m' -> I m') ->
  forall fuel cur m m',
    I m -> (forall op, cur = Some op -> op ∈ blockOps m b) ->
    walkFrom visit fuel b cur m = Done m' -> I m'.
Proof.
  intros Hvisit fuel. induction fuel as [|fuel IH]; intros cur m m' Hm Hcur H.
  - destruct cur; simpl in H; [discriminate|]. by injection H as <-.
  - destruct cur as [op|]; simpl in H; [|by injection H as <-].
    step H as m1 Hv. eapply IH; [|  |exact H].
    + eapply Hvisit; [exact Hm| |exact Hv]. by apply Hcur.
    + intros op' Hnext. rewrite nextAfter_behind in Hnext.
      apply (behind_elem (op_id op)).
      destruct (behind (op_id op) (blockOps m1 b)); [done|].
      injection Hnext as ->. by left.
Qed.

Lemma walkBlock_invariant_in (I : ModuleOp -> Prop) visit b m m' :
  (forall op m m', I m -> op ∈ blockOps m b -> visit op m = Done m' -> I m') ->
  I m -> walkBlock visit b m = Done m' -> I m'.
Proof.
  intros Hvisit Hm H. unfold walkBlock in H.
  eapply (walkFrom_invariant_in I visit b Hvisit); [exact Hm| |exact H].
  intros op Hop. destruct (blockOps m b); [done|]. injection Hop as ->. by left.
Qed.

Lemma elem_of_insertAfter id new o ops :
  o ∈ insertAfter id new ops -> o ∈ ops \/ o = new.
Proof.
  induction ops as [|x ops IH]; simpl; [by left|].
  destruct (decide (op_id x = id)).
  - rewrite !elem_of_cons. tauto.
  - rewrite !elem_of_cons. intros [?|Ho]; [tauto|]. destruct (IH Ho); tauto.
Qed.

Lemma elem_of_allOps_createAfter id name operands m o :
  o ∈ allOps (createAfter id name operands m).2 ->
  o ∈ allOps m \/ o = created name operands m.
Proof.
  rewrite (allOps_body _ _ (createAfter_body id name operands m)), allOps_mapBlocks.
  unfold allOps. induction (map blk_ops (allBlocks m)) as [|l ls IH]; simpl; [by left|].
  rewrite !elem_of_app. intros [Ho|Ho].
  - apply elem_of_insertAfter in Ho. tauto.
  - destruct (IH Ho); tauto.
Qed.

Lemma find_none_all {A} (p : A -> bool) l :
  (forall x, x ∈ l -> p x = false) -> List.find p l = None.
Proof.
  induction l as [|x l IH]; intros H; simpl; [done|].
  rewrite (H x) by (by left). apply IH. intros y Hy. apply H. by right.
Qed.

Lemma find_insertAfter_new p id new ops :
  id ∈ map op_id ops -> (forall o, o ∈ ops -> p o = false) -> p new = true ->
  List.find p (insertAfter id new ops) = Some new.
Proof.
  intros Hin Hold Hnew. induction ops as [|o ops IH]; [by apply elem_of_nil in Hin|].
  simpl. destruct (decide (op_id o = id)); simpl.
  - rewrite (Hold o) by (by left). by rewrite Hnew.
  - rewrite (Hold o) by (by left). apply IH.
    + simpl in Hin. apply elem_of_cons in Hin as [?|?]; [congruence|done].
    + intros o' Ho'. apply Hold. by right.
Qed.

Lemma lookupOp_createAfter_fresh id name operands m :
  id ∈ map op_id (allOps m) ->
  (forall o, o ∈ allOps m -> op_id o <> mod_fresh m) ->
  lookupOp (createAfter id name operands m).2 (mod_fresh m)
  = Some (created name operands m).
Proof.
  intros Hin Hold. unfold lookupOp.
  rewrite (allOps_body _ _ (createAfter_body id name operands m)), allOps_mapBlocks.
  unfold allOps in Hin, Hold.
  set (p := fun o : Operation => bool_decide (op_id o = mod_fresh m)).
  assert (forall o, o ∈ concat (map blk_ops (allBlocks m)) -> p o = false) as Hp.
  { intros o Ho. apply bool_decide_eq_false. by apply Hold. }
  assert (p (created name operands m) = true) as Hnew by (by apply bool_decide_eq_true).
  clear Hold. induction (map blk_ops (allBlocks m)) as [|l ls IH]; simpl in *.
  - by apply elem_of_nil in Hin.
  - rewrite find_app. destruct (decide (id ∈ map op_id l)) as [Hl|Hl].
    + rewrite find_insertAfter_new; [done|done| |done].
      intros o Ho. apply Hp. apply elem_of_app. by left.
    + rewrite insertAfter_absent by done.
      rewrite find_none_all by (intros o Ho; apply Hp, elem_of_app; by left).
      apply IH.
      * rewrite map_app in Hin. apply elem_of_app in Hin as [?|?]; done.
      * intros o Ho. apply Hp, elem_of_app. by right.
Qed.

Lemma addUses_Forall (Q : Value -> Use -> Prop) owner i operands uses :
  map_Forall (fun v us => Forall (Q v) us) uses ->
  (forall k v, operands !! k = Some v -> Q v {| use_owner := owner; use_index := i + k |}) ->
  map_Forall (fun v us => Forall (Q v) us) (addUses owner i operands uses).
Proof.
  revert i uses. induction operands as [|x operands IH]; intros i uses Huses Hnew; [done|].
  simpl. apply IH.
  - apply map_Forall_insert_2; [|done]. constructor.
    + specialize (Hnew 0%nat x eq_refl). by rewrite Nat.add_0_r in Hnew.
    + destruct (uses !! x) as [us|] eqn:Hx; simpl; [by eapply Huses|constructor].
  - intros k v Hk. specialize (Hnew (S k) v Hk).
    by replace (S i + k)%nat with (i + S k)%nat by lia.
Qed.

Lemma usePointsTo_owner m v u :
  usePointsTo m v u ->
  exists o, lookupOp m (use_owner u) = Some o /\ op_operands o !! use_index u = Some v
            /\ o ∈ allOps m /\ op_id o = use_owner u.
Proof.
  unfold usePointsTo. destruct (lookupOp m (use_owner u)) as [o|] eqn:Ho; [|done].
  simpl. intros Hv. apply lookupOp_Some in Ho as H. destruct H. eauto.
Qed.

Lemma wellFormed_createAfter op m name operands :
  wellFormed m -> op ∈ allOps m ->
  (forall v, v ∈ operands -> v ∈ op_operands op) ->
  wellFormed (createAfter (op_id op) name operands m).2.
Proof.
  intros (Hids & Hops & Huses) Hop Hsub.
  rewrite Forall_forall in Hids. rewrite Forall_forall in Hops.
  set (m1 := (createAfter (op_id op) name operands m).2).
  assert (mod_fresh m1 = S (mod_fresh m)) as Hfresh by done.
  split; [|split].
  - rewrite Forall_forall. intros o [Ho| ->]%elem_of_allOps_createAfter; rewrite Hfresh.
    + specialize (Hids o Ho). lia.
    + simpl. lia.
  - rewrite Forall_forall. intros o Ho. rewrite Forall_forall. intros v Hv.
    apply elem_of_allOps_createAfter in Ho as [Ho| ->].
    + specialize (Hops o Ho). rewrite Forall_forall in Hops. specialize (Hops v Hv).
      destruct v; simpl in *; [lia|done|done].
    + simpl in Hv. apply Hsub in Hv.
      specialize (Hops op Hop). rewrite Forall_forall in Hops. specialize (Hops v Hv).
      specialize (Hids op Hop).
      destruct v; simpl in *; [lia|done|done].
  - unfold m1, createAfter. simpl. apply addUses_Forall.
    + intros v us Hv. specialize (Huses v us Hv). simpl in Huses.
      rewrite Forall_forall in Huses. rewrite Forall_forall. intros u Hu.
      destruct (usePointsTo_owner _ _ _ (Huses u Hu)) as (o & Hlook & Hoperand & Hin & Hid).
      unfold usePointsTo.
      fold (createAfter (op_id op) name operands m).2.
      change (lookupOp _ (use_owner u))
        with (lookupOp (createAfter (op_id op) name operands m).2 (use_owner u)).
      rewrite lookupOp_createAfter; [by rewrite Hlook|].
      specialize (Hids o Hin). lia.
    + intros k v Hk. unfold usePointsTo. simpl.
      change (lookupOp _ (mod_fresh m))
        with (lookupOp (createAfter (op_id op) name operands m).2 (mod_fresh m)).
      rewrite lookupOp_createAfter_fresh.
      * done.
      * apply list_elem_of_fmap. by exists op.
      * intros o Ho. specialize (Hids o Ho). lia.
Qed.

Lemma rewire_operand us new o i v :
  op_operands (rewire us new o) !! i = Some v ->
  op_operands o !! i = Some v
  \/ (v = new /\ exists u, u ∈ us /\ use_owner u = op_id o /\ use_index u = i).
Proof.
  unfold rewire. revert o. induction us as [|u us IH]; intros o H; simpl in H; [by left|].
  apply IH in H as [H|(-> & u' & Hu' & Hown & Hidx)].
  - unfold setOperand in H. destruct (decide _) as [Heq|]; [|by left]. simpl in H.
    apply list_lookup_insert_Some in H as [(Hi & <- & _)|(Hne & H)]; [|by left].
    right. split; [done|]. exists u. split; [by left|]. done.
  - right. split; [done|]. exists u'. rewrite setOperand_id in Hown.
    split; [by right|done].
Qed.

Lemma rewire_keeps us new o i :
  (forall u, u ∈ us -> use_owner u = op_id o -> use_index u <> i) ->
  op_operands (rewire us new o) !! i = op_operands o !! i.
Proof.
  unfold rewire. revert o. induction us as [|u us IH]; intros o H; simpl; [done|].
  rewrite IH.
  - unfold setOperand. destruct (decide _) as [Heq|]; [|done]. simpl.
    apply list_lookup_insert_ne. apply (H u); [by left|done].
  - intros u' Hu'. rewrite setOperand_id. apply H. by right.
Qed.

Lemma wellFormed_replaceAllUsesWith old n m :
  wellFormed m -> old <> OpResult n -> (n < mod_fresh m)%nat ->
  (forall u, u ∈ getUses m old -> use_owner u <> n) ->
  wellFormed (replaceAllUsesWith old (OpResult n) m).
Proof.
  intros Hwf Hne Hn Hown. pose proof Hwf as (Hids & Hops & Huses).
  rewrite Forall_forall in Hids. rewrite Forall_forall in Hops.
  assert (forall v u, v <> old -> u ∈ getUses m v ->
            usePointsTo (replaceAllUsesWith old (OpResult n) m) v u) as Hkeep.
  { intros v u Hv Hu. apply (uses_point m v u Hwf) in Hu.
    destruct (usePointsTo_owner _ _ _ Hu) as (o & Hlook & Hoperand & Hin & Hid).
    unfold usePointsTo. rewrite lookupOp_replaceAllUsesWith, Hlook. simpl.
    rewrite rewire_keeps; [done|].
    intros u' Hu' Howner Hidx.
    apply (uses_point m old u' Hwf) in Hu'.
    destruct (usePointsTo_owner _ _ _ Hu') as (o' & Hlook' & Hoperand' & _ & _).
    rewrite Howner, Hid, Hlook in Hlook'. injection Hlook' as <-.
    rewrite Hidx in Hoperand'. congruence. }
  split; [|split].
  - rewrite allOps_replaceAllUsesWith, Forall_forall.
    intros o' (o & -> & Ho)%list_elem_of_fmap.
    rewrite rewire_id. rewrite replaceAllUsesWith_eq. simpl. by apply Hids.
  - rewrite allOps_replaceAllUsesWith, Forall_forall.
    intros o' (o & -> & Ho)%list_elem_of_fmap.
    rewrite Forall_forall. intros v Hv.
    apply list_elem_of_lookup_1 in Hv as [i Hi].
    specialize (Hops o Ho). rewrite Forall_forall in Hops.
    apply rewire_operand in Hi as [Hi|(-> & u & Hu & Howner & _)].
    + apply list_elem_of_lookup_2 in Hi. specialize (Hops v Hi).
      destruct v; [|done|done]. unfold operandOk in *.
      rewrite rewire_id. rewrite replaceAllUsesWith_eq. simpl. done.
    + unfold operandOk. rewrite rewire_id. rewrite replaceAllUsesWith_eq. simpl.
      split; [done|]. rewrite <- Howner. intros Heq. by apply (Hown u).
  - rewrite replaceAllUsesWith_eq at 1. simpl.
    apply map_Forall_insert_2.
    + rewrite Forall_forall. intros u [Hu|Hu]%elem_of_app.
      * apply list_elem_of_In in Hu. apply in_rev in Hu. apply list_elem_of_In in Hu.
        pose proof (uses_point m old u Hwf Hu) as Hp.
        destruct (usePointsTo_owner _ _ _ Hp) as (o & Hlook & Hoperand & Hin & Hid).
        unfold usePointsTo. rewrite lookupOp_replaceAllUsesWith, Hlook. simpl.
        apply rewire_use; [done|done|]. by eapply lookup_lt_Some.
      * by apply Hkeep.
    + intros v us Hv. apply lookup_delete_Some in Hv as [Hv Hus].
      rewrite Forall_forall. intros u Hu. apply Hkeep; [done|].
      unfold getUses. by rewrite Hus.
Qed.

Lemma wellFormed_eraseFront m : wellFormed m -> wellFormed (eraseFront m).
Proof.
  intros (Hids & Hops & Huses). unfold eraseFront.
  destruct (mod_body m) as [|t rest] eqn:Hbody; [done|].
  assert (allOps m = concat (map blk_ops (topBlocks t))
                     ++ concat (map blk_ops (concat (map topBlocks rest)))) as Hall.
  { unfold allOps, allBlocks. rewrite Hbody. simpl. by rewrite map_app, concat_app. }
  rewrite Hall in Hids, Hops.
  apply Forall_app in Hids as [_ Hids]. apply Forall_app in Hops as [_ Hops].
  split; [exact Hids|]. split.
  - eapply Forall_impl; [exact Hops|]. intros o Ho.
    eapply Forall_impl; [exact Ho|]. by intros [].
  - simpl. intros v us' Hv. apply lookup_fmap_Some in Hv as (us & <- & Hus).
    apply Huses in Hus. simpl in Hus. rewrite Forall_forall in Hus.
    rewrite Forall_forall. intros u [Hdead Hu]%list_elem_of_filter.
    specialize (Hus u Hu). unfold usePointsTo in *.
    replace (lookupOp _ (use_owner u)) with (lookupOp m (use_owner u)); [done|].
    unfold lookupOp at 1. rewrite Hall, find_app.
    rewrite find_none_all; [done|].
    intros o Ho. apply bool_decide_eq_false. intros Heq. apply Hdead.
    rewrite <- Heq. apply list_elem_of_fmap. by exists o.
Qed.

Lemma find_perm_unique {A} (p : A -> bool) (l l' : list A) :
  (forall x y, x ∈ l -> y ∈ l -> p x = true -> p y = true -> x = y) ->
  l' ≡ₚ l -> List.find p l' = List.find p l.
Proof.
  intros Huniq Hperm.
  assert (forall l1 x, (forall a b, a ∈ l1 -> b ∈ l1 -> p a = true -> p b = true -> a = b) ->
                       x ∈ l1 -> p x = true -> List.find p l1 = Some x) as Hfind.
  { intros l1 x H1 Hx Hpx. destruct (List.find p l1) as [y|] eqn:Hy.
    - apply find_some in Hy as [Hin Hpy]. apply list_elem_of_In in Hin.
      f_equal. by apply H1.
    - apply list_elem_of_In in Hx. apply (find_none _ _ Hy) in Hx. congruence. }
  destruct (List.find p l) as [x|] eqn:Hx.
  - apply find_some in Hx as [Hin Hpx]. apply list_elem_of_In in Hin.
    apply Hfind; [|by rewrite Hperm|done].
    intros a b Ha Hb. rewrite Hperm in Ha, Hb. by apply Huniq.
  - apply find_none_all. intros y Hy. rewrite Hperm in Hy.
    apply list_elem_of_In in Hy. by apply (find_none _ _ Hx) in Hy.
Qed.

Lemma lookupOp_reordered m' m id :
  uniqueIds m -> reordered m' m -> lookupOp m' id = lookupOp m id.
Proof.
  intros [Hnd _] Hr. unfold lookupOp.
  apply find_perm_unique; [|by apply reordered_allOps].
  intros x y Hx Hy Hpx%bool_decide_eq_true Hpy%bool_decide_eq_true.
  apply list_elem_of_lookup_1 in Hx as [i Hi]. apply list_elem_of_lookup_1 in Hy as [j Hj].
  assert (i = j); [|congruence].
  eapply (NoDup_lookup _ i j (op_id x) Hnd).
  - by rewrite list_lookup_fmap, Hi.
  - rewrite list_lookup_fmap, Hj. simpl. congruence.
Qed.

Lemma wellFormed_reordered m' m :
  uniqueIds m -> reordered m' m -> wellFormed m -> wellFormed m'.
Proof.
  intros Hu Hr (Hids & Hops & Huses).
  pose proof Hr as (Huses' & Hfresh & _).
  pose proof (reordered_allOps _ _ Hr) as Hperm.
  split; [|split].
  - rewrite Hperm, Hfresh. exact Hids.
  - rewrite Hperm. eapply Forall_impl; [exact Hops|]. intros o Ho.
    eapply Forall_impl; [exact Ho|]. intros []; simpl; [by rewrite Hfresh|done|done].
  - rewrite Huses'. intros v us Hv. specialize (Huses v us Hv). simpl in *.
    eapply Forall_impl; [exact Huses|]. intros u Hp. unfold usePointsTo in *.
    by rewrite (lookupOp_reordered _ _ _ Hu Hr).
Qed.

(** [op] is replaced by a new operation on some of its operands. *)
Lemma wellFormed_replaced op m name operands :
  wellFormed m -> op ∈ allOps m ->
  (forall v, v ∈ operands -> v ∈ op_operands op) ->
  wellFormed (replaceAllUsesWith (OpResult (op_id op)) (OpResult (mod_fresh m))
                (createAfter (op_id op) name operands m).2).
Proof.
  intros Hwf Hop Hsub. pose proof Hwf as (Hids & Hops & Huses).
  rewrite Forall_forall in Hids. rewrite Forall_forall in Hops.
  pose proof (Hids op Hop) as Hlt.
  assert (OpResult (op_id op) ∉ operands) as Hnot.
  { intros Hin. apply Hsub in Hin. specialize (Hops op Hop).
    rewrite Forall_forall in Hops. specialize (Hops _ Hin). simpl in Hops. lia. }
  apply wellFormed_replaceAllUsesWith.
  - by apply wellFormed_createAfter.
  - intros [= Heq]. lia.
  - simpl. lia.
  - intros u Hu. rewrite getUses_createAfter in Hu by done.
    apply (uses_point m _ u Hwf) in Hu.
    destruct (usePointsTo_owner _ _ _ Hu) as (o & _ & _ & Hin & Hid).
    specialize (Hids o Hin). lia.
Qed.

Module ResolveMemoryInvariant.
Import ResolveMemory ResolveSpec ResolveSamples ResolveMemoryProofs.

Lemma replaceLoadWithLoadAddress_wellFormed op m s m' :
  wellFormed m -> op ∈ allOps m ->
  replaceLoadWithLoadAddress op m = Done (s, m') -> wellFormed m'.
Proof.
  intros Hwf Hop H. unfold replaceLoadWithLoadAddress in H.
  step H as ? Hused. step H as [replaceWithMem keepAsIs] Hscan.
  destruct keepAsIs; [by injection H as <- <-|].
  step H as ? Hisa. apply assert_Done in Hisa. rewrite Hisa in H.
  step H as l Hl. step H as r Hr. step H as ? Hempty.
  injection H as <- <-. apply fromOption_Done in Hl, Hr.
  apply wellFormed_replaced; [done|done|].
  intros v Hv. apply elem_of_cons in Hv as [->|Hv]; [by eapply list_elem_of_lookup_2|].
  apply elem_of_cons in Hv as [->|Hv]; [by eapply list_elem_of_lookup_2|].
  by apply elem_of_nil in Hv.
Qed.

Lemma resolve_visit_wellFormed op m m' :
  wellFormed m -> op ∈ allOps m -> visit op m = Done m' -> wellFormed m'.
Proof.
  intros Hwf Hop H. unfold visit in H. step H as [s m1] Hsite. injection H as <-.
  destruct (op_name op); try (by injection Hsite as <- <-);
    by eapply replaceLoadWithLoadAddress_wellFormed.
Qed.

(** X20: the address/scalar pass keeps the use lists and the operands in
    agreement. When, in the module given to the pass, every operation is older
    than the next fresh identity, every operand that is a result names an
    older operation other than its owner, and every use-list entry names an
    operand holding the value, the same holds of the module the pass
    returns. *)
Theorem resolve_keeps_use_lists (m m' : ModuleOp) :
  wellFormed m -> runOnOperation m = Done m' -> wellFormed m'.
Proof.
  intros Hwf H. unfold runOnOperation in H.
  step H as ? Hlen. step H as front Hfront. step H as back Hback.
  step H as ? Hf. step H as ? Hb. step H as funcOp Hfunc.
  eapply (foldM_invariant wellFormed); [|by apply wellFormed_eraseFront|exact H].
  intros m0 b m1 Hm0 Hwalk.
  eapply (walkBlock_invariant_in wellFormed visit b); [|exact Hm0|exact Hwalk].
  intros op m2 m3 Hm2 Hin Hv. eapply resolve_visit_wellFormed; [exact Hm2| |exact Hv].
  by eapply blockOps_allOps.
Qed.

Lemma resolve_keeps_use_lists_witness :
  exists m', runOnOperation (loadThenStoreBase LoadOp) = Done m' /\ wellFormed m'.
Proof.
  destruct (runOnOperation (loadThenStoreBase LoadOp)) as [m'|e] eqn:Hrun;
    [|vm_compute in Hrun; discriminate].
  exists m'. split; [done|].
  exact (resolve_keeps_use_lists _ m' (proj1 loadThenStoreBase_wellFormed) Hrun).
Defined.

End ResolveMemoryInvariant.

Module BtorLivenessInvariant.
Import BtorLiveness LivenessSamples BtorLivenessProofs.

Lemma replaceWithWriteInPlace_wellFormed op m s m' :
  wellFormed m -> uniqueIds m -> op ∈ allOps m ->
  replaceWithWriteInPlace op m = Done (s, m') -> wellFormed m'.
Proof.
  intros Hwf Hu Hop H. unfold replaceWithWriteInPlace in H.
  step H as [status m1] Hlive.
  pose proof (resultIsLiveAfter_reordered _ _ _ _ Hu Hlive) as Hr.
  pose proof (wellFormed_reordered _ _ Hu Hr Hwf) as Hwf1.
  assert (op ∈ allOps m1) as Hop1 by (by rewrite (reordered_allOps _ _ Hr)).
  destruct status; cbn [succeeded] in H; [|by injection H as <- <-].
  step H as value Hv. step H as base Hb. step H as index Hi.
  destruct (createAfter (op_id op) WriteInPlaceOp [value; base; index] m1)
    as [w m2] eqn:Hc.
  step H as ? Hempty. injection H as <- <-.
  apply fromOption_Done in Hv, Hb, Hi.
  assert (w = OpResult (mod_fresh m1) /\ m2 = (createAfter (op_id op) WriteInPlaceOp
             [value; base; index] m1).2) as [-> ->].
  { rewrite Hc. split; [|done]. by injection Hc as <- _. }
  apply wellFormed_replaced; [done|done|].
  intros v Hin.
  apply elem_of_cons in Hin as [->|Hin]; [by eapply list_elem_of_lookup_2|].
  apply elem_of_cons in Hin as [->|Hin]; [by eapply list_elem_of_lookup_2|].
  apply elem_of_cons in Hin as [->|Hin]; [by eapply list_elem_of_lookup_2|].
  by apply elem_of_nil in Hin.
Qed.

Lemma liveness_visit_wellFormed op m m' :
  wellFormed m -> uniqueIds m -> op ∈ allOps m -> visit op m = Done m' -> wellFormed m'.
Proof.
  intros Hwf Hu Hop H. unfold visit in H.
  step H as [status m1] Hsite. step H as ? Hok. injection H as <-.
  destruct (op_name op); try (by injection Hsite as <- <-);
    by eapply replaceWithWriteInPlace_wellFormed.
Qed.

(** X21: the liveness pass keeps the use lists and the operands in agreement,
    and identities unique. When the module given to the pass has unique
    operation and block identities, every operand that is a result names an
    older operation other than its owner, and every use-list entry names an
    operand holding the value, the same holds of the module the pass
    returns. *)
Theorem liveness_keeps_use_lists (m m' : ModuleOp) :
  uniqueIds m -> wellFormed m -> runOnOperation m = Done m' ->
  uniqueIds m' /\ wellFormed m'.
Proof.
  intros Hu Hwf H. unfold runOnOperation in H.
  step H as funcOp Hfront. destruct funcOp as [f|n]; [|done].
  step H as ? Hlen. step H as nextBlock Hback.
  assert (moduleOk m' /\ wellFormed m') as [[Hu' _] Hwf']; [|done].
  eapply (walkBlock_invariant_in (fun x => moduleOk x /\ wellFormed x) visit
            (blk_id nextBlock)); [| |exact H].
  - intros op m0 m1 [Hok Hwf0] Hin Hv. split.
    + by apply (liveness_visit_step _ _ _ _ Hok Hin Hv).
    + eapply liveness_visit_wellFormed; [exact Hwf0|by destruct Hok| |exact Hv].
      by eapply blockOps_allOps.
  - split; [|done]. split; [done|]. by destruct Hwf.
Qed.

Lemma selectThenRead_wellFormed : uniqueIds selectThenRead /\ wellFormed selectThenRead.
Proof.
  split.
  - apply (bool_decide_unpack _ (dec := uniqueIds_dec _)). vm_compute. exact I.
  - apply (bool_decide_unpack _ (dec := wellFormed_dec _)). vm_compute. exact I.
Qed.

Lemma liveness_keeps_use_lists_witness :
  exists m', runOnOperation selectThenRead = Done m' /\ uniqueIds m' /\ wellFormed m'.
Proof.
  destruct (runOnOperation selectThenRead) as [m'|e] eqn:Hrun;
    [|vm_compute in Hrun; discriminate].
  exists m'. split; [done|].
  exact (liveness_keeps_use_lists _ m' (proj1 selectThenRead_wellFormed)
           (proj2 selectThenRead_wellFormed) Hrun).
Defined.

End BtorLivenessInvariant.
